(** * Knowledge-base completion models: scoring, filtered ranking,
      inverse-query search and nearest-neighbour matching

    A shallow embedding of [kbc/models.py]: the abstract class [KBCModel]
    with its two implementations [CP] and [ComplEx], the filtered ranking
    loop [get_ranking], the optimisation loop of
    [projected_gradient_descent], and the matcher [__closest_matrix__] /
    [__closest_vector__].

    Numbers.  Tensor entries are rationals ([Q]) with exact arithmetic;
    rounding of the 32-bit floats of the original is outside the model.
    The facts below therefore relate values that the code itself
    computes (a rank to the scores it was counted from, a score to the
    formula it evaluates); where a fact compares two different ways of
    computing a number, its hypotheses keep the inputs to small integers,
    on which single precision is exact as well.
    Entity and relation ids, chunk and batch sizes are Python integers
    ([Z]).  Ranks are counts ([Z]); the original keeps them in a float
    tensor that holds small integers exactly. *)

From Stdlib Require Import ZArith QArith Qabs Lia String Ascii.
From stdpp Require Import gmap strings list fin_maps.

Local Open Scope Z_scope.

(** ** Exceptions and outcomes *)

(** The Python exceptions the modelled code can raise. *)
Inductive exn : Type :=
  | IndexError
  | KeyError
  | RuntimeError.

(** The outcome of running a piece of code: a value, a raised exception,
    or a loop that used up the iterations it was allowed. *)
Inductive outcome (A : Type) : Type :=
  | Done (a : A)
  | Raised (e : exn)
  | OutOfFuel.
Arguments Done {A} a.
Arguments Raised {A} e.
Arguments OutOfFuel {A}.

#[global] Instance outcome_ret : MRet outcome := λ A a, Done a.
#[global] Instance outcome_bind : MBind outcome := λ A B f x,
  match x with
  | Done a => f a
  | Raised e => Raised e
  | OutOfFuel => OutOfFuel
  end.
#[global] Instance outcome_fmap : FMap outcome := λ A B f x,
  match x with
  | Done a => Done (f a)
  | Raised e => Raised e
  | OutOfFuel => OutOfFuel
  end.

(** [while fuel cond body s]: the loop [while cond(s): s = body(s)], cut
    off after [fuel] iterations. *)
Fixpoint while {S : Type} (fuel : nat) (cond : S → bool)
    (body : S → outcome S) (s : S) : outcome S :=
  if cond s then
    match fuel with
    | O => OutOfFuel
    | Datatypes.S fuel' =>
        match body s with
        | Done s' => while fuel' cond body s'
        | Raised e => Raised e
        | OutOfFuel => OutOfFuel
        end
    end
  else Done s.

(** [iterate body n s]: the body run [n] times in a row from [s], as far
    as no run raises. *)
Fixpoint iterate {S : Type} (body : S → outcome S) (n : nat) (s : S)
    : outcome S :=
  match n with
  | O => Done s
  | Datatypes.S n' =>
      match body s with
      | Done s' => iterate body n' s'
      | Raised e => Raised e
      | OutOfFuel => OutOfFuel
      end
  end.

(** ** Tensors *)

Abbreviation vec := (list Q) (only parsing).

(** A two-dimensional tensor: its rows, and the number of columns (kept
    apart so that a tensor with no row still has a width). *)
Record tensor2 : Type := Tensor2 { ncols : nat; trows : list vec }.

Definition nrows (t : tensor2) : nat := length (trows t).

Definition wf_tensor2 (t : tensor2) : Prop :=
  Forall (λ r, length r = ncols t) (trows t).

Definition of_rows (d : nat) (rows : list vec) : tensor2 :=
  {| ncols := d; trows := rows |}.

Definition sum_list (xs : list Q) : Q := foldr Qplus 0%Q xs.

(** [sum_upto n f] is [f 0 + (f 1 + ... (f (n-1) + 0))]. *)
Definition sum_upto (n : nat) (f : nat → Q) : Q := sum_list (f <$> seq 0 n).

(** Broadcasting.  Two sizes broadcast when they are equal or one of
    them is 1; the operand of size 1 is repeated. *)
Definition broadcasts (m n : nat) : bool :=
  bool_decide (m = n) || bool_decide (m = 1%nat) || bool_decide (n = 1%nat).
Definition broadcast_size (m n : nat) : nat :=
  if decide (m = 1%nat) then n else m.

(** Two rows brought to one width the way torch broadcasts the last
    dimension: equal widths, or one of them of width 1. *)
Definition broadcast (x y : vec) : option (vec * vec) :=
  if decide (length x = length y) then Some (x, y)
  else if decide (length x = 1%nat) then
    Some (replicate (length y) (nth 0 x 0%Q), y)
  else if decide (length y = 1%nat) then
    Some (x, replicate (length x) (nth 0 y 0%Q))
  else None.

(** The rows of two tensors paired the way torch broadcasts the first
    dimension: equally many rows, or one of the tensors has one row. *)
Definition broadcast_rows (a b : list vec) : option (list (vec * vec)) :=
  if decide (length a = length b) then Some (zip a b)
  else if decide (length a = 1%nat) then
    Some ((λ y, (nth 0 a [], y)) <$> b)
  else if decide (length b = 1%nat) then
    Some ((λ x, (x, nth 0 b [])) <$> a)
  else None.

(** Element-wise operations [a * b], [a + b], [a - b] on tensors: the
    operands are broadcast to one shape, and shapes that do not broadcast
    raise a [RuntimeError].  The widths compared are those of the rows;
    for a result without rows, the declared ones. *)
Definition row_map2 (f : Q → Q → Q) (p : vec * vec) : outcome vec :=
  match broadcast p.1 p.2 with
  | Some (x, y) => Done (zip_with f x y)
  | None => Raised RuntimeError
  end.
Definition tmap2 (f : Q → Q → Q) (a b : tensor2) : outcome tensor2 :=
  match broadcast_rows (trows a) (trows b) with
  | Some pairs =>
      rows ← mapM (row_map2 f) pairs;
      if bool_decide (pairs = []) && negb (broadcasts (ncols a) (ncols b))
      then Raised RuntimeError
      else Done {| ncols := broadcast_size (ncols a) (ncols b);
                   trows := rows |}
  | None => Raised RuntimeError
  end.
Definition tmul : tensor2 → tensor2 → outcome tensor2 := tmap2 Qmult.
Definition tadd : tensor2 → tensor2 → outcome tensor2 := tmap2 Qplus.
Definition tsub : tensor2 → tensor2 → outcome tensor2 := tmap2 Qminus.

(** [t ** 2]. *)
Definition tsquare (t : tensor2) : tensor2 :=
  {| ncols := ncols t;
     trows := (λ r : vec, (λ v, v * v)%Q <$> r) <$> trows t |}.

(** [t[:, :k]] and [t[:, k:]] for a non-negative [k]. *)
Definition cols_to (k : nat) (t : tensor2) : tensor2 :=
  {| ncols := Nat.min k (ncols t); trows := take k <$> trows t |}.
Definition cols_from (k : nat) (t : tensor2) : tensor2 :=
  {| ncols := (ncols t - k)%nat; trows := drop k <$> trows t |}.

(** [torch.cat([a, b], 1)]. *)
Definition cat_cols (a b : tensor2) : tensor2 :=
  {| ncols := (ncols a + ncols b)%nat;
     trows := zip_with app (trows a) (trows b) |}.

(** [torch.sum(t, 1, keepdim=True)]: the column of row sums, as the list
    of its entries. *)
Definition sum_dim1 (t : tensor2) : list Q := sum_list <$> trows t.

(** [torch.mean] of a column; [None] stands for the [nan] that the mean of
    an empty tensor is. *)
Definition mean (xs : list Q) : option Q :=
  match xs with
  | [] => None
  | _ => Some (sum_list xs / inject_Z (Z.of_nat (length xs)))%Q
  end.

(** Python's [l[a:b]] for integers [a], [b] (negative bounds count from
    the end, bounds are clamped to the list). *)
Definition py_bound (n : nat) (a : Z) : nat :=
  if a <? 0 then Z.to_nat (Z.max (a + Z.of_nat n) 0)
  else Nat.min (Z.to_nat a) n.
Definition py_slice {A : Type} (l : list A) (a b : Z) : list A :=
  let lo := py_bound (length l) a in
  let hi := py_bound (length l) b in
  take (hi - lo)%nat (drop lo l).

Definition slice_rows (t : tensor2) (a b : Z) : tensor2 :=
  {| ncols := ncols t; trows := py_slice (trows t) a b |}.

Definition column (j : nat) (t : tensor2) : vec :=
  (λ r, nth j r 0%Q) <$> trows t.

(** [t.transpose(0, 1)]. *)
Definition transpose (t : tensor2) : tensor2 :=
  {| ncols := nrows t; trows := (λ k, column k t) <$> seq 0 (ncols t) |}.

Definition dot (x y : vec) : Q := sum_list (zip_with Qmult x y).

(** [a @ b]; the inner dimensions have to agree. *)
Definition matmul (a b : tensor2) : outcome tensor2 :=
  if decide (ncols a = nrows b) then
    Done {| ncols := ncols b;
            trows := (λ r, (λ j, dot r (column j b)) <$> seq 0 (ncols b))
                       <$> trows a |}
  else Raised RuntimeError.

(** An embedding table applied to a list of ids: [nn.Embedding] raises
    on an id outside [0, rows). *)
Definition lookup_row (t : tensor2) (id : Z) : outcome vec :=
  if id <? 0 then Raised IndexError
  else match trows t !! Z.to_nat id with
       | Some r => Done r
       | None => Raised IndexError
       end.
Definition embedding (t : tensor2) (ids : list Z) : outcome tensor2 :=
  rows ← mapM (lookup_row t) ids; mret (of_rows (ncols t) rows).

(** ** Queries *)

(** A row [(lhs, rel, rhs)] of the [queries] tensor. *)
Abbreviation triple := (Z * Z * Z)%type (only parsing).
Definition t_lhs (q : triple) : Z := q.1.1.
Definition t_rel (q : triple) : Z := q.1.2.
Definition t_rhs (q : triple) : Z := q.2.

(** ** The abstract class [KBCModel] *)

Class KBCModel (M : Type) : Type := {
  sizes : M → Z * Z * Z;
  get_rhs : M → Z → Z → tensor2;
  get_queries : M → list triple → outcome tensor2;
  get_queries_separated : M → list triple → outcome (tensor2 * tensor2);
  score : M → list triple → outcome (list Q);
  score_emb : M → tensor2 → tensor2 → tensor2 → outcome (option Q);
  model_type : M → string
}.

(** [self.sizes[2]]. *)
Definition sizes2 {M} `{KBCModel M} (m : M) : Z := (sizes m).2.

(** ** The model [CP] *)

Module CP.

Record model : Type := Model {
  sizes : Z * Z * Z;
  rank : nat;
  lhs : tensor2;
  rel : tensor2;
  rhs : tensor2
}.

Definition score (m : model) (x : list triple) : outcome (list Q) :=
  l ← embedding (lhs m) (t_lhs <$> x);
  r ← embedding (rel m) (t_rel <$> x);
  o ← embedding (rhs m) (t_rhs <$> x);
  lr ← tmul l r;
  lro ← tmul lr o;
  mret (sum_dim1 lro).

Definition score_emb (m : model) (l r o : tensor2) : outcome (option Q) :=
  lr ← tmul l r;
  lro ← tmul lr o;
  mret (mean (sum_dim1 lro)).

(** [forward]: the scores of every object for each (subject, relation)
    of the batch, and the three embeddings looked up. *)
Definition forward (m : model) (x : list triple)
    : outcome (tensor2 * (tensor2 * tensor2 * tensor2)) :=
  l ← embedding (lhs m) (t_lhs <$> x);
  r ← embedding (rel m) (t_rel <$> x);
  o ← embedding (rhs m) (t_rhs <$> x);
  lr ← tmul l r;
  scores ← matmul lr (transpose (rhs m));
  mret (scores, (l, r, o)).

Definition get_rhs (m : model) (chunk_begin chunk_size : Z) : tensor2 :=
  transpose (slice_rows (rhs m) chunk_begin (chunk_begin + chunk_size)).

Definition get_queries_separated (m : model) (x : list triple)
    : outcome (tensor2 * tensor2) :=
  l ← embedding (lhs m) (t_lhs <$> x);
  r ← embedding (rel m) (t_rel <$> x);
  mret (l, r).

Definition get_queries (m : model) (queries : list triple)
    : outcome tensor2 :=
  l ← embedding (lhs m) (t_lhs <$> queries);
  r ← embedding (rel m) (t_rel <$> queries);
  tmul l r.

Definition model_type (m : model) : string := "CP".

End CP.

#[global] Instance CP_KBCModel : KBCModel CP.model := {|
  sizes := CP.sizes;
  get_rhs := CP.get_rhs;
  get_queries := CP.get_queries;
  get_queries_separated := CP.get_queries_separated;
  score := CP.score;
  score_emb := CP.score_emb;
  model_type := CP.model_type
|}.

(** ** The model [ComplEx] *)

Module ComplEx.

(** [embeddings0] is the entity table, [embeddings1] the relation
    table; both have [2 * rank] columns, real halves first. *)
Record model : Type := Model {
  sizes : Z * Z * Z;
  rank : nat;
  embeddings0 : tensor2;
  embeddings1 : tensor2
}.

(** [lhs[0] * rel[0] - lhs[1] * rel[1]] and
    [lhs[0] * rel[1] + lhs[1] * rel[0]], the halves being the columns
    before and from [k]. *)
Definition product_re (k : nat) (l r : tensor2) : outcome tensor2 :=
  a ← tmul (cols_to k l) (cols_to k r);
  b ← tmul (cols_from k l) (cols_from k r);
  tsub a b.
Definition product_im (k : nat) (l r : tensor2) : outcome tensor2 :=
  a ← tmul (cols_to k l) (cols_from k r);
  b ← tmul (cols_from k l) (cols_to k r);
  tadd a b.

Definition bilinear (k : nat) (l r o : tensor2) : outcome tensor2 :=
  re ← product_re k l r;
  x ← tmul re (cols_to k o);
  im ← product_im k l r;
  y ← tmul im (cols_from k o);
  tadd x y.

Definition score (m : model) (x : list triple) : outcome (list Q) :=
  l ← embedding (embeddings0 m) (t_lhs <$> x);
  r ← embedding (embeddings1 m) (t_rel <$> x);
  o ← embedding (embeddings0 m) (t_rhs <$> x);
  t ← bilinear (rank m) l r o;
  mret (sum_dim1 t).

Definition score_emb (m : model) (l r o : tensor2) : outcome (option Q) :=
  t ← bilinear (rank m) l r o;
  mret (mean (sum_dim1 t)).

Definition get_rhs (m : model) (chunk_begin chunk_size : Z) : tensor2 :=
  transpose
    (slice_rows (embeddings0 m) chunk_begin (chunk_begin + chunk_size)).

Definition get_queries_separated (m : model) (queries : list triple)
    : outcome (tensor2 * tensor2) :=
  l ← embedding (embeddings0 m) (t_lhs <$> queries);
  r ← embedding (embeddings1 m) (t_rel <$> queries);
  mret (l, r).

Definition get_queries (m : model) (queries : list triple)
    : outcome tensor2 :=
  l ← embedding (embeddings0 m) (t_lhs <$> queries);
  r ← embedding (embeddings1 m) (t_rel <$> queries);
  re ← product_re (rank m) l r;
  im ← product_im (rank m) l r;
  mret (cat_cols re im).

Definition model_type (m : model) : string := "ComplEx".

End ComplEx.

#[global] Instance ComplEx_KBCModel : KBCModel ComplEx.model := {|
  sizes := ComplEx.sizes;
  get_rhs := ComplEx.get_rhs;
  get_queries := ComplEx.get_queries;
  get_queries_separated := ComplEx.get_queries_separated;
  score := ComplEx.score;
  score_emb := ComplEx.score_emb;
  model_type := ComplEx.model_type
|}.

(** ** Filtered ranking: [KBCModel.get_ranking] *)

(** [l[z]] for a Python integer [z] (negative indices count from the
    end). *)
Definition py_index {A : Type} (l : list A) (z : Z) : option A :=
  let n := Z.of_nat (length l) in
  if (0 <=? z) && (z <? n) then l !! Z.to_nat z
  else if (- n <=? z) && (z <? 0) then l !! Z.to_nat (z + n)
  else None.

(** The sentinel written over filtered scores. *)
Definition masked_score : Q := (-1e6)%Q.

(** [row[torch.LongTensor(idx)] = v]: every index has to lie in
    [-len(row), len(row)); a negative one counts from the end. *)
Fixpoint index_fill (row : vec) (idx : list Z) (v : Q) : outcome vec :=
  match idx with
  | [] => Done row
  | x :: idx' =>
      let n := Z.of_nat (length row) in
      if (- n <=? x) && (x <? n) then
        index_fill (<[Z.to_nat (if x <? 0 then x + n else x) := v]> row) idx' v
      else Raised IndexError
  end.

(** [torch.sum((scores >= targets).float(), dim=1)]: for each row, the
    number of entries that are at least the row's target. *)
Definition count_ge (t : Q) (row : vec) : Z :=
  Z.of_nat (length (filter (λ s, Qle_bool t s) row)).
Definition counts_ge (scores : tensor2) (targets : list Q) : list Z :=
  zip_with (λ row t, count_ge t row) (trows scores) targets.

(** [ranks[a:b] += counts]; the slice and [counts] both have one entry for
    each query of the batch. *)
Definition add_slice (ranks : list Z) (a b : Z) (counts : list Z) : list Z :=
  let lo := py_bound (length ranks) a in
  let hi := Nat.max lo (py_bound (length ranks) b) in
  take lo ranks
    ++ zip_with Z.add (take (hi - lo)%nat (drop lo ranks)) counts
    ++ drop hi ranks.

Section GetRanking.
Context {M : Type} `{KBCModel M}.

(** The body of the loop over [enumerate(these_queries)].  The list held
    by [filters] under the query's key is extended in place, so the
    grown list is written back into the dictionary (each key is taken
    to own its list). *)
Definition mask_query (m : M) (queries : list triple)
    (chunk_size c_begin b_begin : Z)
    (st : gmap (Z * Z) (list Z) * tensor2) (iq : nat * triple)
    : outcome (gmap (Z * Z) (list Z) * tensor2) :=
  let '(filters, scores) := st in
  let '(i, query) := iq in
  let key := (t_lhs query, t_rel query) in
  match filters !! key with
  | None => Raised KeyError
  | Some filter_out =>
      match py_index queries (b_begin + Z.of_nat i) with
      | None => Raised IndexError
      | Some qi =>
          let filter_out := filter_out ++ [t_rhs qi] in
          let filters := <[key := filter_out]> filters in
          let idx :=
            if chunk_size <? sizes2 m then
              (λ x, x - c_begin)
                <$> filter (λ x, c_begin ≤ x < c_begin + chunk_size)
                           filter_out
            else filter_out in
          match trows scores !! i with
          | None => Raised IndexError
          | Some row =>
              row' ← index_fill row idx masked_score;
              mret (filters,
                    {| ncols := ncols scores;
                       trows := <[i := row']> (trows scores) |})
          end
      end
  end.

Fixpoint mask_queries (m : M) (queries : list triple)
    (chunk_size c_begin b_begin : Z)
    (st : gmap (Z * Z) (list Z) * tensor2) (iqs : list (nat * triple))
    : outcome (gmap (Z * Z) (list Z) * tensor2) :=
  match iqs with
  | [] => Done st
  | iq :: iqs' =>
      st' ← mask_query m queries chunk_size c_begin b_begin st iq;
      mask_queries m queries chunk_size c_begin b_begin st' iqs'
  end.

(** The body of the loop over batches; the state is [b_begin] with the
    ranks and the filters. *)
Definition batch_body (m : M) (queries : list triple)
    (batch_size chunk_size c_begin : Z) (rhs : tensor2)
    (st : Z * (list Z * gmap (Z * Z) (list Z)))
    : outcome (Z * (list Z * gmap (Z * Z) (list Z))) :=
  let '(b_begin, (ranks, filters)) := st in
  let these_queries := py_slice queries b_begin (b_begin + batch_size) in
  q ← get_queries m these_queries;
  scores ← matmul q rhs;
  targets ← score m these_queries;
  '(filters, scores) ←
    mask_queries m queries chunk_size c_begin b_begin (filters, scores)
                 (imap pair these_queries);
  let ranks :=
    add_slice ranks b_begin (b_begin + batch_size)
              (counts_ge scores targets) in
  mret (b_begin + batch_size, (ranks, filters)).

(** The body of the loop over chunks; the state is [c_begin] with the
    ranks and the filters. *)
Definition chunk_body (fuel : nat) (m : M) (queries : list triple)
    (batch_size chunk_size : Z)
    (st : Z * (list Z * gmap (Z * Z) (list Z)))
    : outcome (Z * (list Z * gmap (Z * Z) (list Z))) :=
  let '(c_begin, rf) := st in
  let rhs := get_rhs m c_begin chunk_size in
  '(_, rf') ←
    while fuel (λ s, s.1 <? Z.of_nat (length queries))
          (batch_body m queries batch_size chunk_size c_begin rhs)
          (0, rf);
  mret (c_begin + chunk_size, rf').

(** [get_ranking] returns the ranks; the dictionary [filters] of the
    caller, which the call changes, is returned next to them (when the
    call raises, the state it leaves the dictionary in is not
    reported).  [fuel] bounds the iterations of each loop. *)
Definition get_ranking (fuel : nat) (m : M) (queries : list triple)
    (filters : gmap (Z * Z) (list Z)) (batch_size chunk_size : Z)
    : outcome (list Z * gmap (Z * Z) (list Z)) :=
  let chunk_size := if chunk_size <? 0 then sizes2 m else chunk_size in
  let ranks := replicate (length queries) 1 in
  '(_, rf) ←
    while fuel (λ s, s.1 <? sizes2 m)
          (chunk_body fuel m queries batch_size chunk_size)
          (0, (ranks, filters));
  mret rf.

End GetRanking.

(** ** Console output *)

(** The messages the code prints (the text of a caught exception, which
    some of them carry, is left out). *)
Inductive message : Type :=
  | CudaMemoryHack        (* "Cuda Memory not enough trying a hack" *)
  | CannotPairwise        (* "Cannot find Pairwise distance with error ..." *)
  | UnknownMethod         (* "The Method for computing the closest vectors is Unknown, ..." *)
  | CannotClosestMatrix   (* "Cannot Find the closest Matrix with error ..." *)
  | CannotClosestVector   (* "Cannot Find the closest Vector with error ..." *)
  | ConvergedEarly (i : Z) (* "Search converged early after i iterations" *)
  | CannotOptimize.       (* "Cannot optimize the queries with error ..." *)

(** ** Strings: [s.lower()] and [needle in s] (for ASCII strings) *)

Definition lower_ascii (c : ascii) : ascii :=
  let n := nat_of_ascii c in
  if ((65 <=? n) && (n <=? 90))%nat then ascii_of_nat (n + 32) else c.

Fixpoint lower (s : string) : string :=
  match s with
  | EmptyString => EmptyString
  | String c s' => String (lower_ascii c) (lower s')
  end.

Fixpoint contains (needle s : string) : bool :=
  String.prefix needle s ||
  match s with
  | EmptyString => false
  | String _ s' => contains needle s'
  end.

(** ** Nearest-neighbour matching *)

(** [torch.argmin] of a one-dimensional tensor: the first position of the
    least entry; it raises on an empty tensor ([None]). *)
Fixpoint argmin_from (best : nat) (bv : Q) (i : nat) (xs : list Q) : nat :=
  match xs with
  | [] => best
  | x :: xs' =>
      if Qle_bool bv x then argmin_from best bv (Datatypes.S i) xs'
      else argmin_from i x (Datatypes.S i) xs'
  end.
Definition argmin (xs : list Q) : option nat :=
  match xs with
  | [] => None
  | x :: xs' => Some (argmin_from 0%nat x 1%nat xs')
  end.

(** The square of [torch.pairwise_distance(x, y, p=2, eps)], which is
    [sqrt (sum_i (x_i - y_i + eps)^2)].  The distance itself is not
    rational; only its [argmin] is used, and squaring non-negative
    numbers keeps their order. *)
Definition pairwise_distance_sq (eps : Q) (x y : vec) : option Q :=
  '(x', y') ← broadcast x y;
  Some (sum_list ((λ d, d * d)%Q
                    <$> zip_with (λ a b, a - b + eps)%Q x' y')).

(** [x.clamp_min(lo)]. *)
Definition clamp_min (x lo : Q) : Q := if Qle_bool lo x then x else lo.

(** [torch.cosine_similarity(x, y, eps)] divides each operand by its
    norm, clamped from below by [eps], and sums the products: it is
    [x.y / (max (|x|, eps) * max (|y|, eps))].  This is its image
    [c * |c|] under the increasing map that sends [c] to [c * |c|], which
    is rational:
    [(x.y) * |x.y| / (max (|x|^2, eps^2) * max (|y|^2, eps^2))]. *)
Definition cosine_similarity_ssq (eps : Q) (x y : vec) : option Q :=
  '(x', y') ← broadcast x y;
  let w12 := dot x' y' in
  let w1 := dot x' x' in
  let w2 := dot y' y' in
  Some (w12 * Qabs w12
        / (clamp_min w1 (eps * eps) * clamp_min w2 (eps * eps)))%Q.

(** What [__closest_vector__] returns: the index of the chosen candidate
    and the candidate's row. *)
Abbreviation closest_vec := (nat * list Q)%type (only parsing).

(** What [__closest_matrix__] returns: on the fast Euclidean path a
    tensor with a row [(index, distance)] for each query, on the other
    paths the list of the results of [__closest_vector__]. *)
Inductive closest_matrix : Type :=
  | ClosestTensor (rows : list (nat * Q))
  | ClosestList (l : list (option closest_vec)).

(** [__expanded_pairwise_distances__]: the matrix of
    [|x_i|^2 + |y_j|^2 - 2 x_i.y_j]; a [RuntimeError] is printed and
    gives [None]. *)
Definition expanded_pairwise_distances (x : tensor2) (y : option tensor2)
    : list message * option tensor2 :=
  let x_norm := sum_dim1 (tsquare x) in
  let '(y, y_norm) :=
    match y with
    | Some y => (y, sum_dim1 (tsquare y))
    | None => (x, x_norm)
    end in
  match matmul x (transpose y) with
  | Done xy =>
      ([], Some {| ncols := length y_norm;
                   trows := zip_with
                     (λ xn xyrow, zip_with (λ yn p, xn + yn - 2 * p)%Q
                                           y_norm xyrow)
                     x_norm (trows xy) |})
  | _ => ([CannotPairwise], None)
  end.

(** [__closest_vector__].  Any exception in the body is printed and gives
    [None]: a metric that is neither Euclidean nor cosine leaves [dists]
    unbound, rows that do not broadcast raise, and so does [argmin] on no
    candidate. *)
Definition closest_vector (obj_vec : vec) (search_list : tensor2)
    (similarity_metric : string) : list message * option closest_vec :=
  let metric := lower similarity_metric in
  let dists : option (list Q) :=
    if contains "euclid" metric || contains "l2" metric then
      mapM (pairwise_distance_sq 1e-8 obj_vec) (trows search_list)
    else if contains "cos" metric then
      mapM (cosine_similarity_ssq 1e-8 obj_vec) (trows search_list)
    else None in
  match dists ≫= argmin with
  | Some min_ind =>
      match trows search_list !! min_ind with
      | Some row => ([], Some (min_ind, row))
      | None => ([CannotClosestVector], None)
      end
  | None => ([CannotClosestVector], None)
  end.

(** The loop [for obj_vec in obj_matrix: closest_matrix.append(...)]. *)
Fixpoint closest_vectors (objs : list vec) (search_list : tensor2)
    (similarity_metric : string)
    : list message * list (option closest_vec) :=
  match objs with
  | [] => ([], [])
  | obj_vec :: objs' =>
      let '(log1, c) := closest_vector obj_vec search_list similarity_metric in
      let '(log2, cs) := closest_vectors objs' search_list similarity_metric in
      (log1 ++ log2, c :: cs)
  end.

(** [torch.argmin(dists, 1)] with [dists.gather]: for each row the first
    position of its least entry, and that entry. *)
Definition row_min (row : vec) : option (nat * Q) :=
  i ← argmin row; d ← row !! i; Some (i, d).

(** [__closest_matrix__].  [cuda] tells whether the copies to the
    accelerator succeed; when they do not, a message is printed and the
    arguments are used as they are.  Any exception in the body is printed
    and gives [None]. *)
Definition closest_matrix_of (cuda : bool) (obj_matrix search_list : tensor2)
    (similarity_metric dist_comput_method : string)
    : list message * option closest_matrix :=
  let log0 := if cuda then [] else [CudaMemoryHack] in
  let metric := lower similarity_metric in
  let method := lower dist_comput_method in
  if contains "euclid" metric || contains "l2" metric then
    if contains "fast" method then
      let '(log1, dists) :=
        expanded_pairwise_distances obj_matrix (Some search_list) in
      match dists with
      | Some dists =>
          if decide (ncols dists = 0%nat) then
            (log0 ++ log1 ++ [CannotClosestMatrix], None)
          else
            match mapM row_min (trows dists) with
            | Some rows => (log0 ++ log1, Some (ClosestTensor rows))
            | None => (log0 ++ log1 ++ [CannotClosestMatrix], None)
            end
      | None => (log0 ++ log1 ++ [CannotClosestMatrix], None)
      end
    else if contains "stable" method then
      let '(log1, l) :=
        closest_vectors (trows obj_matrix) search_list similarity_metric in
      (log0 ++ log1, Some (ClosestList l))
    else (log0 ++ [UnknownMethod; CannotClosestMatrix], None)
  else if contains "cosine" metric then
    let '(log1, l) :=
      closest_vectors (trows obj_matrix) search_list similarity_metric in
    (log0 ++ log1, Some (ClosestList l))
  else (log0, Some (ClosestList [])).

(** ** Inverse query search: the loop of [projected_gradient_descent] *)

(** Arithmetic on scalars that may be [nan] ([None]). *)
Definition nan_sub (a b : option Q) : option Q :=
  x ← a; y ← b; Some (x - y)%Q.
Definition nan_neg (a : option Q) : option Q := x ← a; Some (- x)%Q.

(** [a > t]; a comparison with [nan] is false. *)
Definition nan_gt (a : option Q) (t : Q) : bool :=
  match a with
  | Some x => negb (Qle_bool x t)
  | None => false
  end.

(** The convergence threshold of the loop. *)
Definition threshold : Q := 1e-20%Q.

Section ProjectedGradientDescent.
Context {M : Type} `{KBCModel M}.

(** The collaborators of the search: the state [Opt] of the Adam
    optimiser, the regulariser, and [optimizer_step], which stands for
    [optimizer.zero_grad(); loss.backward(); optimizer.step()]: from the
    query, the current guess and the optimiser's state it gives the
    next guess and state, or raises a [RuntimeError] ([None]).  The
    regulariser and [score_emb] return a scalar that may be [nan], or
    raise (a [RuntimeError] on shapes that do not broadcast). *)
Variable Opt : Type.
Variable regularizer : tensor2 → tensor2 → tensor2 → outcome (option Q).
Variable optimizer_step :
  tensor2 → tensor2 → tensor2 → Opt → option (tensor2 * Opt).

Record pgd_state : Type := PgdState {
  pgd_i : Z;
  prev_loss : option Q;
  loss : option Q;
  obj_guess : tensor2;
  optimizer : Opt
}.

(** [i <= max_steps and (prev_loss - loss) > 1e-20]. *)
Definition pgd_cond (max_steps : Z) (st : pgd_state) : bool :=
  (pgd_i st <=? max_steps)
  && nan_gt (nan_sub (prev_loss st) (loss st)) threshold.

(** One iteration: the loss so far becomes [prev_loss], the new loss is
    [-(score_emb(lhs, pred, obj_guess) - l_reg)], the optimiser makes its
    step and the counter goes up by one.  Whatever the regulariser or
    [score_emb] raises ends the iteration. *)
Definition pgd_body (m : M) (lhs pred : tensor2) (st : pgd_state)
    : outcome pgd_state :=
  let prev_loss := loss st in
  l_reg ← regularizer lhs pred (obj_guess st);
  sc ← score_emb m lhs pred (obj_guess st);
  let loss := nan_neg (nan_sub sc l_reg) in
  match optimizer_step lhs pred (obj_guess st) (optimizer st) with
  | None => Raised RuntimeError
  | Some (guess, opt) =>
      Done {| pgd_i := pgd_i st + 1; prev_loss := prev_loss; loss := loss;
              obj_guess := guess; optimizer := opt |}
  end.

Definition pgd_init (guess : tensor2) (opt : Opt) : pgd_state :=
  {| pgd_i := 1; prev_loss := Some 1000%Q; loss := Some 999%Q;
     obj_guess := guess; optimizer := opt |}.

Definition pgd_loop (fuel : nat) (m : M) (lhs pred : tensor2)
    (max_steps : Z) (guess : tensor2) (opt : Opt) : outcome pgd_state :=
  while fuel (pgd_cond max_steps) (pgd_body m lhs pred)
        (pgd_init guess opt).

(** [projected_gradient_descent] up to the end of the search: the loop,
    the report of early convergence, and the handler of [RuntimeError],
    which prints and makes the function return [None].  [guess] is the
    random initial [obj_guess].  (The nearest-neighbour step that
    follows is [closest_matrix_of].) *)
Definition projected_gradient_descent (fuel : nat) (m : M)
    (lhs pred : tensor2) (max_steps : Z) (guess : tensor2) (opt : Opt)
    : list message * outcome (option pgd_state) :=
  match pgd_loop fuel m lhs pred max_steps guess opt with
  | Done st =>
      (if decide (pgd_i st ≠ max_steps) then [ConvergedEarly (pgd_i st)]
       else [],
       Done (Some st))
  | Raised RuntimeError => ([CannotOptimize], Done None)
  | Raised e => ([], Raised e)
  | OutOfFuel => ([], OutOfFuel)
  end.


(** What raises [e] in an iteration that starts in the state [st]: the
    regulariser, or [score_emb], or the optimiser step, which raises a
    [RuntimeError]. *)
Definition step_raises (m : M) (lhs pred : tensor2) (st : pgd_state)
    (e : exn) : Prop :=
  regularizer lhs pred (obj_guess st) = Raised e
  ∨ (∃ l_reg, regularizer lhs pred (obj_guess st) = Done l_reg
              ∧ score_emb m lhs pred (obj_guess st) = Raised e)
  ∨ (∃ l_reg sc, regularizer lhs pred (obj_guess st) = Done l_reg
                 ∧ score_emb m lhs pred (obj_guess st) = Done sc
                 ∧ optimizer_step lhs pred (obj_guess st) (optimizer st)
                   = None
                 ∧ e = RuntimeError).

End ProjectedGradientDescent.


(** ** Closed forms of the scores *)

(** The row of the table [t] for the id [id]. *)
Definition row_of (t : tensor2) (id : Z) : vec :=
  nth (Z.to_nat id) (trows t) [].
Definition valid_id (t : tensor2) (id : Z) : Prop :=
  0 ≤ id < Z.of_nat (nrows t).

(** The triples whose three ids are rows of the tables they are looked
    up in. *)
Definition valid_triple (t1 t2 t3 : tensor2) (q : Z * Z * Z) : Prop :=
  valid_id t1 (t_lhs q) ∧ valid_id t2 (t_rel q) ∧ valid_id t3 (t_rhs q).

(** The real product: the sum over the dimensions [i < d] of
    [subject_i * relation_i * object_i]. *)
Definition trilinear (d : nat) (s r o : vec) : Q :=
  sum_upto d (λ i, nth i s 0 * nth i r 0 * nth i o 0)%Q.

(** The complex bilinear product of vectors whose first [k] entries are
    the real parts and whose next [k] entries are the imaginary parts. *)
Definition re (x : vec) (i : nat) : Q := nth i x 0%Q.
Definition im (k : nat) (x : vec) (i : nat) : Q := nth (k + i) x 0%Q.
Definition complex_bilinear (k : nat) (l r o : vec) : Q :=
  sum_upto k (λ i,
    (re l i * re r i - im k l i * im k r i) * re o i
    + (re l i * im k r i + im k l i * re r i) * im k o i)%Q.

(** The tables of a model have the declared shapes. *)
Definition CP_wf (m : CP.model) : Prop :=
  wf_tensor2 (CP.lhs m) ∧ wf_tensor2 (CP.rel m) ∧ wf_tensor2 (CP.rhs m)
  ∧ ncols (CP.lhs m) = CP.rank m ∧ ncols (CP.rel m) = CP.rank m
  ∧ ncols (CP.rhs m) = CP.rank m
  ∧ Z.of_nat (nrows (CP.rhs m)) = (CP.sizes m).2.

Definition ComplEx_wf (m : ComplEx.model) : Prop :=
  wf_tensor2 (ComplEx.embeddings0 m) ∧ wf_tensor2 (ComplEx.embeddings1 m)
  ∧ ncols (ComplEx.embeddings0 m) = (2 * ComplEx.rank m)%nat
  ∧ ncols (ComplEx.embeddings1 m) = (2 * ComplEx.rank m)%nat
  ∧ Z.of_nat (nrows (ComplEx.embeddings0 m)) = (ComplEx.sizes m).2.

(** The reading of [score_emb] as one score for each row: whatever row
    [i] of the batch is taken, the value returned is the real product of
    that row. *)
Definition score_emb_per_row (m : CP.model) (l r o : tensor2) : Prop :=
  ∀ i, (i < nrows l)%nat →
    ∃ v, CP.score_emb m l r o = Done (Some v)
         ∧ (v == trilinear (ncols l) (nth i (trows l) [])
                           (nth i (trows r) []) (nth i (trows o) []))%Q.

(** ** Example models *)

(** Subject and object embedding (1,0,1,0), relation embedding
    (1,0,0,0), rank 2. *)
Definition complex_example : ComplEx.model :=
  ComplEx.Model (1, 1, 1) 2 (of_rows 4 [[1; 0; 1; 0]%Q])
                (of_rows 4 [[1; 0; 0; 0]%Q]).

(** A [CP] model of rank 1 with one subject, one relation and two
    objects, whose scores for the only (subject, relation) pair are 1 and
    2. *)
Definition cp_example : CP.model :=
  CP.Model (1, 1, 2) 1 (of_rows 1 [[1%Q]]) (of_rows 1 [[1%Q]])
           (of_rows 1 [[1%Q]; [2%Q]]).

(** ** Reference description of [get_ranking] *)

(** What the ranking loop relies on in a model: [get_rhs] serves the
    transposed slices of one table with [sizes[2]] rows, [get_queries]
    and [score] work row by row, and a triple that [score] accepts has a
    right-hand side among the candidates. *)
Definition lawful {M : Type} `{KBCModel M} (m : M) : Prop :=
  (∃ cands : tensor2,
      wf_tensor2 cands
      ∧ Z.of_nat (nrows cands) = sizes2 m
      ∧ (∀ c cs, get_rhs m c cs = transpose (slice_rows cands c (c + cs)))
      ∧ ∃ f : Z * Z * Z → outcome (list Q),
          ∀ qs, get_queries m qs = of_rows (ncols cands) <$> mapM f qs)
  ∧ (∃ g : Z * Z * Z → outcome Q,
      (∀ qs, score m qs = mapM g qs)
      ∧ ∀ q t, g q = Done t → 0 ≤ t_rhs q < sizes2 m).

(** The score of candidate [j] for the query embedding [v]: the entry of
    [v @ rhs] in column [j], [rhs] being all the candidates. *)
Definition cand_score {M : Type} `{KBCModel M} (m : M) (v : list Q) (j : nat)
    : Q :=
  dot v (column j (get_rhs m 0 (sizes2 m))).

(** The key of a query in [filters], and the right-hand sides of the
    queries of a list that have a given key. *)
Definition key_of (q : Z * Z * Z) : Z * Z := (t_lhs q, t_rel q).
Definition objs_for (k : Z * Z) (qs : list (Z * Z * Z)) : list Z :=
  t_rhs <$> filter (λ q, key_of q = k) qs.

(** [filters] after the queries of [ps] have been processed, in order:
    every list has grown by the right-hand sides of the queries with its
    key. *)
Definition grow (filters : gmap (Z * Z) (list Z)) (ps : list (Z * Z * Z))
    : gmap (Z * Z) (list Z) :=
  map_imap (λ k l, Some (l ++ objs_for k ps)) filters.

(** The list [filter_out] that query number [i] of [qs] sees in pass
    number [p] over the queries (one pass for each chunk), after its own
    right-hand side has been appended. *)
Definition filter_seen (filters : gmap (Z * Z) (list Z))
    (qs : list (Z * Z * Z)) (p i : nat) : list Z :=
  match qs !! i with
  | Some q =>
      default [] (filters !! key_of q)
      ++ objs_for (key_of q) (mjoin (replicate p qs) ++ take (S i) qs)
  | None => []
  end.

(** Candidate [j] is counted against a query with true score [t], filter
    list [fl] and embedding [v]: its score, or the sentinel when [j] is in
    [fl], is at least [t]. *)
Definition beats {M : Type} `{KBCModel M} (m : M) (t : Q) (fl : list Z)
    (v : list Q) (j : nat) : bool :=
  Qle_bool t (if bool_decide (Z.of_nat j ∈ fl) then masked_score
              else cand_score m v j).

(** The chunk size in force, and the number of chunks. *)
Definition chunk_size_used {M : Type} `{KBCModel M} (m : M) (chunk_size : Z)
    : Z :=
  if chunk_size <? 0 then sizes2 m else chunk_size.
Definition chunks {M : Type} `{KBCModel M} (m : M) (chunk_size : Z) : nat :=
  Z.to_nat ((sizes2 m + chunk_size_used m chunk_size - 1)
            / chunk_size_used m chunk_size).

(** Candidate [j] is counted against query number [i]: it is counted in
    the pass over the chunk it lies in, against the filter list seen in
    that pass. *)
Definition counted {M : Type} `{KBCModel M} (m : M)
    (filters : gmap (Z * Z) (list Z)) (qs : list (Z * Z * Z))
    (chunk_size : Z) (vs : list (list Q)) (ts : list Q) (i j : nat) : bool :=
  beats m (nth i ts 0%Q)
    (filter_seen filters qs (j / Z.to_nat (chunk_size_used m chunk_size)) i)
    (nth i vs []) j.

(** The rank of query number [i]: one more than the number of candidates
    counted against it. *)
Definition rank_of {M : Type} `{KBCModel M} (m : M)
    (filters : gmap (Z * Z) (list Z)) (qs : list (Z * Z * Z))
    (chunk_size : Z) (vs : list (list Q)) (ts : list Q) (i : nat) : Z :=
  1 + Z.of_nat (length (filter
        (λ j, counted m filters qs chunk_size vs ts i j)
        (seq 0 (Z.to_nat (sizes2 m))))).

(** ** The filtered rank of the specification *)

(** Candidate [j] is in the filter set of query number [i]: it is listed
    under the query's key in the filters given to the call, or it is the
    query's own true object. *)
Definition in_filter (filters : gmap (Z * Z) (list Z))
    (qs : list (Z * Z * Z)) (i : nat) (j : Z) : bool :=
  match qs !! i with
  | Some q =>
      bool_decide (j ∈ default [] (filters !! key_of q))
      || bool_decide (j = t_rhs q)
  | None => false
  end.

(** The filtered rank: one more than the number of candidates outside the
    filter set whose score is at least the true score. *)
Definition filtered_rank {M : Type} `{KBCModel M} (m : M)
    (filters : gmap (Z * Z) (list Z)) (qs : list (Z * Z * Z))
    (vs : list (list Q)) (ts : list Q) (i : nat) : Z :=
  1 + Z.of_nat (length (filter
        (λ j, negb (in_filter filters qs i (Z.of_nat j))
              && Qle_bool (nth i ts 0%Q) (cand_score m (nth i vs []) j))
        (seq 0 (Z.to_nat (sizes2 m))))).

(** The true objects of the queries that share the key of query number
    [i] are all in its filter set. *)
Definition same_key_filtered (filters : gmap (Z * Z) (list Z))
    (qs : list (Z * Z * Z)) (i : nat) : Prop :=
  ∀ q i' q', qs !! i = Some q → qs !! i' = Some q' →
    key_of q' = key_of q → in_filter filters qs i (t_rhs q') = true.

(** A row of scores for the candidates from [c] on, after the scores of
    the candidates in [fl] have been overwritten. *)
Definition mask_row (c : Z) (fl : list Z) (row : list Q) : list Q :=
  imap (λ j s, if bool_decide (c + Z.of_nat j ∈ fl) then masked_score else s)
       row.

(** The counts that one pass over the queries adds to the ranks: [rows]
    are the candidates of the chunk that starts at [c], [ps] the queries
    processed before, [es] the queries with their embeddings and true
    scores. *)
Fixpoint pass_counts (filters : gmap (Z * Z) (list Z)) (rows : list (list Q))
    (c : Z) (ps : list (Z * Z * Z)) (es : list (Z * Z * Z * list Q * Q))
    : list Z :=
  match es with
  | [] => []
  | (q, v, t) :: es' =>
      let fl := default [] (filters !! key_of q)
                ++ objs_for (key_of q) (ps ++ [q]) in
      count_ge t (mask_row c fl (dot v <$> rows))
      :: pass_counts filters rows c (ps ++ [q]) es'
  end.

(** The ranks after [n] more passes, the first over the chunk that starts
    at [c]: [cands] are the rows of all the candidates. *)
Fixpoint passes_from (n : nat) (filters : gmap (Z * Z) (list Z))
    (cands : list (list Q)) (chunk_size c : Z) (ps : list (Z * Z * Z))
    (es : list (Z * Z * Z * list Q * Q)) (ranks : list Z) : list Z :=
  match n with
  | O => ranks
  | S n' =>
      passes_from n' filters cands chunk_size (c + chunk_size)
        (ps ++ ((λ e, e.1.1) <$> es)) es
        (zip_with Z.add ranks
           (pass_counts filters (py_slice cands c (c + chunk_size)) c ps es))
  end.

(** A [CP] model of rank 1 with one subject, one relation and one object,
    whose only triple has the score [-1000 * 1000 * 1 = -1e6]. *)
Definition cp_sentinel : CP.model :=
  CP.Model (1, 1, 1) 1 (of_rows 1 [[(-1000)%Q]]) (of_rows 1 [[1000%Q]])
           (of_rows 1 [[1%Q]]).

(** Collaborators for a run of the search loop: a regulariser that is 0
    everywhere and an optimiser that leaves the guess as it is. *)
Definition zero_regularizer (lhs pred guess : tensor2) : outcome (option Q) :=
  Done (Some 0%Q).
Definition frozen_optimizer (lhs pred guess : tensor2) (opt : unit)
    : option (tensor2 * unit) :=
  Some (guess, opt).


(** Filters with the one key [(0, 0)] and nothing listed under it. *)
Definition no_filters : gmap (Z * Z) (list Z) := {[ (0, 0) := [] ]}.

(** Filters that list both objects of [cp_example] under [(0, 0)]. *)
Definition both_filters : gmap (Z * Z) (list Z) := {[ (0, 0) := [0; 1] ]}.

(** ** The claim about the search loop, as the specification words it *)


(** ** The claims about ranking, as the specification words them *)



(** Chunked ranking equals unchunked ranking. *)
Definition chunking_invariant {M : Type} `{KBCModel M} (fuel : nat) (m : M)
    (qs : list (Z * Z * Z)) (filters : gmap (Z * Z) (list Z))
    (batch_size chunk_size : Z) : Prop :=
  ∃ ranks filters1 filters2,
    get_ranking fuel m qs filters batch_size chunk_size
    = Done (ranks, filters1)
    ∧ get_ranking fuel m qs filters batch_size (-1) = Done (ranks, filters2).

(** The queries of [cp_example] with the one (subject, relation) pair and
    either object. *)
Definition two_queries : list (Z * Z * Z) := [(0, 0, 0); (0, 0, 1)].

(** The inputs [get_ranking] is described for: a lawful model, filters
    that have a list for the key of every query and list only candidates,
    a positive batch size, a chunk size other than 0, and fuel for the
    passes over the chunks and for the queries. *)
Definition ranking_inputs {M : Type} `{KBCModel M} (fuel : nat) (m : M)
    (qs : list (Z * Z * Z)) (filters : gmap (Z * Z) (list Z))
    (batch_size chunk_size : Z) : Prop :=
  lawful m
  ∧ Forall (λ q, is_Some (filters !! key_of q)) qs
  ∧ map_Forall (λ _ l, Forall (λ x, 0 ≤ x < sizes2 m) l) filters
  ∧ 0 < batch_size ∧ chunk_size ≠ 0
  ∧ (chunks m chunk_size ≤ fuel)%nat ∧ (length qs ≤ fuel)%nat.

(** ** Distances of the matcher *)

(** The entry of the matrix of [__expanded_pairwise_distances__] for the
    rows [x] and [y]: [|x|^2 + |y|^2 - 2 x.y]. *)
Definition expanded_dist (x y : list Q) : Q :=
  (dot x x + dot y y - 2 * dot x y)%Q.


(** The squared Euclidean distance of two rows of one width:
    [sum_i (x_i - y_i)^2]. *)
Definition sq_dist (x y : list Q) : Q :=
  sum_list ((λ d, d * d)%Q <$> zip_with Qminus x y).

(** A tensor of integers of absolute value at most [B]. *)
Definition integral_within (B : Z) (t : tensor2) : Prop :=
  Forall (Forall (λ v : Q, ∃ z : Z, v = inject_Z z ∧ Z.abs z ≤ B)) (trows t).

(** Queries and candidates on which single precision computes both
    distances without rounding the integers involved: integers of
    absolute value at most [B], with [4 * width * B^2] at most [2^22]. *)
Definition small_integers (B : Z) (x c : tensor2) : Prop :=
  0 ≤ B ∧ integral_within B x ∧ integral_within B c
  ∧ 4 * Z.of_nat (ncols c) * B * B ≤ 4194304.

(** Embedding tables of integers of absolute value at most [B], with
    [4 * width * B^3] at most [2^22]: the products of three entries and
    their sums over a row are integers that single precision holds
    exactly. *)
Definition small_integer_tables (B : Z) (width : nat)
    (tables : list tensor2) : Prop :=
  0 ≤ B ∧ Forall (integral_within B) tables
  ∧ 4 * Z.of_nat width * B * B * B ≤ 4194304.

(** The entry [(i, j)] of a matrix. *)
Definition entry (t : tensor2) (i j : nat) : Q :=
  nth j (nth i (trows t) []) 0%Q.


(** The metric is Euclidean for [__closest_matrix__]. *)
Definition euclidean (similarity_metric : string) : bool :=
  contains "euclid" (lower similarity_metric)
  || contains "l2" (lower similarity_metric).



(** * Facts *)

(** * Lists as tabulated functions *)

Lemma tabulate_nth {A} (d : A) (l : list A) n :
  length l = n → l = (λ i, nth i l d) <$> seq 0 n.
Proof.
  intros <-. apply list_eq. intros i.
  rewrite list_lookup_fmap.
  destruct (decide (i < length l)%nat) as [Hi|Hi].
  - rewrite lookup_seq_lt by done. simpl.
    destruct (lookup_lt_is_Some_2 l i Hi) as [x Hx].
    rewrite Hx. f_equal. by rewrite (nth_lookup_Some _ _ _ _ Hx).
  - rewrite lookup_seq_ge by lia. simpl. apply lookup_ge_None. lia.
Qed.

Lemma take_tabulate {A} (d : A) (l : list A) k :
  (k ≤ length l)%nat → take k l = (λ i, nth i l d) <$> seq 0 k.
Proof.
  intros Hk. rewrite (tabulate_nth d (take k l) k).
  2:{ rewrite length_take. lia. }
  apply list_fmap_ext. intros i j Hj%lookup_seq. 
  rewrite !nth_lookup, lookup_take_lt by lia. done.
Qed.

Lemma drop_tabulate {A} (d : A) (l : list A) k n :
  length l = (k + n)%nat → drop k l = (λ i, nth (k + i) l d) <$> seq 0 n.
Proof.
  intros Hl. rewrite (tabulate_nth d (drop k l) n).
  2:{ rewrite length_drop. lia. }
  apply list_fmap_ext. intros i j Hj%lookup_seq.
  by rewrite !nth_lookup, lookup_drop.
Qed.

Lemma zip_with_fmap_fmap {A B C D} (f : A → B → C) (g : D → A) (h : D → B)
    (l : list D) :
  zip_with f (g <$> l) (h <$> l) = (λ x, f (g x) (h x)) <$> l.
Proof. induction l as [|x l IH]; csimpl; [done|by rewrite IH]. Qed.

(** * Element-wise operations on tensors of one shape *)

Lemma broadcast_size_diag (n : nat) : broadcast_size n n = n.
Proof. unfold broadcast_size. by destruct (decide (n = 1%nat)). Qed.

Lemma row_map2_same_length (f : Q → Q → Q) (x y : list Q) :
  length x = length y → row_map2 f (x, y) = Done (zip_with f x y).
Proof.
  intros Hl. unfold row_map2, broadcast. cbn [fst snd].
  by rewrite decide_True.
Qed.

Lemma mapM_row_map2_zip (f : Q → Q → Q) (xs ys : list (list Q)) :
  Forall2 (λ x y, length x = length y) xs ys →
  mapM (row_map2 f) (zip xs ys) = Done (zip_with (zip_with f) xs ys).
Proof.
  induction 1 as [|x y xs ys Hxy _ IH]; [done|].
  cbn [zip_with mapM]. rewrite (row_map2_same_length f x y Hxy).
  cbn [mbind outcome_bind]. by rewrite IH.
Qed.

(** Tensors with as many rows, row by row of one width. *)
Lemma tmap2_zip (f : Q → Q → Q) (a b : tensor2) :
  Forall2 (λ x y, length x = length y) (trows a) (trows b) →
  (trows a = [] → broadcasts (ncols a) (ncols b) = true) →
  tmap2 f a b
  = Done {| ncols := broadcast_size (ncols a) (ncols b);
            trows := zip_with (zip_with f) (trows a) (trows b) |}.
Proof.
  intros Hrows Hcols. unfold tmap2, broadcast_rows.
  rewrite decide_True by (by eapply Forall2_length).
  rewrite (mapM_row_map2_zip f _ _ Hrows). cbn [mbind outcome_bind].
  destruct (trows a) as [|x xs] eqn:Ha.
  - cbn [zip_with]. rewrite bool_decide_eq_true_2 by done.
    by rewrite Hcols.
  - inversion Hrows; subst. cbn [zip_with].
    by rewrite bool_decide_eq_false_2.
Qed.

Lemma Forall2_same_width (d : nat) (xs ys : list (list Q)) :
  length xs = length ys →
  Forall (λ r, length r = d) xs → Forall (λ r, length r = d) ys →
  Forall2 (λ x y, length x = length y) xs ys.
Proof.
  intros Hl Hx. revert ys Hl.
  induction Hx as [|x xs Hx _ IH]; intros [|y ys] Hl Hy;
    cbn [length] in Hl; try lia; [constructor|].
  apply Forall_cons in Hy as [Hy Hys].
  constructor; [congruence|]. apply IH; [lia|done].
Qed.

Lemma zip_with_same_width (f : Q → Q → Q) (d : nat) (xs ys : list (list Q)) :
  Forall (λ r, length r = d) xs → Forall (λ r, length r = d) ys →
  Forall (λ r, length r = d) (zip_with (zip_with f) xs ys).
Proof.
  intros Hx. revert ys.
  induction Hx as [|x xs Hx _ IH]; intros [|y ys] Hy; cbn [zip_with];
    try constructor.
  - apply Forall_cons in Hy as [Hy _]. rewrite length_zip_with. lia.
  - apply Forall_cons in Hy as [_ Hys]. by apply IH.
Qed.

(** The rows of both operands given as functions of one list. *)
Lemma tmap2_fmap {A} (f : Q → Q → Q) (d1 d2 : nat) (g h : A → list Q)
    (xs : list A) :
  Forall (λ q, length (g q) = length (h q)) xs →
  (xs = [] → broadcasts d1 d2 = true) →
  tmap2 f (of_rows d1 (g <$> xs)) (of_rows d2 (h <$> xs))
  = Done (of_rows (broadcast_size d1 d2)
            ((λ q, zip_with f (g q) (h q)) <$> xs)).
Proof.
  intros Hlen Hcols. rewrite tmap2_zip.
  - cbn [of_rows ncols trows]. by rewrite zip_with_fmap_fmap.
  - cbn [of_rows trows]. apply Forall2_fmap.
    clear Hcols. induction Hlen; by constructor.
  - cbn [of_rows trows ncols]. intros Hnil%fmap_nil_inv. by apply Hcols.
Qed.

Lemma broadcasts_diag (n : nat) : broadcasts n n = true.
Proof. unfold broadcasts. by rewrite bool_decide_eq_true_2. Qed.

(** * Embedding lookups *)

Lemma mapM_outcome_fmap {A B} (f : A → outcome B) (g : A → B) (l : list A) :
  Forall (λ x, f x = Done (g x)) l → mapM f l = Done (g <$> l).
Proof.
  induction 1 as [|x l Hx _ IH]; [done|].
  cbn [mapM]. rewrite Hx. cbn. rewrite IH. done.
Qed.

Lemma lookup_row_valid (t : tensor2) (id : Z) :
  valid_id t id → lookup_row t id = Done (row_of t id).
Proof.
  intros [H0 H1]. unfold lookup_row, row_of, nrows in *.
  destruct (Z.ltb_spec id 0) as [|_]; [lia|].
  destruct (lookup_lt_is_Some_2 (trows t) (Z.to_nat id)) as [r Hr]; [lia|].
  rewrite Hr. by rewrite (nth_lookup_Some _ _ _ _ Hr).
Qed.

Lemma embedding_valid (t : tensor2) (ids : list Z) :
  Forall (valid_id t) ids →
  embedding t ids = Done (of_rows (ncols t) (row_of t <$> ids)).
Proof.
  intros Hv. unfold embedding.
  rewrite (mapM_outcome_fmap _ (row_of t)); [done|].
  eapply Forall_impl; [exact Hv|]. intros. by apply lookup_row_valid.
Qed.

Lemma row_of_length (t : tensor2) (id : Z) :
  wf_tensor2 t → valid_id t id → length (row_of t id) = ncols t.
Proof.
  intros Hwf [H0 H1]. unfold row_of, nrows in *.
  destruct (lookup_lt_is_Some_2 (trows t) (Z.to_nat id)) as [r Hr]; [lia|].
  rewrite (nth_lookup_Some _ _ _ _ Hr).
  by apply (Forall_lookup_1 _ _ _ _ Hwf Hr).
Qed.

(** * Products with a transposed table *)

Lemma column_transpose (S : tensor2) (j : nat) (row : vec) :
  wf_tensor2 S → trows S !! j = Some row → column j (transpose S) = row.
Proof.
  intros Hwf Hj. unfold column, transpose. cbn [trows].
  rewrite <- list_fmap_compose.
  rewrite (tabulate_nth 0%Q row (ncols S)) at 1.
  2:{ apply (Forall_lookup_1 _ _ _ _ Hwf Hj). }
  apply list_fmap_ext. intros i k Hk. cbn. unfold column.
  rewrite nth_lookup, list_lookup_fmap, Hj. cbn. done.
Qed.

Lemma matmul_transpose (a S : tensor2) :
  wf_tensor2 S → ncols a = ncols S →
  matmul a (transpose S)
  = Done {| ncols := nrows S; trows := (λ r, dot r <$> trows S) <$> trows a |}.
Proof.
  intros Hwf Hc. unfold matmul.
  assert (nrows (transpose S) = ncols S) as Hn.
  { unfold nrows, transpose. cbn. by rewrite length_fmap, length_seq. }
  rewrite Hn. destruct (decide (ncols a = ncols S)) as [_|]; [|done].
  f_equal. cbn [ncols transpose]. f_equal.
  apply list_fmap_ext. intros _ r _.
  rewrite (tabulate_nth [] (trows S) (nrows S) eq_refl) at 1.
  rewrite <- list_fmap_compose.
  apply list_fmap_ext. intros i j Hj%lookup_seq. cbn. f_equal.
  destruct (lookup_lt_is_Some_2 (trows S) j) as [row Hrow]; [unfold nrows in *; lia|].
  rewrite (nth_lookup_Some _ _ _ _ Hrow).
  by apply column_transpose.
Qed.

(** * The scores of [ComplEx] and [CP] *)

Lemma bilinear_row (k : nat) (l r o : vec) :
  length l = (2 * k)%nat → length r = (2 * k)%nat → length o = (2 * k)%nat →
  sum_list
    (zip_with Qplus
       (zip_with Qmult
          (zip_with Qminus (zip_with Qmult (take k l) (take k r))
                           (zip_with Qmult (drop k l) (drop k r)))
          (take k o))
       (zip_with Qmult
          (zip_with Qplus (zip_with Qmult (take k l) (drop k r))
                          (zip_with Qmult (drop k l) (take k r)))
          (drop k o)))
  = complex_bilinear k l r o.
Proof.
  intros Hl Hr Ho.
  rewrite !(take_tabulate 0%Q) by lia.
  rewrite !(drop_tabulate 0%Q _ k k) by lia.
  rewrite !zip_with_fmap_fmap. reflexivity.
Qed.

Lemma cols_to_fmap {A} (k d : nat) (g : A → list Q) (xs : list A) :
  cols_to k (of_rows d (g <$> xs))
  = of_rows (Nat.min k d) ((λ q, take k (g q)) <$> xs).
Proof. unfold cols_to, of_rows. cbn. by rewrite <- list_fmap_compose. Qed.

Lemma cols_from_fmap {A} (k d : nat) (g : A → list Q) (xs : list A) :
  cols_from k (of_rows d (g <$> xs))
  = of_rows (d - k) ((λ q, drop k (g q)) <$> xs).
Proof. unfold cols_from, of_rows. cbn. by rewrite <- list_fmap_compose. Qed.

(** The real and the imaginary part of the product of two batches of
    rows of width [2 * k], given as functions of one list. *)
Lemma product_re_fmap {A} (k dl dr : nat) (gl gr : A → list Q)
    (xs : list A) :
  Forall (λ q, length (gl q) = (2 * k)%nat ∧ length (gr q) = (2 * k)%nat)
         xs →
  (xs = [] → dl = (2 * k)%nat ∧ dr = (2 * k)%nat) →
  ∃ n, ComplEx.product_re k (of_rows dl (gl <$> xs)) (of_rows dr (gr <$> xs))
       = Done (of_rows n
           ((λ q, zip_with Qminus
                    (zip_with Qmult (take k (gl q)) (take k (gr q)))
                    (zip_with Qmult (drop k (gl q)) (drop k (gr q))))
              <$> xs))
       ∧ (dl = (2 * k)%nat → dr = (2 * k)%nat → n = k).
Proof.
  intros Hlen Hd. unfold ComplEx.product_re, tmul, tsub.
  rewrite !cols_to_fmap, !cols_from_fmap.
  rewrite tmap2_fmap.
  2:{ eapply Forall_impl; [exact Hlen|]. intros q [Hl Hr]. cbv beta.
      rewrite ?length_zip_with, ?length_take, ?length_drop; lia. }
  2:{ intros [-> ->]%Hd. apply broadcasts_diag. }
  cbn [mbind outcome_bind]. rewrite tmap2_fmap.
  2:{ eapply Forall_impl; [exact Hlen|]. intros q [Hl Hr]. cbv beta.
      rewrite ?length_zip_with, ?length_take, ?length_drop; lia. }
  2:{ intros [-> ->]%Hd. apply broadcasts_diag. }
  cbn [mbind outcome_bind]. rewrite tmap2_fmap.
  2:{ eapply Forall_impl; [exact Hlen|]. intros q [Hl Hr]. cbv beta.
      rewrite ?length_zip_with, ?length_take, ?length_drop; lia. }
  2:{ intros [-> ->]%Hd. rewrite Nat.min_l by lia.
      replace (2 * k - k)%nat with k by lia.
      rewrite !broadcast_size_diag. apply broadcasts_diag. }
  eexists. split; [reflexivity|]. intros -> ->.
  rewrite Nat.min_l by lia. replace (2 * k - k)%nat with k by lia.
  by rewrite !broadcast_size_diag.
Qed.

Lemma product_im_fmap {A} (k dl dr : nat) (gl gr : A → list Q)
    (xs : list A) :
  Forall (λ q, length (gl q) = (2 * k)%nat ∧ length (gr q) = (2 * k)%nat)
         xs →
  (xs = [] → dl = (2 * k)%nat ∧ dr = (2 * k)%nat) →
  ∃ n, ComplEx.product_im k (of_rows dl (gl <$> xs)) (of_rows dr (gr <$> xs))
       = Done (of_rows n
           ((λ q, zip_with Qplus
                    (zip_with Qmult (take k (gl q)) (drop k (gr q)))
                    (zip_with Qmult (drop k (gl q)) (take k (gr q))))
              <$> xs))
       ∧ (dl = (2 * k)%nat → dr = (2 * k)%nat → n = k).
Proof.
  intros Hlen Hd. unfold ComplEx.product_im, tmul, tadd.
  rewrite !cols_to_fmap, !cols_from_fmap.
  rewrite tmap2_fmap.
  2:{ eapply Forall_impl; [exact Hlen|]. intros q [Hl Hr]. cbv beta.
      rewrite ?length_zip_with, ?length_take, ?length_drop; lia. }
  2:{ intros [-> ->]%Hd. rewrite Nat.min_l by lia.
      replace (2 * k - k)%nat with k by lia. apply broadcasts_diag. }
  cbn [mbind outcome_bind]. rewrite tmap2_fmap.
  2:{ eapply Forall_impl; [exact Hlen|]. intros q [Hl Hr]. cbv beta.
      rewrite ?length_zip_with, ?length_take, ?length_drop; lia. }
  2:{ intros [-> ->]%Hd. rewrite Nat.min_l by lia.
      replace (2 * k - k)%nat with k by lia. apply broadcasts_diag. }
  cbn [mbind outcome_bind]. rewrite tmap2_fmap.
  2:{ eapply Forall_impl; [exact Hlen|]. intros q [Hl Hr]. cbv beta.
      rewrite ?length_zip_with, ?length_take, ?length_drop; lia. }
  2:{ intros [-> ->]%Hd. rewrite Nat.min_l by lia.
      replace (2 * k - k)%nat with k by lia.
      rewrite !broadcast_size_diag. apply broadcasts_diag. }
  eexists. split; [reflexivity|]. intros -> ->.
  rewrite Nat.min_l by lia. replace (2 * k - k)%nat with k by lia.
  by rewrite !broadcast_size_diag.
Qed.

(** [ComplEx.bilinear] on three batches of rows of width [2 * k]. *)
Lemma bilinear_fmap {A} (k dl dr do : nat) (gl gr go : A → list Q)
    (xs : list A) :
  Forall (λ q, length (gl q) = (2 * k)%nat ∧ length (gr q) = (2 * k)%nat
               ∧ length (go q) = (2 * k)%nat) xs →
  (xs = [] → dl = (2 * k)%nat ∧ dr = (2 * k)%nat ∧ do = (2 * k)%nat) →
  ∃ n, ComplEx.bilinear k (of_rows dl (gl <$> xs)) (of_rows dr (gr <$> xs))
         (of_rows do (go <$> xs))
       = Done (of_rows n
           ((λ q, zip_with Qplus
                    (zip_with Qmult
                       (zip_with Qminus
                          (zip_with Qmult (take k (gl q)) (take k (gr q)))
                          (zip_with Qmult (drop k (gl q)) (drop k (gr q))))
                       (take k (go q)))
                    (zip_with Qmult
                       (zip_with Qplus
                          (zip_with Qmult (take k (gl q)) (drop k (gr q)))
                          (zip_with Qmult (drop k (gl q)) (take k (gr q))))
                       (drop k (go q))))
              <$> xs)).
Proof.
  intros Hlen Hd. unfold ComplEx.bilinear.
  destruct (product_re_fmap k dl dr gl gr xs) as (n1 & -> & Hn1).
  { eapply Forall_impl; [exact Hlen|]. cbn. tauto. }
  { intros Hnil. specialize (Hd Hnil). tauto. }
  destruct (product_im_fmap k dl dr gl gr xs) as (n2 & Him & Hn2).
  { eapply Forall_impl; [exact Hlen|]. cbn. tauto. }
  { intros Hnil. specialize (Hd Hnil). tauto. }
  cbn [mbind outcome_bind]. unfold tmul, tadd.
  rewrite cols_to_fmap, cols_from_fmap. rewrite tmap2_fmap.
  2:{ eapply Forall_impl; [exact Hlen|]. intros q (Hl & Hr & Ho). cbv beta.
      rewrite ?length_zip_with, ?length_take, ?length_drop, ?Hl, ?Hr, ?Ho.
      replace (2 * k - k)%nat with k by lia.
      rewrite ?(Nat.min_l k (2 * k)) by lia. by rewrite ?Nat.min_id. }
  2:{ intros Hnil. destruct (Hd Hnil) as (-> & -> & ->).
      rewrite Hn1 by done. rewrite Nat.min_l by lia. apply broadcasts_diag. }
  cbn [mbind outcome_bind]. rewrite Him. cbn [mbind outcome_bind].
  rewrite tmap2_fmap.
  2:{ eapply Forall_impl; [exact Hlen|]. intros q (Hl & Hr & Ho). cbv beta.
      rewrite ?length_zip_with, ?length_take, ?length_drop, ?Hl, ?Hr, ?Ho.
      replace (2 * k - k)%nat with k by lia.
      rewrite ?(Nat.min_l k (2 * k)) by lia. by rewrite ?Nat.min_id. }
  2:{ intros Hnil. destruct (Hd Hnil) as (-> & -> & ->).
      rewrite Hn2 by done. replace (2 * k - k)%nat with k by lia.
      apply broadcasts_diag. }
  cbn [mbind outcome_bind]. rewrite tmap2_fmap.
  2:{ eapply Forall_impl; [exact Hlen|]. intros q (Hl & Hr & Ho). cbv beta.
      rewrite ?length_zip_with, ?length_take, ?length_drop, ?Hl, ?Hr, ?Ho.
      replace (2 * k - k)%nat with k by lia.
      rewrite ?(Nat.min_l k (2 * k)) by lia. by rewrite ?Nat.min_id. }
  2:{ intros Hnil. destruct (Hd Hnil) as (-> & -> & ->).
      rewrite Hn1, Hn2 by done. rewrite Nat.min_l by lia.
      replace (2 * k - k)%nat with k by lia.
      rewrite !broadcast_size_diag. apply broadcasts_diag. }
  by eexists.
Qed.

(** The same for tensors given by their rows. *)
Lemma zip_with_tabulate {A B C} (h : A → B → C) (da : A) (db : B)
    (xs : list A) (ys : list B) (n : nat) :
  length xs = n → length ys = n →
  zip_with h xs ys = (λ i, h (nth i xs da) (nth i ys db)) <$> seq 0 n.
Proof.
  intros Hx Hy.
  rewrite (tabulate_nth da xs n Hx) at 1.
  rewrite (tabulate_nth db ys n Hy) at 1.
  by rewrite zip_with_fmap_fmap.
Qed.

Lemma nth_width (d : nat) (rows : list (list Q)) (i : nat) :
  Forall (λ r, length r = d) rows → (i < length rows)%nat →
  length (nth i rows []) = d.
Proof.
  intros Hw Hi. destruct (lookup_lt_is_Some_2 rows i Hi) as [x Hx].
  rewrite (nth_lookup_Some _ _ _ _ Hx).
  apply (Forall_lookup_1 _ _ _ _ Hw Hx).
Qed.

Lemma tensor_tabulate (t : tensor2) (n : nat) :
  nrows t = n →
  t = of_rows (ncols t) ((λ i, nth i (trows t) []) <$> seq 0 n).
Proof.
  intros Hn. destruct t as [d rows]. unfold of_rows. cbn in *.
  f_equal. by apply tabulate_nth.
Qed.

Lemma product_re_rows (k : nat) (a b : tensor2) :
  nrows b = nrows a →
  Forall (λ r, length r = (2 * k)%nat) (trows a) →
  Forall (λ r, length r = (2 * k)%nat) (trows b) →
  (trows a = [] → ncols a = (2 * k)%nat ∧ ncols b = (2 * k)%nat) →
  ∃ n, ComplEx.product_re k a b
       = Done (of_rows n
           (zip_with (λ x y, zip_with Qminus
                               (zip_with Qmult (take k x) (take k y))
                               (zip_with Qmult (drop k x) (drop k y)))
              (trows a) (trows b)))
       ∧ (ncols a = (2 * k)%nat → ncols b = (2 * k)%nat → n = k).
Proof.
  intros Hn Ha Hb Hd.
  rewrite (zip_with_tabulate _ [] [] _ _ (nrows a) eq_refl Hn).
  replace (ComplEx.product_re k a b)
    with (ComplEx.product_re k
            (of_rows (ncols a) ((λ i, nth i (trows a) []) <$> seq 0 (nrows a)))
            (of_rows (ncols b) ((λ i, nth i (trows b) []) <$> seq 0 (nrows a)))).
  2:{ by rewrite <- (tensor_tabulate a _ eq_refl), <- (tensor_tabulate b _ Hn). }
  apply product_re_fmap.
  - apply Forall_forall. intros i [_ Hi]%elem_of_seq.
    unfold nrows in Hi, Hn.
    split; apply nth_width; [done|lia|done|lia].
  - intros Hnil. apply Hd. apply nil_length_inv.
    apply (f_equal length) in Hnil. rewrite length_seq in Hnil. done.
Qed.

Lemma product_im_rows (k : nat) (a b : tensor2) :
  nrows b = nrows a →
  Forall (λ r, length r = (2 * k)%nat) (trows a) →
  Forall (λ r, length r = (2 * k)%nat) (trows b) →
  (trows a = [] → ncols a = (2 * k)%nat ∧ ncols b = (2 * k)%nat) →
  ∃ n, ComplEx.product_im k a b
       = Done (of_rows n
           (zip_with (λ x y, zip_with Qplus
                               (zip_with Qmult (take k x) (drop k y))
                               (zip_with Qmult (drop k x) (take k y)))
              (trows a) (trows b)))
       ∧ (ncols a = (2 * k)%nat → ncols b = (2 * k)%nat → n = k).
Proof.
  intros Hn Ha Hb Hd.
  rewrite (zip_with_tabulate _ [] [] _ _ (nrows a) eq_refl Hn).
  replace (ComplEx.product_im k a b)
    with (ComplEx.product_im k
            (of_rows (ncols a) ((λ i, nth i (trows a) []) <$> seq 0 (nrows a)))
            (of_rows (ncols b) ((λ i, nth i (trows b) []) <$> seq 0 (nrows a)))).
  2:{ by rewrite <- (tensor_tabulate a _ eq_refl), <- (tensor_tabulate b _ Hn). }
  apply product_im_fmap.
  - apply Forall_forall. intros i [_ Hi]%elem_of_seq.
    unfold nrows in Hi, Hn.
    split; apply nth_width; [done|lia|done|lia].
  - intros Hnil. apply Hd. apply nil_length_inv.
    apply (f_equal length) in Hnil. rewrite length_seq in Hnil. done.
Qed.

Lemma bilinear_rows (k : nat) (a b c : tensor2) :
  nrows b = nrows a → nrows c = nrows a →
  Forall (λ r, length r = (2 * k)%nat) (trows a) →
  Forall (λ r, length r = (2 * k)%nat) (trows b) →
  Forall (λ r, length r = (2 * k)%nat) (trows c) →
  (trows a = [] → ncols a = (2 * k)%nat ∧ ncols b = (2 * k)%nat
                  ∧ ncols c = (2 * k)%nat) →
  ∃ n, ComplEx.bilinear k a b c
       = Done (of_rows n
           ((λ i, zip_with Qplus
                    (zip_with Qmult
                       (zip_with Qminus
                          (zip_with Qmult (take k (nth i (trows a) []))
                                          (take k (nth i (trows b) [])))
                          (zip_with Qmult (drop k (nth i (trows a) []))
                                          (drop k (nth i (trows b) []))))
                       (take k (nth i (trows c) [])))
                    (zip_with Qmult
                       (zip_with Qplus
                          (zip_with Qmult (take k (nth i (trows a) []))
                                          (drop k (nth i (trows b) [])))
                          (zip_with Qmult (drop k (nth i (trows a) []))
                                          (take k (nth i (trows b) []))))
                       (drop k (nth i (trows c) []))))
              <$> seq 0 (nrows a))).
Proof.
  intros Hb Hc Wa Wb Wc Hd.
  replace (ComplEx.bilinear k a b c)
    with (ComplEx.bilinear k
            (of_rows (ncols a) ((λ i, nth i (trows a) []) <$> seq 0 (nrows a)))
            (of_rows (ncols b) ((λ i, nth i (trows b) []) <$> seq 0 (nrows a)))
            (of_rows (ncols c) ((λ i, nth i (trows c) []) <$> seq 0 (nrows a)))).
  2:{ by rewrite <- (tensor_tabulate a _ eq_refl), <- (tensor_tabulate b _ Hb),
        <- (tensor_tabulate c _ Hc). }
  apply bilinear_fmap.
  - apply Forall_forall. intros i [_ Hi]%elem_of_seq.
    unfold nrows in Hi, Hb, Hc.
    split; [|split]; apply nth_width; first [done|lia].
  - intros Hnil. apply Hd. apply nil_length_inv.
    apply (f_equal length) in Hnil. rewrite length_seq in Hnil. done.
Qed.

(** C8.  For every batch of triples with valid ids, [ComplEx.score] gives
    for each triple the closed-form bilinear value: the sum over the
    dimensions [i < rank] of
    [(lhs_re*rel_re - lhs_im*rel_im)*rhs_re + (lhs_re*rel_im + lhs_im*rel_re)*rhs_im],
    where the real half of an embedding is its first [rank] entries and
    the imaginary half the next [rank] entries. *)
Theorem complex_score_closed_form (m : ComplEx.model) (x : list triple) :
  ComplEx_wf m →
  Forall (λ q, valid_id (ComplEx.embeddings0 m) (t_lhs q)
               ∧ valid_id (ComplEx.embeddings1 m) (t_rel q)
               ∧ valid_id (ComplEx.embeddings0 m) (t_rhs q)) x →
  ComplEx.score m x
  = Done ((λ q, complex_bilinear (ComplEx.rank m)
                  (row_of (ComplEx.embeddings0 m) (t_lhs q))
                  (row_of (ComplEx.embeddings1 m) (t_rel q))
                  (row_of (ComplEx.embeddings0 m) (t_rhs q))) <$> x).
Proof.
  intros (Hw0 & Hw1 & Hc0 & Hc1 & _) Hx. unfold ComplEx.score.
  rewrite !embedding_valid.
  2-4: apply Forall_fmap; eapply Forall_impl; [exact Hx|]; cbn; tauto.
  cbn [mbind outcome_bind]. rewrite <- !list_fmap_compose.
  destruct (bilinear_fmap (ComplEx.rank m)
              (ncols (ComplEx.embeddings0 m)) (ncols (ComplEx.embeddings1 m))
              (ncols (ComplEx.embeddings0 m))
              (row_of (ComplEx.embeddings0 m) ∘ t_lhs)
              (row_of (ComplEx.embeddings1 m) ∘ t_rel)
              (row_of (ComplEx.embeddings0 m) ∘ t_rhs) x) as (n & ->).
  { eapply Forall_impl; [exact Hx|]. intros q (Hl & Hr & Ho). cbn.
    rewrite !row_of_length; done. }
  { done. }
  cbn [mbind outcome_bind]. unfold mret, outcome_ret, sum_dim1, of_rows.
  cbn [trows]. rewrite <- list_fmap_compose. f_equal.
  apply Forall_fmap_ext_1. eapply Forall_impl; [exact Hx|].
  intros q (Hl & Hr & Ho). cbn. apply bilinear_row.
  - rewrite row_of_length; done.
  - rewrite row_of_length; done.
  - rewrite row_of_length; done.
Qed.

Lemma complex_score_closed_form_witness :
  ComplEx.score complex_example [(0, 0, 0)] = Done [2%Q]
  ∧ complex_bilinear 2 [1; 0; 1; 0]%Q [1; 0; 0; 0]%Q [1; 0; 1; 0]%Q = 2%Q.
Proof.
  split; [|reflexivity].
  rewrite (complex_score_closed_form complex_example [(0, 0, 0)]).
  - reflexivity.
  - unfold ComplEx_wf, wf_tensor2. cbn.
    repeat split; try reflexivity; repeat constructor.
  - repeat constructor; cbn; lia.
Defined.

Lemma trilinear_row (d : nat) (a b c : vec) :
  length a = d → length b = d → length c = d →
  sum_list (zip_with Qmult (zip_with Qmult a b) c) = trilinear d a b c.
Proof.
  intros Ha Hb Hc.
  rewrite (tabulate_nth 0%Q a d Ha) at 1.
  rewrite (tabulate_nth 0%Q b d Hb) at 1.
  rewrite (tabulate_nth 0%Q c d Hc) at 1.
  rewrite !zip_with_fmap_fmap. reflexivity.
Qed.

(** C4 (as amended).  [CP.score_emb] returns one scalar for the whole
    batch: the mean over the rows of the real product
    [sum_i subject_i * relation_i * object_i] of each row. *)
Theorem cp_score_emb_mean (m : CP.model) (l r o : tensor2) (B d : nat) :
  (0 < B)%nat →
  nrows l = B → nrows r = B → nrows o = B →
  Forall (λ row, length row = d) (trows l) →
  Forall (λ row, length row = d) (trows r) →
  Forall (λ row, length row = d) (trows o) →
  CP.score_emb m l r o
  = Done (Some (sum_upto B (λ i, trilinear d (nth i (trows l) [])
                                   (nth i (trows r) []) (nth i (trows o) []))
                / inject_Z (Z.of_nat B))%Q).
Proof.
  intros HB Hl Hr Ho Wl Wr Wo. unfold CP.score_emb, nrows in *.
  assert (trows l ≠ []) as Hne.
  { intros Hnil. rewrite Hnil in Hl. cbn in Hl. lia. }
  unfold tmul. rewrite (tmap2_zip Qmult l r).
  2:{ apply (Forall2_same_width d); [congruence|done..]. }
  2:{ done. }
  cbn [mbind outcome_bind]. rewrite tmap2_zip.
  2:{ cbn [trows]. apply (Forall2_same_width d); [|by apply zip_with_same_width|done].
      rewrite length_zip_with. lia. }
  2:{ cbn [trows]. intros Hnil. exfalso.
      destruct (trows l) as [|a la]; [done|].
      destruct (trows r) as [|b lb]; [cbn in Hl, Hr; lia|]. done. }
  cbn [mbind outcome_bind]. unfold mret, outcome_ret. f_equal.
  assert (sum_dim1
            {| ncols := broadcast_size
                          (ncols {| ncols := broadcast_size (ncols l) (ncols r);
                                    trows := zip_with (zip_with Qmult)
                                               (trows l) (trows r) |})
                          (ncols o);
               trows := zip_with (zip_with Qmult)
                          (trows {| ncols := broadcast_size (ncols l) (ncols r);
                                    trows := zip_with (zip_with Qmult)
                                               (trows l) (trows r) |})
                          (trows o) |}
          = (λ i, trilinear d (nth i (trows l) []) (nth i (trows r) [])
                    (nth i (trows o) [])) <$> seq 0 B) as ->.
  { unfold sum_dim1. cbn [trows].
    rewrite (tabulate_nth [] (trows l) B Hl) at 1.
    rewrite (tabulate_nth [] (trows r) B Hr) at 1.
    rewrite (tabulate_nth [] (trows o) B Ho) at 1.
    rewrite !zip_with_fmap_fmap, <- list_fmap_compose.
    apply list_fmap_ext. intros k i Hi%lookup_seq. cbn.
    assert (∀ t, length (trows t) = B →
                 Forall (λ row, length row = d) (trows t) →
                 length (nth i (trows t) []) = d) as Hlen.
    { intros t Ht Wt.
      destruct (lookup_lt_is_Some_2 (trows t) i) as [x Hx]; [lia|].
      rewrite (nth_lookup_Some _ _ _ _ Hx).
      apply (Forall_lookup_1 _ _ _ _ Wt Hx). }
    apply trilinear_row; by apply Hlen. }
  unfold mean, sum_upto.
  destruct B as [|B]; [lia|].
  rewrite length_fmap, length_seq. reflexivity.
Qed.

Lemma cp_score_emb_mean_witness :
  CP.score_emb cp_example (of_rows 1 [[1]; [2]]%Q) (of_rows 1 [[1]; [1]]%Q)
               (of_rows 1 [[1]; [1]]%Q)
  = Done (Some (sum_upto 2 (λ i, trilinear 1 (nth i [[1]; [2]]%Q [])
                                   (nth i [[1]; [1]]%Q [])
                                   (nth i [[1]; [1]]%Q []))
                / inject_Z 2)%Q).
Proof.
  apply (cp_score_emb_mean cp_example (of_rows 1 [[1]; [2]]%Q)
           (of_rows 1 [[1]; [1]]%Q) (of_rows 1 [[1]; [1]]%Q) 2 1).
  - lia.
  - reflexivity.
  - reflexivity.
  - reflexivity.
  - repeat constructor.
  - repeat constructor.
  - repeat constructor.
Defined.

(** C4, as the claim states it, fails: on a batch of two rows with real
    products 1 and 2, [score_emb] returns the one number 3/2, which is
    the score of neither row. *)
Lemma cp_score_emb_not_per_row :
  ¬ score_emb_per_row cp_example (of_rows 1 [[1]; [2]]%Q)
      (of_rows 1 [[1]; [1]]%Q) (of_rows 1 [[1]; [1]]%Q).
Proof.
  intros Hc. destruct (Hc 0%nat) as (v & Hv & Heq).
  - cbn. lia.
  - vm_compute in Hv. injection Hv as <-. vm_compute in Heq. discriminate.
Qed.

(** * Loops *)

(** A loop whose body never runs out of fuel itself and lowers a measure
    that is positive while the condition holds: with fuel for the
    measure, the loop is the body iterated some [n] times, the condition
    holding before each of these runs and failing after the last. *)
Lemma while_iterate {St : Type} (cond : St → bool) (body : St → outcome St)
    (measure : St → nat) :
  (∀ s, cond s = true → (0 < measure s)%nat) →
  (∀ s s', cond s = true → body s = Done s' → (measure s' < measure s)%nat) →
  (∀ s, body s ≠ OutOfFuel) →
  ∀ fuel s, (measure s ≤ fuel)%nat →
    ∃ n, (n ≤ measure s)%nat
      ∧ while fuel cond body s = iterate body n s
      ∧ iterate body n s ≠ OutOfFuel
      ∧ (∀ k, (k < n)%nat →
           ∃ sk, iterate body k s = Done sk ∧ cond sk = true)
      ∧ (∀ s', iterate body n s = Done s' → cond s' = false).
Proof.
  intros Hpos Hdec Hfuel. induction fuel as [|fuel IH]; intros s Hm.
  - destruct (cond s) eqn:Hc.
    { specialize (Hpos s Hc). exfalso. lia. }
    exists 0%nat. cbn. rewrite Hc.
    split; [lia|]. split; [done|]. split; [done|]. split.
    + intros k Hk. exfalso. lia.
    + by intros s' [= <-].
  - cbn [while]. destruct (cond s) eqn:Hc.
    2:{ exists 0%nat. cbn.
        split; [lia|]. split; [done|]. split; [done|]. split.
        - intros k Hk. exfalso. lia.
        - by intros s' [= <-]. }
    destruct (body s) as [s1|e|] eqn:Hb.
    + specialize (Hdec s s1 Hc Hb).
      destruct (IH s1) as (n & Hn & Hw & Hne & Hk & Hlast); [lia|].
      exists (S n). cbn [iterate]. rewrite Hb.
      split; [lia|]. split; [done|]. split; [done|]. split; [|done].
      intros [|k] Hlt.
      * exists s. by cbn.
      * destruct (Hk k) as (sk & Hsk & Hck); [lia|].
        exists sk. cbn [iterate]. by rewrite Hb.
    + exists 1%nat. cbn [iterate]. rewrite Hb.
      specialize (Hpos s Hc).
      split; [lia|]. split; [done|]. split; [done|]. split; [|done].
      intros k Hlt. assert (k = 0%nat) as -> by lia. exists s. by cbn.
    + by destruct (Hfuel s).
Qed.

(** A loop that ends normally is its body run some [n] times in a row,
    the condition holding before each run and failing after the last. *)
Lemma while_Done_iterate {St : Type} (cond : St → bool)
    (body : St → outcome St) (fuel : nat) (s0 s : St) :
  while fuel cond body s0 = Done s →
  ∃ n, (n ≤ fuel)%nat
    ∧ iterate body n s0 = Done s
    ∧ (∀ k, (k < n)%nat →
         ∃ sk, iterate body k s0 = Done sk ∧ cond sk = true)
    ∧ cond s = false.
Proof.
  revert s0. induction fuel as [|fuel IH]; intros s0; cbn [while];
    destruct (cond s0) eqn:Hc; try done.
  - intros [= <-]. exists 0%nat. split; [lia|]. split; [done|].
    split; [|done]. intros k Hk. exfalso. lia.
  - destruct (body s0) as [s1| |] eqn:Hb; [|done..].
    intros (n & Hn & Hit & Hk & Hlast)%IH.
    exists (S n). split; [lia|]. cbn [iterate]. rewrite Hb.
    split; [done|]. split; [|done].
    intros [|k] Hlt.
    + exists s0. by cbn.
    + destruct (Hk k) as (sk & Hsk & Hck); [lia|].
      exists sk. cbn [iterate]. by rewrite Hb.
  - intros [= <-]. exists 0%nat. split; [lia|]. split; [done|].
    split; [|done]. intros k Hk. exfalso. lia.
Qed.


Section ProjectedGradientDescentFacts.
Context {M : Type} `{KBCModel M}.
Variable Opt : Type.
Variable regularizer : tensor2 → tensor2 → tensor2 → outcome (option Q).
Variable optimizer_step :
  tensor2 → tensor2 → tensor2 → Opt → option (tensor2 * Opt).
Variables (m : M) (lhs pred : tensor2).

Local Abbreviation body :=
  (pgd_body Opt regularizer optimizer_step m lhs pred).

(** A run of the body that ends normally: nothing raised, and the state
    it leaves. *)
Lemma pgd_body_Done (st st' : pgd_state Opt) :
  body st = Done st' →
  ∃ l_reg sc g o,
    regularizer lhs pred (obj_guess Opt st) = Done l_reg
    ∧ score_emb m lhs pred (obj_guess Opt st) = Done sc
    ∧ optimizer_step lhs pred (obj_guess Opt st) (optimizer Opt st)
      = Some (g, o)
    ∧ st' = {| pgd_i := pgd_i Opt st + 1; prev_loss := loss Opt st;
               loss := nan_neg (nan_sub sc l_reg);
               obj_guess := g; optimizer := o |}.
Proof.
  unfold pgd_body.
  destruct (regularizer _ _ _) as [l_reg| |]; [|done..].
  destruct (score_emb _ _ _ _) as [sc| |]; [|done..].
  cbn [mbind outcome_bind].
  destruct (optimizer_step _ _ _ _) as [[g o]|]; [|done].
  intros [= <-]. by exists l_reg, sc, g, o.
Qed.

Lemma pgd_body_counter (st st' : pgd_state Opt) :
  body st = Done st' → pgd_i Opt st' = pgd_i Opt st + 1.
Proof.
  intros (l_reg & sc & g & o & _ & _ & _ & ->)%pgd_body_Done. done.
Qed.

Lemma pgd_iterate_counter (k : nat) (st st' : pgd_state Opt) :
  iterate body k st = Done st' → pgd_i Opt st' = pgd_i Opt st + Z.of_nat k.
Proof.
  revert st. induction k as [|k IH]; intros st; cbn [iterate].
  - intros [= <-]. lia.
  - destruct (body st) as [s1| |] eqn:Hb; [|done..].
    intros Hk. rewrite (IH _ Hk), (pgd_body_counter _ _ Hb). lia.
Qed.


(** The collaborators return or raise; the loops of the model are not
    theirs. *)
Hypothesis regularizer_returns :
  ∀ guess, regularizer lhs pred guess ≠ OutOfFuel.
Hypothesis score_emb_returns :
  ∀ guess, score_emb m lhs pred guess ≠ OutOfFuel.

Lemma pgd_body_returns (st : pgd_state Opt) : body st ≠ OutOfFuel.
Proof.
  unfold pgd_body.
  pose proof (regularizer_returns (obj_guess Opt st)) as Hr.
  pose proof (score_emb_returns (obj_guess Opt st)) as Hs.
  destruct (regularizer _ _ _) as [l_reg| |]; [|done..].
  destruct (score_emb _ _ _ _) as [sc| |]; [|done..].
  cbn [mbind outcome_bind].
  by destruct (optimizer_step _ _ _ _) as [[g o]|].
Qed.

(** The loop with fuel for [max_steps] iterations is the body run some
    [n ≤ max_steps] times. *)
Lemma pgd_loop_iterate (fuel : nat) (max_steps : Z) (guess : tensor2)
    (opt : Opt) :
  (Z.to_nat max_steps ≤ fuel)%nat →
  ∃ n, (n ≤ Z.to_nat max_steps)%nat
    ∧ pgd_loop Opt regularizer optimizer_step fuel m lhs pred max_steps
        guess opt
      = iterate body n (pgd_init Opt guess opt)
    ∧ iterate body n (pgd_init Opt guess opt) ≠ OutOfFuel.
Proof.
  intros Hfuel. unfold pgd_loop.
  destruct (while_iterate (pgd_cond Opt max_steps) body
              (λ st, Z.to_nat (max_steps - pgd_i Opt st + 1)))
    with (fuel := fuel) (s := pgd_init Opt guess opt)
    as (n & Hn & Hw & Hne & _).
  - intros s [Hi _]%andb_prop. apply Z.leb_le in Hi. lia.
  - intros s s' [Hi _]%andb_prop Hb. apply Z.leb_le in Hi.
    rewrite (pgd_body_counter _ _ Hb). lia.
  - apply pgd_body_returns.
  - cbn. lia.
  - cbn in Hn. exists n. split; [lia|]. by split.
Qed.


End ProjectedGradientDescentFacts.

Lemma tmap2_returns (f : Q → Q → Q) (a b : tensor2) :
  (∃ t, tmap2 f a b = Done t) ∨ tmap2 f a b = Raised RuntimeError.
Proof.
  unfold tmap2. destruct (broadcast_rows _ _) as [pairs|]; [|by right].
  assert ((∃ rows, mapM (row_map2 f) pairs = Done rows)
          ∨ mapM (row_map2 f) pairs = Raised RuntimeError) as [[rows ->]| ->].
  { assert (∀ p, (∃ y, row_map2 f p = Done y)
                 ∨ row_map2 f p = Raised RuntimeError) as Hrow.
    { intros p. unfold row_map2.
      destruct (broadcast p.1 p.2) as [[x y]|]; [left; by eexists|by right]. }
    induction pairs as [|p pairs IH]; [left; by exists []|].
    cbn [mapM]. destruct (Hrow p) as [[y ->]| ->]; [|by right].
    cbn [mbind outcome_bind].
    destruct IH as [[rows ->]| ->]; [left; by eexists|by right]. }
  - cbn [mbind outcome_bind].
    destruct (_ && _); [by right|left; by eexists].
  - by right.
Qed.

Lemma CP_score_emb_returns (m : CP.model) (l r o : tensor2) :
  CP.score_emb m l r o ≠ OutOfFuel.
Proof.
  unfold CP.score_emb, tmul.
  destruct (tmap2_returns Qmult l r) as [[t ->]| ->]; [|done].
  cbn [mbind outcome_bind].
  destruct (tmap2_returns Qmult t o) as [[t' ->]| ->]; done.
Qed.



(** * [argmin] *)





(** * The matcher: metric and strategy selection *)

(** A metric that is neither Euclidean nor cosine: nothing is printed
    beyond the placement message, and the empty list is returned. *)
Lemma closest_matrix_unknown_metric (cuda : bool) (x c : tensor2)
    (metric method : string) :
  euclidean metric = false → contains "cosine" (lower metric) = false →
  closest_matrix_of cuda x c metric method
  = (if cuda then [] else [CudaMemoryHack], Some (ClosestList [])).
Proof.
  unfold euclidean, closest_matrix_of. intros -> ->. done.
Qed.

(** A Euclidean metric with a strategy that is neither fast nor stable:
    the error is printed and no result is returned. *)
Lemma closest_matrix_unknown_method (cuda : bool) (x c : tensor2)
    (metric method : string) :
  euclidean metric = true →
  contains "fast" (lower method) = false →
  contains "stable" (lower method) = false →
  closest_matrix_of cuda x c metric method
  = (((if cuda then [] else [CudaMemoryHack])
      ++ [UnknownMethod; CannotClosestMatrix])%list, None).
Proof.
  unfold euclidean, closest_matrix_of. intros -> -> ->. done.
Qed.

(** C6 fails on the code for the metric.  With the unrecognised metric
    "manhattan", [__closest_matrix__] prints nothing and returns the empty
    list, a value like the result for no query; with the unrecognised
    strategy "slow" under the metric "l2" it prints the usage error and
    returns no result, as the claim says. *)
Theorem unknown_metric_returns_empty_list :
  closest_matrix_of true (of_rows 1 [[0%Q]]) (of_rows 1 [[0%Q]])
                    "manhattan" "fast"
  = ([], Some (ClosestList []))
  ∧ closest_matrix_of true (of_rows 1 [[0%Q]]) (of_rows 1 [[0%Q]])
                      "l2" "slow"
    = ([UnknownMethod; CannotClosestMatrix], None).
Proof. split; reflexivity. Qed.

(** C5 fails on the code.  For the query (1, 0) and the candidates (1, 0)
    and (-1, 0), the cosine path returns index 1, the candidate with the
    least similarity; candidate 0 has a higher one. *)
Theorem cosine_returns_least_similar :
  closest_matrix_of true (of_rows 2 [[1; 0]%Q])
                    (of_rows 2 [[1; 0]; [-1; 0]]%Q) "cosine" "fast"
  = ([], Some (ClosestList [Some (1%nat, [-1; 0]%Q)]))
  ∧ ∃ s0 s1,
      cosine_similarity_ssq 1e-8 [1; 0]%Q [1; 0]%Q = Some s0
      ∧ cosine_similarity_ssq 1e-8 [1; 0]%Q [-1; 0]%Q = Some s1
      ∧ (s1 < s0)%Q.
Proof.
  split; [by vm_compute|].
  eexists _, _. split; [reflexivity|]. split; [reflexivity|].
  by vm_compute.
Qed.


(** * The two Euclidean strategies *)



Lemma expanded_pairwise_distances_spec (x c : tensor2) :
  wf_tensor2 c → ncols x = ncols c →
  expanded_pairwise_distances x (Some c)
  = ([], Some {| ncols := nrows c;
                 trows := (λ xi, expanded_dist xi <$> trows c) <$> trows x |}).
Proof.
  intros Hwf Hc. unfold expanded_pairwise_distances.
  rewrite matmul_transpose by done.
  unfold sum_dim1, tsquare. cbn [trows].
  rewrite <- !list_fmap_compose.
  rewrite length_fmap. f_equal. f_equal. f_equal.
  rewrite zip_with_fmap_fmap. apply list_fmap_ext. intros _ xi _. cbn.
  rewrite zip_with_fmap_fmap. apply list_fmap_ext. intros _ cj _.
  unfold expanded_dist, dot. by rewrite !zip_with_diag.
Qed.


(** ** Distances of rows of integers *)

Lemma expanded_dist_sq_dist (x y : list Q) :
  length x = length y → (expanded_dist x y == sq_dist x y)%Q.
Proof.
  unfold expanded_dist, sq_dist, dot, sum_list. revert y.
  induction x as [|a x IH]; intros [|b y] Hl; cbn [length] in Hl; try lia;
    cbn [zip_with fmap list_fmap foldr]; [ring|].
  rewrite <- IH by lia. ring.
Qed.



Section IntegerRows.

(** The sum of the squares of the differences and the sum of the
    differences of two rows of integers. *)
Local Abbreviation zsum := (foldr Z.add 0).
Local Abbreviation zsq := (zip_with (λ a b : Z, (a - b) * (a - b))).
Local Abbreviation zdiff := (zip_with Z.sub).






End IntegerRows.

Section Strategies.
Variables (cuda : bool) (x c : tensor2) (metric fast stable : string).
Hypothesis c_wf : wf_tensor2 c.
Hypothesis x_wf : wf_tensor2 x.
Hypothesis same_width : ncols x = ncols c.
Hypothesis some_candidate : (0 < nrows c)%nat.
Hypothesis metric_euclidean : euclidean metric = true.
Hypothesis fast_is_fast : contains "fast" (lower fast) = true.
Hypothesis stable_not_fast : contains "fast" (lower stable) = false.
Hypothesis stable_is_stable : contains "stable" (lower stable) = true.







End Strategies.


(** * The filters as the queries are processed *)

Lemma objs_for_app (k : Z * Z) (ps qs : list (Z * Z * Z)) :
  objs_for k (ps ++ qs) = objs_for k ps ++ objs_for k qs.
Proof. unfold objs_for. by rewrite filter_app, fmap_app. Qed.

Lemma objs_for_snoc (k : Z * Z) (ps : list (Z * Z * Z)) (q : Z * Z * Z) :
  objs_for k (ps ++ [q])
  = objs_for k ps ++ (if decide (key_of q = k) then [t_rhs q] else []).
Proof.
  rewrite objs_for_app. f_equal. unfold objs_for.
  rewrite filter_cons, filter_nil. by destruct (decide (key_of q = k)).
Qed.

Lemma grow_lookup (F : gmap (Z * Z) (list Z)) (ps : list (Z * Z * Z))
    (k : Z * Z) :
  grow F ps !! k = (λ l, l ++ objs_for k ps) <$> F !! k.
Proof. unfold grow. rewrite map_lookup_imap. by destruct (F !! k). Qed.

Lemma grow_nil (F : gmap (Z * Z) (list Z)) : grow F [] = F.
Proof.
  apply map_eq. intros k. rewrite grow_lookup.
  destruct (F !! k) as [l|]; cbn; [|done].
  by rewrite app_nil_r.
Qed.

Lemma grow_snoc (F : gmap (Z * Z) (list Z)) (ps : list (Z * Z * Z))
    (q : Z * Z * Z) (l : list Z) :
  F !! key_of q = Some l →
  <[key_of q := (l ++ objs_for (key_of q) ps) ++ [t_rhs q]]> (grow F ps)
  = grow F (ps ++ [q]).
Proof.
  intros Hl. apply map_eq. intros k. rewrite grow_lookup.
  destruct (decide (key_of q = k)) as [<-|Hne].
  - rewrite lookup_insert_eq, Hl. cbn. rewrite objs_for_snoc.
    rewrite decide_True by done. by rewrite app_assoc.
  - rewrite lookup_insert_ne by done. rewrite grow_lookup, objs_for_snoc.
    rewrite decide_False by done. by rewrite app_nil_r.
Qed.

(** * Overwriting the filtered scores *)

Lemma index_fill_spec (row : list Q) (idx : list Z) (v : Q) :
  Forall (λ x, 0 ≤ x < Z.of_nat (length row)) idx →
  index_fill row idx v
  = Done (imap (λ j s, if bool_decide (Z.of_nat j ∈ idx) then v else s) row).
Proof.
  revert row. induction idx as [|x idx IH]; intros row Hidx.
  - cbn. f_equal. apply list_eq. intros j. rewrite list_lookup_imap.
    destruct (row !! j); cbn; [|done].
    rewrite bool_decide_eq_false_2; [done|]. by intros ?%elem_of_nil.
  - apply Forall_cons in Hidx as [Hx Hidx]. cbn [index_fill].
    destruct (Z.leb_spec (- Z.of_nat (length row)) x); [|lia].
    destruct (Z.ltb_spec x (Z.of_nat (length row))); [|lia].
    destruct (Z.ltb_spec x 0); [lia|]. cbn [andb].
    rewrite IH by (by rewrite length_insert).
    f_equal. apply list_eq. intros j. rewrite !list_lookup_imap.
    destruct (decide (j = Z.to_nat x)) as [->|Hne].
    + rewrite list_lookup_insert_eq by lia.
      destruct (lookup_lt_is_Some_2 row (Z.to_nat x)) as [s Hs]; [lia|].
      rewrite Hs. cbn.
      rewrite (bool_decide_eq_true_2 (_ ∈ x :: idx)).
      2:{ rewrite Z2Nat.id by lia. apply elem_of_cons. by left. }
      by destruct (bool_decide _).
    + rewrite list_lookup_insert_ne by done.
      destruct (row !! j) as [s|]; cbn; [|done]. f_equal.
      rewrite (bool_decide_ext (Z.of_nat j ∈ idx) (Z.of_nat j ∈ x :: idx));
        [done|].
      rewrite elem_of_cons.
      split; [tauto|]. intros [Heq|]; [|done]. exfalso. apply Hne. lia.
Qed.

Lemma mask_row_length (c : Z) (fl : list Z) (row : list Q) :
  length (mask_row c fl row) = length row.
Proof. unfold mask_row. by rewrite length_imap. Qed.

(** The index list that the loop builds, in either mode, overwrites the
    scores of the candidates of the chunk that are in [fl]. *)
Lemma index_fill_filter (N chunk_size c : Z) (fl : list Z) (row : list Q) :
  Forall (λ x, 0 ≤ x < N) fl →
  0 ≤ c →
  Z.of_nat (length row) = Z.min (c + chunk_size) N - c →
  (N ≤ chunk_size → c = 0) →
  index_fill row
    (if chunk_size <? N then
       (λ x, x - c) <$> filter (λ x, c ≤ x < c + chunk_size) fl
     else fl) masked_score
  = Done (mask_row c fl row).
Proof.
  intros Hfl Hc Hlen Hfull.
  destruct (Z.ltb_spec chunk_size N) as [Hlt|Hge].
  - rewrite index_fill_spec.
    + f_equal. unfold mask_row. apply imap_ext. intros j s Hj. cbn.
      apply lookup_lt_Some in Hj.
      rewrite (bool_decide_ext (Z.of_nat j ∈ _) (c + Z.of_nat j ∈ fl));
        [done|].
      rewrite list_elem_of_fmap. split.
      * intros (x & -> & [_ Hx]%list_elem_of_filter).
        replace (c + (x - c)) with x by lia. done.
      * intros Hin. exists (c + Z.of_nat j). split; [lia|].
        apply list_elem_of_filter. split; [lia|done].
    + apply Forall_fmap. apply Forall_forall.
      intros x [Hx Hin]%list_elem_of_filter. cbn.
      rewrite Forall_forall in Hfl. specialize (Hfl x Hin). lia.
  - specialize (Hfull Hge). subst c. rewrite index_fill_spec.
    + reflexivity.
    + eapply Forall_impl; [exact Hfl|]. cbn. intros x Hx. lia.
Qed.

Lemma py_index_lookup {A} (l : list A) (i : nat) (x : A) :
  l !! i = Some x → py_index l (Z.of_nat i) = Some x.
Proof.
  intros Hx. unfold py_index. pose proof (lookup_lt_Some _ _ _ Hx).
  destruct (Z.leb_spec 0 (Z.of_nat i)); [|lia].
  destruct (Z.ltb_spec (Z.of_nat i) (Z.of_nat (length l))); [|lia].
  cbn. by rewrite Nat2Z.id.
Qed.

Section MaskQueries.
Context {M : Type} `{KBCModel M}.
Variables (m : M) (queries : list (Z * Z * Z)).
Variables (F0 : gmap (Z * Z) (list Z)) (chunk_size c : Z) (b : nat).
Variable rows : list (list Q).

Hypothesis F0_range :
  ∀ k l, F0 !! k = Some l → Forall (λ x, 0 ≤ x < sizes2 m) l.
Hypothesis c_nonneg : 0 ≤ c.
Hypothesis rows_length :
  Z.of_nat (length rows) = Z.min (c + chunk_size) (sizes2 m) - c.
Hypothesis full_chunk : sizes2 m ≤ chunk_size → c = 0.

Lemma objs_for_range (k : Z * Z) (ps : list (Z * Z * Z)) :
  Forall (λ q, 0 ≤ t_rhs q < sizes2 m) ps →
  Forall (λ x, 0 ≤ x < sizes2 m) (objs_for k ps).
Proof.
  intros Hps. unfold objs_for. apply Forall_fmap.
  apply Forall_forall. intros q [_ Hq]%list_elem_of_filter.
  rewrite Forall_forall in Hps. by apply Hps.
Qed.

Lemma mask_queries_spec (es : list (Z * Z * Z * list Q * Q)) :
  ∀ (k0 : nat) (ps : list (Z * Z * Z)) (nc : nat)
    (rows_done : list (list Q)),
    length rows_done = k0 →
    (∀ k e, es !! k = Some e → queries !! (b + k0 + k)%nat = Some e.1.1) →
    Forall (λ e, is_Some (F0 !! key_of e.1.1)) es →
    Forall (λ q, 0 ≤ t_rhs q < sizes2 m) ps →
    Forall (λ e, 0 ≤ t_rhs e.1.1 < sizes2 m) es →
    ∃ rows',
      mask_queries m queries chunk_size c (Z.of_nat b)
        (grow F0 ps,
         {| ncols := nc;
            trows := rows_done ++ ((λ e, dot e.1.2 <$> rows) <$> es) |})
        (imap (λ k q, ((k0 + k)%nat, q)) ((λ e, e.1.1) <$> es))
      = Done (grow F0 (ps ++ ((λ e, e.1.1) <$> es)),
              {| ncols := nc; trows := rows_done ++ rows' |})
      ∧ zip_with (λ row t, count_ge t row) rows' ((λ e, e.2) <$> es)
        = pass_counts F0 rows c ps es.
Proof.
  induction es as [|[[q v] t] es IH];
    intros k0 ps nc rows_done Hk0 Hq Hkeys Hps Hes.
  - exists []. cbn. by rewrite !app_nil_r.
  - apply Forall_cons in Hkeys as [[l Hl] Hkeys].
    apply Forall_cons in Hes as [Hqr Hes]. cbn in Hl, Hqr.
    cbn [fmap list_fmap imap mask_queries].
    unfold mask_query at 1. cbn [fst snd].
    change (t_lhs q, t_rel q) with (key_of q).
    rewrite grow_lookup, Hl. cbn [fmap option_fmap option_map].
    replace (Z.of_nat b + Z.of_nat (k0 + 0)) with (Z.of_nat (b + k0 + 0))
      by lia.
    rewrite (py_index_lookup _ _ q) by (apply (Hq 0%nat (q, v, t)); done).
    rewrite Nat.add_0_r. cbn [trows ncols].
    rewrite lookup_app_r by lia.
    replace (k0 - length rows_done)%nat with 0%nat by lia.
    cbn [lookup list_lookup].
    rewrite (index_fill_filter (sizes2 m)); try done.
    2:{ apply Forall_app. split.
        - apply Forall_app. split; [by eapply F0_range|].
          by apply objs_for_range.
        - by apply Forall_singleton. }
    2:{ by rewrite length_fmap. }
    cbn [mbind outcome_bind mret outcome_ret].
    rewrite grow_snoc by done.
    rewrite insert_app_r_alt by lia.
    replace (k0 - length rows_done)%nat with 0%nat by lia.
    cbn [insert list_insert].
    set (row' := mask_row c _ _).
    destruct (IH (S k0) (ps ++ [q]) nc (rows_done ++ [row']))
      as (rows' & Hrun & Hcounts).
    + rewrite length_app. cbn. lia.
    + intros k e He. specialize (Hq (S k) e He).
      replace (b + S k0 + k)%nat with (b + k0 + S k)%nat by lia. done.
    + done.
    + apply Forall_app. split; [done|]. by apply Forall_singleton.
    + done.
    + exists (row' :: rows'). split.
      * rewrite <- !app_assoc in Hrun. cbn [app] in Hrun.
        rewrite <- Hrun. f_equal. apply imap_ext. intros k q' _. cbn.
        f_equal. lia.
      * cbn [fmap list_fmap zip_with pass_counts]. rewrite Hcounts.
        f_equal. unfold row'. rewrite Hl. cbn.
        by rewrite objs_for_snoc, decide_True, app_assoc by done.
Qed.

End MaskQueries.

(** * One pass over the queries *)

Lemma py_slice_take_drop {A} (l : list A) (a : nat) (s : Z) :
  0 ≤ s → (a ≤ length l)%nat →
  py_slice l (Z.of_nat a) (Z.of_nat a + s)
  = take (Z.to_nat s) (drop a l).
Proof.
  intros Hs Ha. unfold py_slice, py_bound.
  destruct (Z.ltb_spec (Z.of_nat a) 0); [lia|].
  destruct (Z.ltb_spec (Z.of_nat a + s) 0); [lia|].
  rewrite Nat2Z.id. rewrite (Nat.min_l a) by done.
  destruct (decide (Z.to_nat (Z.of_nat a + s) ≤ length l)%nat).
  - rewrite Nat.min_l by done. f_equal. lia.
  - rewrite Nat.min_r by lia.
    rewrite !take_ge; [done|rewrite length_drop; lia..].
Qed.

Lemma pass_counts_app (F0 : gmap (Z * Z) (list Z)) rows c ps es1 es2 :
  pass_counts F0 rows c ps (es1 ++ es2)
  = pass_counts F0 rows c ps es1
    ++ pass_counts F0 rows c (ps ++ ((λ e, e.1.1) <$> es1)) es2.
Proof.
  revert ps. induction es1 as [|[[q v] t] es1 IH]; intros ps; cbn.
  - by rewrite app_nil_r.
  - f_equal. rewrite IH. by rewrite <- app_assoc.
Qed.

Lemma pass_counts_length (F0 : gmap (Z * Z) (list Z)) rows c ps es :
  length (pass_counts F0 rows c ps es) = length es.
Proof.
  revert ps. induction es as [|[[q v] t] es IH]; intros ps; cbn; [done|].
  by rewrite IH.
Qed.

Lemma mapM_outcome_fmap2 {A B C} (f : A → outcome B) (p : C → A) (r : C → B)
    (l : list C) :
  Forall (λ e, f (p e) = Done (r e)) l → mapM f (p <$> l) = Done (r <$> l).
Proof.
  induction 1 as [|x l Hx _ IH]; [done|].
  cbn [fmap list_fmap mapM]. rewrite Hx. cbn.
  change (list_fmap C A p l) with (p <$> l). rewrite IH. done.
Qed.

Lemma add_slice_app (rdone rb rrest : list Z) (s : Z) (counts : list Z) :
  0 ≤ s → length rb = Nat.min (Z.to_nat s) (length (rb ++ rrest)) →
  length counts = length rb →
  add_slice (rdone ++ rb ++ rrest) (Z.of_nat (length rdone))
            (Z.of_nat (length rdone) + s) counts
  = rdone ++ zip_with Z.add rb counts ++ rrest.
Proof.
  intros Hs Hrb Hc. unfold add_slice, py_bound.
  rewrite !length_app in *.
  destruct (Z.ltb_spec (Z.of_nat (length rdone)) 0); [lia|].
  destruct (Z.ltb_spec (Z.of_nat (length rdone) + s) 0); [lia|].
  rewrite Nat2Z.id.
  rewrite (Nat.min_l (length rdone)) by lia.
  replace (Nat.max (length rdone)
             (Nat.min (Z.to_nat (Z.of_nat (length rdone) + s))
                      (length rdone + (length rb + length rrest))))
    with (length rdone + length rb)%nat by lia.
  rewrite take_app_length. f_equal.
  replace (length rdone + length rb - length rdone)%nat with (length rb)
    by lia.
  rewrite drop_app_length, take_app_length. f_equal.
  rewrite app_assoc, drop_app_length'; [done|]. rewrite length_app. lia.
Qed.

Lemma take_batch {A} (s : nat) (batch rest : list A) :
  length batch = Nat.min s (length (batch ++ rest)) →
  take s (batch ++ rest) = batch.
Proof.
  rewrite length_app. intros Hb.
  destruct (decide (s ≤ length batch + length rest)%nat).
  - rewrite take_app_length'; [done|lia].
  - assert (rest = []) as -> by (apply nil_length_inv; lia).
    rewrite app_nil_r, take_ge; [done|lia].
Qed.

Lemma pass_counts_lookup (F0 : gmap (Z * Z) (list Z)) rows c es :
  ∀ ps i q v t,
    es !! i = Some (q, v, t) →
    pass_counts F0 rows c ps es !! i
    = Some (count_ge t
              (mask_row c
                 (default [] (F0 !! key_of q)
                  ++ objs_for (key_of q)
                       (ps ++ take (S i) ((λ e, e.1.1) <$> es)))
                 (dot v <$> rows))).
Proof.
  induction es as [|[[q0 v0] t0] es IH]; intros ps i q v t Hi; [done|].
  destruct i as [|i]; cbn in Hi.
  - injection Hi as -> -> ->. done.
  - cbn [pass_counts lookup list_lookup]. rewrite (IH _ _ _ _ _ Hi).
    cbn [fmap list_fmap take]. by rewrite <- app_assoc.
Qed.

Lemma length_filter_Forall2 {A B} (P : A → Prop) (R : B → Prop)
    `{!∀ x, Decision (P x)} `{!∀ y, Decision (R y)} (l : list A) (k : list B) :
  Forall2 (λ x y, P x ↔ R y) l k → length (filter P l) = length (filter R k).
Proof.
  induction 1 as [|x y l k Hxy _ IH]; [done|].
  rewrite !filter_cons.
  destruct (decide (P x)), (decide (R y)); cbn; rewrite ?IH; tauto.
Qed.

Lemma filter_ext_elem {A} (P1 P2 : A → Prop) `{!∀ x, Decision (P1 x)}
    `{!∀ x, Decision (P2 x)} (l : list A) :
  (∀ x, x ∈ l → (P1 x ↔ P2 x)) → filter P1 l = filter P2 l.
Proof.
  induction l as [|x l IH]; intros Hl; [done|].
  rewrite !filter_cons.
  pose proof (Hl x (list_elem_of_here _ _)) as Hx.
  rewrite IH by (intros y Hy; apply Hl; by apply list_elem_of_further).
  destruct (decide (P1 x)), (decide (P2 x)); tauto || done.
Qed.

Section Passes.
Context {M : Type} `{KBCModel M}.
Variable m : M.

(** The table of the candidates and the row-wise functions of a lawful
    model. *)
Variable cands : tensor2.
Variable f : Z * Z * Z → outcome (list Q).
Variable g : Z * Z * Z → outcome Q.
Hypothesis cands_wf : wf_tensor2 cands.
Hypothesis cands_rows : Z.of_nat (nrows cands) = sizes2 m.
Hypothesis get_rhs_cands :
  ∀ c cs, get_rhs m c cs = transpose (slice_rows cands c (c + cs)).
Hypothesis get_queries_rows :
  ∀ qs, get_queries m qs = of_rows (ncols cands) <$> mapM f qs.
Hypothesis score_rows : ∀ qs, score m qs = mapM g qs.

(** The queries with their embeddings and true scores, the filters at
    the call, the batch size and the chunk size in force. *)
Variable es_all : list (Z * Z * Z * list Q * Q).
Variable F0 : gmap (Z * Z) (list Z).
Variables batch_size chunk_size : Z.
Hypothesis es_rows : Forall (λ e, f e.1.1 = Done e.1.2) es_all.
Hypothesis es_targets : Forall (λ e, g e.1.1 = Done e.2) es_all.
Hypothesis es_range : Forall (λ e, 0 ≤ t_rhs e.1.1 < sizes2 m) es_all.
Hypothesis es_keys : Forall (λ e, is_Some (F0 !! key_of e.1.1)) es_all.
Hypothesis F0_range :
  ∀ k l, F0 !! k = Some l → Forall (λ x, 0 ≤ x < sizes2 m) l.
Hypothesis batch_size_pos : 0 < batch_size.
Hypothesis chunk_size_pos : 0 < chunk_size.

Local Abbreviation qs_of := (fmap (M := list) (λ e : Z * Z * Z * list Q * Q, e.1.1)).
Local Abbreviation queries := (qs_of es_all).

Lemma chunk_rows_length (c : Z) :
  0 ≤ c ≤ sizes2 m →
  Z.of_nat (length (py_slice (trows cands) c (c + chunk_size)))
  = Z.min (c + chunk_size) (sizes2 m) - c.
Proof.
  intros Hc. unfold nrows in cands_rows.
  replace c with (Z.of_nat (Z.to_nat c)) by lia.
  rewrite py_slice_take_drop by lia.
  rewrite length_take, length_drop. lia.
Qed.

Lemma batch_body_spec (c : Z) (ps : list (Z * Z * Z))
    (done batch rest : list (Z * Z * Z * list Q * Q))
    (rdone rb rrest : list Z) :
  es_all = done ++ batch ++ rest →
  length batch = Nat.min (Z.to_nat batch_size) (length (batch ++ rest)) →
  length rdone = length done → length rb = length batch →
  length rrest = length rest →
  0 ≤ c ≤ sizes2 m → (sizes2 m ≤ chunk_size → c = 0) →
  Forall (λ q, 0 ≤ t_rhs q < sizes2 m) ps →
  batch_body m queries batch_size chunk_size c (get_rhs m c chunk_size)
    (Z.of_nat (length done),
     (rdone ++ rb ++ rrest, grow F0 (ps ++ qs_of done)))
  = Done (Z.of_nat (length done) + batch_size,
          (rdone
           ++ zip_with Z.add rb
                (pass_counts F0 (py_slice (trows cands) c (c + chunk_size))
                   c (ps ++ qs_of done) batch)
           ++ rrest,
           grow F0 (ps ++ qs_of (done ++ batch)))).
Proof.
  intros Hall Hbatch Hrdone Hrb Hrrest Hc Hfull Hps.
  rewrite Hall in es_rows, es_targets, es_range, es_keys.
  apply Forall_app in es_rows as [Hrows_d [Hrows_b _]%Forall_app].
  apply Forall_app in es_targets as [_ [Htg_b _]%Forall_app].
  apply Forall_app in es_range as [Hrg_d [Hrg_b _]%Forall_app].
  apply Forall_app in es_keys as [_ [Hk_b _]%Forall_app].
  unfold batch_body.
  assert (py_slice queries (Z.of_nat (length done))
            (Z.of_nat (length done) + batch_size) = qs_of batch) as ->.
  { rewrite py_slice_take_drop.
    2:{ lia. }
    2:{ rewrite length_fmap, Hall, length_app. lia. }
    rewrite Hall, !fmap_app.
    rewrite <- (length_fmap (λ e : Z * Z * Z * list Q * Q, e.1.1) done).
    rewrite drop_app_length.
    apply take_batch. rewrite <- fmap_app, !length_fmap. done. }
  rewrite get_queries_rows.
  rewrite (mapM_outcome_fmap2 f _ (λ e, e.1.2)) by done.
  cbn [fmap outcome_fmap mbind outcome_bind].
  rewrite get_rhs_cands, matmul_transpose.
  2:{ unfold wf_tensor2, slice_rows, py_slice. cbn.
      by apply Forall_take, Forall_drop. }
  2:{ done. }
  cbn [mbind outcome_bind].
  rewrite score_rows.
  rewrite (mapM_outcome_fmap2 g _ (λ e, e.2)) by done.
  cbn [mbind outcome_bind trows slice_rows].
  unfold of_rows. cbn [trows]. rewrite <- list_fmap_compose.
  destruct (mask_queries_spec m queries F0 chunk_size c (length done)
              (py_slice (trows cands) c (c + chunk_size)) F0_range)
    with (es := batch) (k0 := 0%nat) (ps := ps ++ qs_of done)
         (nc := nrows (slice_rows cands c (c + chunk_size)))
         (rows_done := @nil (list Q))
    as (rows' & Hrun & Hcounts).
  - lia.
  - by apply chunk_rows_length.
  - done.
  - done.
  - intros k e He. rewrite Nat.add_0_r, list_lookup_fmap, Hall.
    rewrite lookup_app_r by lia.
    replace (length done + k - length done)%nat with k by lia.
    rewrite lookup_app_l by (by eapply lookup_lt_Some).
    by rewrite He.
  - done.
  - apply Forall_app. split; [done|]. by apply Forall_fmap.
  - done.
  - cbn [app] in Hrun.
    assert (imap pair (qs_of batch)
            = imap (λ k q, ((0 + k)%nat, q)) (qs_of batch)) as -> by done.
    unfold compose. rewrite Hrun.
    cbn [mbind outcome_bind mret outcome_ret].
    unfold counts_ge. cbn [trows]. rewrite Hcounts.
    rewrite <- Hrdone. rewrite add_slice_app.
    + by rewrite fmap_app, <- !app_assoc.
    + lia.
    + rewrite Hrb, Hbatch, !length_app. lia.
    + by rewrite pass_counts_length.
Qed.


Lemma batch_loop_spec (c : Z) (ps : list (Z * Z * Z)) :
  0 ≤ c ≤ sizes2 m → (sizes2 m ≤ chunk_size → c = 0) →
  Forall (λ q, 0 ≤ t_rhs q < sizes2 m) ps →
  ∀ (fuel : nat) (done rest : list (Z * Z * Z * list Q * Q))
    (rdone rrest : list Z) (bz : Z),
    es_all = done ++ rest →
    length rdone = length done → length rrest = length rest →
    (length rest ≤ fuel)%nat →
    Z.of_nat (length done) ≤ bz →
    (rest ≠ [] → bz = Z.of_nat (length done)) →
    ∃ bz',
      while fuel (λ s, s.1 <? Z.of_nat (length queries))
        (batch_body m queries batch_size chunk_size c
                    (get_rhs m c chunk_size))
        (bz, (rdone ++ rrest, grow F0 (ps ++ qs_of done)))
      = Done (bz',
              (rdone
               ++ zip_with Z.add rrest
                    (pass_counts F0
                       (py_slice (trows cands) c (c + chunk_size)) c
                       (ps ++ qs_of done) rest),
               grow F0 (ps ++ queries))).
Proof.
  intros Hc Hfull Hps fuel.
  induction fuel as [|fuel IH];
    intros done rest rdone rrest bz Hall Hrdone Hrrest Hfuel Hbz Hbz'.
  - assert (rest = []) as -> by (apply nil_length_inv; lia).
    assert (rrest = []) as -> by (by apply nil_length_inv).
    rewrite app_nil_r in Hall. subst done. exists bz. cbn.
    destruct (Z.ltb_spec bz (Z.of_nat (length queries))) as [Hlt|_].
    { rewrite length_fmap in Hlt. lia. }
    by rewrite app_nil_r.
  - destruct rest as [|e rest0].
    { assert (rrest = []) as -> by (by apply nil_length_inv).
      rewrite app_nil_r in Hall. subst done. exists bz. cbn.
      destruct (Z.ltb_spec bz (Z.of_nat (length queries))) as [Hlt|_].
      { rewrite length_fmap in Hlt. lia. }
      by rewrite app_nil_r. }
    set (rest := e :: rest0) in *.
    rewrite (Hbz' ltac:(done)). clear Hbz Hbz' bz.
    cbn [while fst].
    destruct (Z.ltb_spec (Z.of_nat (length done))
                (Z.of_nat (length queries))) as [_|Hge].
    2:{ rewrite length_fmap, Hall, length_app in Hge.
        unfold rest in Hge. cbn in Hge. lia. }
    set (s := Z.to_nat batch_size).
    pose proof (take_drop s rest) as Hsplit.
    pose proof (take_drop (length (take s rest)) rrest) as Hrsplit.
    assert (length (take s rest) = Nat.min s (length rest)) as Hlb
      by apply length_take.
    assert (0 < length (take s rest))%nat as Hpos.
    { rewrite Hlb. unfold rest, s. cbn [length]. lia. }
    replace (rdone ++ rrest)
      with (rdone ++ take (length (take s rest)) rrest
                  ++ drop (length (take s rest)) rrest)
      by (by rewrite Hrsplit).
    rewrite (batch_body_spec c ps done (take s rest) (drop s rest)).
    + destruct (IH (done ++ take s rest) (drop s rest)
                  (rdone ++ zip_with Z.add
                     (take (length (take s rest)) rrest)
                     (pass_counts F0
                        (py_slice (trows cands) c (c + chunk_size)) c
                        (ps ++ qs_of done) (take s rest)))
                  (drop (length (take s rest)) rrest)
                  (Z.of_nat (length done) + batch_size))
        as (bz' & Hrun).
      * by rewrite <- app_assoc, Hsplit.
      * rewrite !length_app, length_zip_with, pass_counts_length,
          !length_take. lia.
      * rewrite !length_drop, length_take. lia.
      * rewrite length_drop. lia.
      * rewrite length_app. unfold s in *. lia.
      * intros Hne. rewrite length_app, Hlb.
        assert (length (drop s rest) ≠ 0)%nat as Hd.
        { intros H0. apply Hne. by apply nil_length_inv. }
        rewrite length_drop in Hd. unfold s in *. lia.
      * exists bz'. rewrite <- app_assoc in Hrun. rewrite Hrun.
        do 3 f_equal. rewrite <- app_assoc. f_equal.
        replace (pass_counts F0 (py_slice (trows cands) c (c + chunk_size))
                   c (ps ++ qs_of done) rest)
          with (pass_counts F0 (py_slice (trows cands) c (c + chunk_size))
                  c (ps ++ qs_of done) (take s rest ++ drop s rest))
          by (by rewrite Hsplit).
        rewrite pass_counts_app, fmap_app, app_assoc.
        rewrite <- zip_with_app.
        2:{ rewrite pass_counts_length, !length_take. lia. }
        by rewrite Hrsplit.
    + by rewrite Hsplit.
    + by rewrite Hsplit.
    + done.
    + rewrite !length_take. lia.
    + rewrite !length_drop, length_take. lia.
    + done.
    + done.
    + done.
Qed.


Lemma es_queries_range : Forall (λ q, 0 ≤ t_rhs q < sizes2 m) queries.
Proof. by apply Forall_fmap. Qed.

Lemma chunk_body_spec (fuel : nat) (c : Z) (ps : list (Z * Z * Z))
    (ranks : list Z) :
  0 ≤ c ≤ sizes2 m → (sizes2 m ≤ chunk_size → c = 0) →
  Forall (λ q, 0 ≤ t_rhs q < sizes2 m) ps →
  length ranks = length es_all → (length es_all ≤ fuel)%nat →
  chunk_body fuel m queries batch_size chunk_size (c, (ranks, grow F0 ps))
  = Done (c + chunk_size,
          (zip_with Z.add ranks
             (pass_counts F0 (py_slice (trows cands) c (c + chunk_size)) c
                ps es_all),
           grow F0 (ps ++ queries))).
Proof.
  intros Hc Hfull Hps Hranks Hfuel. unfold chunk_body.
  destruct (batch_loop_spec c ps Hc Hfull Hps fuel [] es_all [] ranks 0)
    as (bz' & Hrun); try done.
  cbn [app fmap list_fmap] in Hrun. rewrite app_nil_r in Hrun.
  rewrite Hrun. done.
Qed.

Lemma mjoin_replicate_snoc {A} (n : nat) (l : list A) :
  mjoin (replicate n l) ++ l = mjoin (replicate (S n) l).
Proof.
  induction n as [|n IH].
  - cbn. by rewrite app_nil_r.
  - change (mjoin (replicate (S n) l)) with (l ++ mjoin (replicate n l))
      in *.
    change (mjoin (replicate (S (S n)) l))
      with (l ++ l ++ mjoin (replicate n l)).
    by rewrite <- app_assoc, IH.
Qed.

Lemma chunk_loop_spec (fuel0 : nat) :
  (length es_all ≤ fuel0)%nat →
  ∀ (n fuel : nat) (c : Z) (ps : list (Z * Z * Z)) (ranks : list Z),
    (n ≤ fuel)%nat → 0 ≤ c →
    (sizes2 m ≤ chunk_size → c = 0 ∨ sizes2 m ≤ c) →
    sizes2 m ≤ c + Z.of_nat n * chunk_size →
    ((0 < n)%nat → c + (Z.of_nat n - 1) * chunk_size < sizes2 m) →
    Forall (λ q, 0 ≤ t_rhs q < sizes2 m) ps →
    length ranks = length es_all →
    while fuel (λ s, s.1 <? sizes2 m)
      (chunk_body fuel0 m queries batch_size chunk_size)
      (c, (ranks, grow F0 ps))
    = Done (c + Z.of_nat n * chunk_size,
            (passes_from n F0 (trows cands) chunk_size c ps es_all ranks,
             grow F0 (ps ++ mjoin (replicate n queries)))).
Proof.
  intros Hfuel0. induction n as [|n IH];
    intros fuel c ps ranks Hfuel Hc Hfull Hn Hlast Hps Hranks.
  - replace (c + Z.of_nat 0 * chunk_size) with c in * by lia.
    destruct fuel; cbn [while fst];
      (destruct (Z.ltb_spec c (sizes2 m)); [lia|]);
      cbn; by rewrite app_nil_r.
  - destruct fuel as [|fuel]; [lia|].
    assert (c < sizes2 m) as Hlt.
    { specialize (Hlast ltac:(lia)). nia. }
    cbn [while fst]. destruct (Z.ltb_spec c (sizes2 m)); [|lia].
    rewrite chunk_body_spec; [|lia|lia|done..].
    rewrite IH.
    + cbn [passes_from]. rewrite <- app_assoc.
      change (mjoin (replicate (S n) queries))
        with (queries ++ mjoin (replicate n queries)).
      do 2 f_equal. lia.
    + lia.
    + lia.
    + intros Hge. right. lia.
    + lia.
    + intros Hpos. specialize (Hlast ltac:(lia)). lia.
    + apply Forall_app. split; [done|]. apply es_queries_range.
    + rewrite length_zip_with, pass_counts_length. lia.
Qed.


(** ** The counts of a pass, candidate by candidate *)

Lemma cand_score_row (v : list Q) (j : nat) (row : list Q) :
  trows cands !! j = Some row → cand_score m v j = dot v row.
Proof.
  intros Hj. unfold cand_score. rewrite get_rhs_cands.
  assert (slice_rows cands 0 (0 + sizes2 m) = cands) as ->.
  { unfold slice_rows. rewrite <- cands_rows.
    change 0 with (Z.of_nat 0) at 1 2.
    rewrite py_slice_take_drop by (unfold nrows; lia).
    rewrite Nat2Z.id. unfold nrows. rewrite drop_0, firstn_all.
    by destruct cands. }
  by rewrite (column_transpose _ _ _ cands_wf Hj).
Qed.

Lemma count_ge_mask_row (t : Q) (fl : list Z) (v : list Q) (c : Z) :
  0 ≤ c ≤ sizes2 m →
  count_ge t (mask_row c fl
                (dot v <$> py_slice (trows cands) c (c + chunk_size)))
  = Z.of_nat (length (filter (λ j, beats m t fl v j)
                (seq (Z.to_nat c)
                     (Z.to_nat (Z.min (c + chunk_size) (sizes2 m) - c))))).
Proof.
  intros Hc.
  assert (∃ c0, c = Z.of_nat c0) as [c0 ->] by (exists (Z.to_nat c); lia).
  rewrite Nat2Z.id. unfold count_ge. f_equal.
  apply length_filter_Forall2. apply Forall2_same_length_lookup. split.
  - rewrite mask_row_length, length_fmap, length_seq.
    pose proof (chunk_rows_length _ Hc). lia.
  - intros k s j Hs Hj. apply lookup_seq in Hj as [-> Hk].
    unfold mask_row in Hs. rewrite list_lookup_imap, list_lookup_fmap in Hs.
    rewrite py_slice_take_drop in Hs by (unfold nrows in *; lia).
    rewrite lookup_take_lt, lookup_drop in Hs by lia.
    destruct (trows cands !! (c0 + k)%nat) as [row|] eqn:Hrow; [|done].
    cbn in Hs. injection Hs as <-. unfold beats.
    rewrite (cand_score_row _ _ _ Hrow).
    replace (Z.of_nat (c0 + k)) with (Z.of_nat c0 + Z.of_nat k) by lia.
    done.
Qed.


Lemma filter_seen_unfold (p i : nat) (q : Z * Z * Z) :
  queries !! i = Some q →
  filter_seen F0 queries p i
  = default [] (F0 !! key_of q)
    ++ objs_for (key_of q) (mjoin (replicate p queries)
                            ++ take (S i) queries).
Proof. intros Hq. unfold filter_seen. by rewrite Hq. Qed.

Lemma passes_from_lookup (i : nat) (q : Z * Z * Z) (v : list Q) (t : Q) :
  es_all !! i = Some (q, v, t) →
  ∀ (n p : nat) (c : Z) (ranks : list Z) (r : Z),
    c = Z.of_nat p * chunk_size →
    ranks !! i = Some r →
    length ranks = length es_all →
    ((0 < n)%nat → Z.of_nat (p + n - 1) * chunk_size < sizes2 m) →
    passes_from n F0 (trows cands) chunk_size c
      (mjoin (replicate p queries)) es_all ranks !! i
    = Some (r + Z.of_nat (length (filter
              (λ j, beats m t
                      (filter_seen F0 queries (j / Z.to_nat chunk_size) i)
                      v j)
              (seq (p * Z.to_nat chunk_size)
                   (Nat.min ((p + n) * Z.to_nat chunk_size)
                            (Z.to_nat (sizes2 m))
                    - p * Z.to_nat chunk_size))))).
Proof.
  intros Hi. induction n as [|n IH]; intros p c ranks r Hc Hr Hlen Hlast.
  - cbn [passes_from]. rewrite Hr. f_equal.
    replace (Nat.min ((p + 0) * Z.to_nat chunk_size) (Z.to_nat (sizes2 m))
             - p * Z.to_nat chunk_size)%nat with 0%nat by lia.
    cbn. lia.
  - cbn [passes_from].
    set (cs0 := Z.to_nat chunk_size) in *.
    set (N0 := Z.to_nat (sizes2 m)) in *.
    assert (Z.of_nat p * chunk_size < sizes2 m) as Hp.
    { specialize (Hlast ltac:(lia)). nia. }
    assert (queries !! i = Some q) as Hq.
    { by rewrite list_lookup_fmap, Hi. }
    rewrite mjoin_replicate_snoc.
    erewrite (IH (S p)); cycle 1.
    + lia.
    + rewrite lookup_zip_with, Hr. cbn.
      rewrite (pass_counts_lookup _ _ _ _ _ _ _ _ _ Hi). cbn. done.
    + rewrite length_zip_with, pass_counts_length. lia.
    + intros Hn. specialize (Hlast ltac:(lia)).
      by replace (S p + n - 1)%nat with (p + S n - 1)%nat by lia.
    + f_equal. rewrite <- Z.add_assoc. f_equal.
      rewrite count_ge_mask_row by lia. subst c.
      rewrite <- Nat2Z.inj_add, <- length_app. do 2 f_equal.
      rewrite <- (filter_seen_unfold p i q Hq).
      replace (Z.to_nat (Z.of_nat p * chunk_size)) with (p * cs0)%nat
        by lia.
      set (len := Z.to_nat (Z.min (Z.of_nat p * chunk_size + chunk_size)
                                  (sizes2 m) - Z.of_nat p * chunk_size)).
      assert (Nat.min ((p + S n) * cs0) N0 - p * cs0
              = len + (Nat.min ((S p + n) * cs0) N0 - S p * cs0))%nat
        as ->.
      { unfold len, cs0, N0. destruct n as [|n].
        - replace (S p + 0)%nat with (S p) by lia.
          replace (p + 1)%nat with (S p) by lia. lia.
        - specialize (Hlast ltac:(lia)).
          replace (Z.of_nat (p + S (S n) - 1))
            with (Z.of_nat p + 1 + Z.of_nat n) in Hlast by lia.
          replace (p + S (S n))%nat with (S p + S n)%nat by lia.
          nia. }
      rewrite seq_app, filter_app. f_equal.
      * apply filter_ext_elem. intros j Hj%elem_of_seq.
        replace (j / cs0)%nat with p; [done|].
        apply Nat.div_unique with (r := (j - p * cs0)%nat);
          unfold len, cs0 in *; lia.
      * destruct n as [|n].
        -- replace (Nat.min ((S p + 0) * cs0) N0 - S p * cs0)%nat
             with 0%nat by lia.
           done.
        -- specialize (Hlast ltac:(lia)).
           replace (p * cs0 + len)%nat with (S p * cs0)%nat; [done|].
           unfold len, cs0, N0. nia.
Qed.

End Passes.

(** * [get_ranking] and its reference description *)

Lemma mapM_outcome_Forall2 {A B} (f : A → outcome B) (l : list A)
    (r : list B) :
  mapM f l = Done r → Forall2 (λ x y, f x = Done y) l r.
Proof.
  revert r. induction l as [|x l IH]; intros r; cbn [mapM].
  - intros [= <-]. constructor.
  - destruct (f x) as [y| |] eqn:Hx; cbn; [|done..].
    destruct (mapM f l) as [r'| |]; cbn; [|done..].
    intros [= <-]. constructor; [done|]. by apply IH.
Qed.

Lemma passes_from_length (n : nat) F0 cands cs c ps es ranks :
  length ranks = length es →
  length (passes_from n F0 cands cs c ps es ranks) = length es.
Proof.
  revert c ps ranks. induction n as [|n IH]; intros c ps ranks Hr; [done|].
  cbn [passes_from]. apply IH.
  rewrite length_zip_with, pass_counts_length. lia.
Qed.

Lemma chunks_enough (N cs : Z) :
  0 < N → 0 < cs →
  let n := Z.to_nat ((N + cs - 1) / cs) in
  N ≤ Z.of_nat n * cs ∧ (Z.of_nat n - 1) * cs < N ∧ (0 < n)%nat.
Proof.
  intros HN Hcs n.
  pose proof (Z.div_mod (N + cs - 1) cs ltac:(lia)) as Hdm.
  pose proof (Z.mod_pos_bound (N + cs - 1) cs Hcs) as Hm.
  assert (0 < (N + cs - 1) / cs) as Hpos.
  { apply Z.div_str_pos. lia. }
  unfold n. rewrite Z2Nat.id by lia. split; [nia|]. split; [nia|lia].
Qed.

(** With fuel for the chunks and for the queries, on a lawful model and
    filters that mention every query's key and only valid candidates,
    [get_ranking] returns the ranks [rank_of] and leaves the filters grown
    by one copy of each query's right-hand side for each chunk. *)
Lemma get_ranking_spec {M : Type} `{KBCModel M} (m : M)
    (queries : list (Z * Z * Z)) (F0 : gmap (Z * Z) (list Z))
    (batch_size chunk_size : Z) (fuel : nat) (Qm : tensor2) (ts : list Q) :
  lawful m →
  get_queries m queries = Done Qm → score m queries = Done ts →
  Forall (λ q, is_Some (F0 !! key_of q)) queries →
  (∀ k l, F0 !! k = Some l → Forall (λ x, 0 ≤ x < sizes2 m) l) →
  0 < batch_size → chunk_size ≠ 0 →
  (chunks m chunk_size ≤ fuel)%nat → (length queries ≤ fuel)%nat →
  get_ranking fuel m queries F0 batch_size chunk_size
  = Done (rank_of m F0 queries chunk_size (trows Qm) ts
            <$> seq 0 (length queries),
          grow F0 (mjoin (replicate (chunks m chunk_size) queries))).
Proof.
  intros [(cands & Hwf & Hrows & Hrhs & f & Hf) (g & Hg & Hgr)]
    HQ Hts Hkeys Hrange Hbs Hcs Hfuel1 Hfuel2.
  rewrite Hf in HQ. destruct (mapM f queries) as [vs| |] eqn:Hvs; [|done..].
  cbn in HQ. injection HQ as <-. cbn [trows of_rows].
  rewrite Hg in Hts.
  apply mapM_outcome_Forall2 in Hvs, Hts.
  pose proof (Forall2_length _ _ _ Hvs) as Hlv.
  pose proof (Forall2_length _ _ _ Hts) as Hlt.
  set (es_all := zip (zip queries vs) ts).
  assert ((λ e : Z * Z * Z * list Q * Q, e.1.1) <$> es_all = queries) as Hqs.
  { transitivity (fst <$> (fst <$> es_all)).
    { by rewrite <- list_fmap_compose. }
    unfold es_all.
    rewrite fst_zip by (rewrite length_zip; lia).
    rewrite fst_zip by lia. done. }
  assert (∀ i q v t, es_all !! i = Some (q, v, t) →
            queries !! i = Some q ∧ vs !! i = Some v ∧ ts !! i = Some t)
    as Hes.
  { intros i q v t Hi. unfold es_all in Hi.
    apply lookup_zip_with_Some in Hi as ([q' v'] & t' & [= -> -> ->] & Hi & ?).
    apply lookup_zip_with_Some in Hi as (? & ? & [= -> ->] & ? & ?).
    done. }
  assert (length es_all = length queries) as Hlen.
  { rewrite <- Hqs. by rewrite length_fmap. }
  unfold get_ranking.
  change (if chunk_size <? 0 then sizes2 m else chunk_size)
    with (chunk_size_used m chunk_size).
  set (cs := chunk_size_used m chunk_size).
  assert (0 ≤ sizes2 m) as HN by lia.
  destruct (decide (sizes2 m = 0)) as [HN0|HN0].
  - (* no candidate: the loop over chunks does not run *)
    assert (chunks m chunk_size = 0%nat) as ->.
    { unfold chunks. fold cs. rewrite HN0.
      destruct (decide (cs = 0)) as [->|]; [done|].
      assert (0 < cs) by (unfold cs, chunk_size_used in *;
                          destruct (chunk_size <? 0) eqn:?; lia).
      rewrite Z.div_small; [done|lia]. }
    destruct fuel; cbn [while fst];
      (destruct (Z.ltb_spec 0 (sizes2 m)); [lia|]);
      cbn; rewrite grow_nil; do 2 f_equal;
      apply list_eq; intros i;
      rewrite list_lookup_fmap;
      (destruct (decide (i < length queries)%nat);
       [rewrite lookup_replicate_2, lookup_seq_lt by lia; cbn; f_equal;
        unfold rank_of; rewrite HN0; done
       |rewrite lookup_seq_ge by lia; cbn;
        apply lookup_replicate_None; lia]).
  - assert (0 < cs) as Hcspos.
    { unfold cs, chunk_size_used. destruct (Z.ltb_spec chunk_size 0); lia. }
    destruct (chunks_enough (sizes2 m) cs) as (Hn1 & Hn2 & Hn3); [lia..|].
    assert (Z.to_nat ((sizes2 m + cs - 1) / cs) = chunks m chunk_size)
      as Hchunks by done.
    rewrite Hchunks in Hn1, Hn2, Hn3.
    rewrite <- Hqs at 1 2.
    rewrite <- (grow_nil F0) at 1.
    rewrite (chunk_loop_spec m cands f g Hwf Hrows Hrhs Hf Hg es_all F0
               batch_size cs) with (n := chunks m chunk_size).
    + cbn [mbind outcome_bind mret outcome_ret app]. rewrite Hqs.
      do 2 f_equal. apply list_eq. intros i. rewrite list_lookup_fmap.
      destruct (decide (i < length queries)%nat) as [Hi|Hi].
      * destruct (lookup_lt_is_Some_2 es_all i) as [[[q v] t] He]; [lia|].
        destruct (Hes _ _ _ _ He) as (Hq & Hv & Ht).
        rewrite (passes_from_lookup m cands f Hwf Hrows Hrhs Hf es_all F0
                   batch_size cs Hbs Hcspos i q v t He
                   (chunks m chunk_size) 0%nat 0 (replicate (length queries) 1)
                   1).
        -- rewrite lookup_seq_lt by lia. cbn [fmap option_fmap option_map].
           f_equal. unfold rank_of, counted. fold cs.
           rewrite (nth_lookup_Some _ _ _ _ Hv), (nth_lookup_Some _ _ _ _ Ht).
           rewrite Hqs. do 3 f_equal.
           rewrite Nat.mul_0_l, Nat.sub_0_r.
           rewrite Nat.min_r; [done|]. apply Nat2Z.inj_le.
           cbn [Nat.add].
           rewrite Nat2Z.inj_mul, !Z2Nat.id by lia. lia.
        -- lia.
        -- rewrite lookup_replicate_2; [done|lia].
        -- rewrite length_replicate. lia.
        -- intros _. lia.
      * rewrite lookup_seq_ge by lia. cbn. apply lookup_ge_None.
        rewrite passes_from_length; rewrite ?length_replicate; lia.
    + apply Forall_lookup. intros k [[q' v'] t'] Hk.
      destruct (Hes _ _ _ _ Hk) as (Hq' & Hv' & _). cbn.
      eapply (Forall2_lookup_lr _ _ _ _ _ _ Hvs Hq' Hv').
    + apply Forall_lookup. intros k [[q' v'] t'] Hk.
      destruct (Hes _ _ _ _ Hk) as (Hq' & _ & Ht'). cbn.
      eapply (Forall2_lookup_lr _ _ _ _ _ _ Hts Hq' Ht').
    + apply Forall_lookup. intros k [[q' v'] t'] Hk.
      destruct (Hes _ _ _ _ Hk) as (Hq' & _ & Ht'). cbn.
      eapply Hgr. eapply (Forall2_lookup_lr _ _ _ _ _ _ Hts Hq' Ht').
    + rewrite <- Hqs, Forall_fmap in Hkeys. exact Hkeys.
    + done.
    + done.
    + done.
    + lia.
    + done.
    + lia.
    + intros _. by left.
    + lia.
    + intros _. lia.
    + constructor.
    + by rewrite length_replicate, length_fmap.
Qed.

(** * [CP] and [ComplEx] are lawful *)

Lemma lookup_row_cases (t : tensor2) (id : Z) :
  (∃ r, lookup_row t id = Done r) ∨ lookup_row t id = Raised IndexError.
Proof.
  unfold lookup_row. destruct (id <? 0); [by right|].
  destruct (trows t !! Z.to_nat id); [left; eauto|by right].
Qed.

Lemma mapM_lookup_row_cases (t : tensor2) (ids : list Z) :
  (∃ rs, mapM (lookup_row t) ids = Done rs)
  ∨ mapM (lookup_row t) ids = Raised IndexError.
Proof.
  induction ids as [|id ids IH]; [left; by exists []|].
  cbn [mapM].
  destruct (lookup_row_cases t id) as [[r ->]| ->]; [|by right].
  destruct IH as [[rs ->]| ->]; [left; by eexists|by right].
Qed.

Lemma lookup_row_Done_valid (t : tensor2) (id : Z) (r : list Q) :
  lookup_row t id = Done r → valid_id t id.
Proof.
  unfold lookup_row, valid_id, nrows.
  destruct (Z.ltb_spec id 0); [done|].
  destruct (trows t !! Z.to_nat id) eqn:Hr; [|done].
  intros _. apply lookup_lt_Some in Hr. lia.
Qed.

(** Two tables looked up for a batch and combined row by row. *)
Lemma mapM_lookup_pair {A} (t1 t2 : tensor2) (p1 p2 : A → Z)
    (h : list Q → list Q → list Q) (d : nat) (qs : list A) :
  (xs ← mapM (lookup_row t1) (p1 <$> qs);
   ys ← mapM (lookup_row t2) (p2 <$> qs);
   mret (of_rows d (zip_with h xs ys)))
  = of_rows d
    <$> mapM (λ q, x ← lookup_row t1 (p1 q); y ← lookup_row t2 (p2 q);
                   mret (h x y)) qs.
Proof.
  induction qs as [|q qs IH]; [done|].
  cbn [fmap list_fmap mapM].
  change (list_fmap A Z p1 qs) with (p1 <$> qs) in *.
  change (list_fmap A Z p2 qs) with (p2 <$> qs) in *.
  destruct (lookup_row_cases t1 (p1 q)) as [[x ->]| ->]; [|done].
  destruct (lookup_row_cases t2 (p2 q)) as [[y ->]| ->];
    destruct (mapM_lookup_row_cases t1 (p1 <$> qs)) as [[xs Hxs]|Hxs];
    destruct (mapM_lookup_row_cases t2 (p2 <$> qs)) as [[ys Hys]|Hys];
    rewrite Hxs, Hys in *; cbn in *;
    destruct (mapM _ qs) as [vs| |]; cbn in *;
    unfold mret, outcome_ret, of_rows in *; congruence.
Qed.

(** Three tables looked up for a batch and combined row by row. *)
Lemma mapM_lookup_triple {A} (t1 t2 t3 : tensor2) (p1 p2 p3 : A → Z)
    (h : list Q → list Q → list Q → Q) (qs : list A) :
  (xs ← mapM (lookup_row t1) (p1 <$> qs);
   ys ← mapM (lookup_row t2) (p2 <$> qs);
   zs ← mapM (lookup_row t3) (p3 <$> qs);
   mret (zip_with (λ xy z, h xy.1 xy.2 z) (zip xs ys) zs))
  = mapM (λ q, x ← lookup_row t1 (p1 q); y ← lookup_row t2 (p2 q);
               z ← lookup_row t3 (p3 q); mret (h x y z)) qs.
Proof.
  induction qs as [|q qs IH]; [done|].
  cbn [fmap list_fmap mapM].
  change (list_fmap A Z p1 qs) with (p1 <$> qs) in *.
  change (list_fmap A Z p2 qs) with (p2 <$> qs) in *.
  change (list_fmap A Z p3 qs) with (p3 <$> qs) in *.
  destruct (lookup_row_cases t1 (p1 q)) as [[x ->]| ->]; [|done].
  destruct (lookup_row_cases t2 (p2 q)) as [[y ->]| ->];
    destruct (lookup_row_cases t3 (p3 q)) as [[z ->]| ->];
    destruct (mapM_lookup_row_cases t1 (p1 <$> qs)) as [[xs Hxs]|Hxs];
    destruct (mapM_lookup_row_cases t2 (p2 <$> qs)) as [[ys Hys]|Hys];
    destruct (mapM_lookup_row_cases t3 (p3 <$> qs)) as [[zs Hzs]|Hzs];
    rewrite Hxs, Hys, Hzs in *; cbn in *;
    destruct (mapM _ qs) as [vs| |]; cbn in *;
    unfold mret, outcome_ret in *; congruence.
Qed.

Lemma embedding_mapM (t : tensor2) (ids : list Z) :
  embedding t ids = of_rows (ncols t) <$> mapM (lookup_row t) ids.
Proof. unfold embedding. by destruct (mapM _ ids). Qed.

Lemma bind_Done_inv {A B} (x : outcome A) (k : A → outcome B) (b : B) :
  x ≫= k = Done b → ∃ a, x = Done a ∧ k a = Done b.
Proof. destruct x as [a| |]; cbn; [eauto|done..]. Qed.

(** The rows looked up in a table of one width. *)
Lemma mapM_lookup_row_rows (t : tensor2) (ids : list Z)
    (rs : list (list Q)) :
  wf_tensor2 t → mapM (lookup_row t) ids = Done rs →
  length rs = length ids ∧ Forall (λ r, length r = ncols t) rs.
Proof.
  intros Hwf Hrs%mapM_outcome_Forall2.
  induction Hrs as [|id r ids rs Hid _ [IH1 IH2]]; [done|].
  split; [cbn; lia|]. constructor; [|done].
  unfold lookup_row in Hid. destruct (id <? 0); [done|].
  destruct (trows t !! Z.to_nat id) as [r'|] eqn:Hr; [|done].
  injection Hid as <-. apply (Forall_lookup_1 _ _ _ _ Hwf Hr).
Qed.

Lemma zip_with_app_zip_with {A B} (f g : A → B → list Q)
    (xs : list A) (ys : list B) :
  zip_with app (zip_with f xs ys) (zip_with g xs ys)
  = zip_with (λ x y, f x y ++ g x y) xs ys.
Proof.
  revert ys. induction xs as [|x xs IH]; intros [|y ys]; cbn; try done.
  f_equal. apply IH.
Qed.

Lemma CP_lawful (m : CP.model) : CP_wf m → lawful m.
Proof.
  intros (Hwl & Hwr & Hwo & Hcl & Hcr & Hco & Hrows). split.
  - exists (CP.rhs m). split; [done|]. split; [done|]. split; [done|].
    exists (λ q, x ← lookup_row (CP.lhs m) (t_lhs q);
                 y ← lookup_row (CP.rel m) (t_rel q);
                 mret (zip_with Qmult x y)).
    intros qs. rewrite <- mapM_lookup_pair.
    cbn [get_queries CP_KBCModel]. unfold CP.get_queries.
    rewrite !embedding_mapM.
    destruct (mapM _ (t_lhs <$> qs)) as [xs| |] eqn:Hxs; cbn; [|done..].
    destruct (mapM _ (t_rel <$> qs)) as [ys| |] eqn:Hys; cbn; [|done..].
    destruct (mapM_lookup_row_rows _ _ _ Hwl Hxs) as [Lx Wx].
    destruct (mapM_lookup_row_rows _ _ _ Hwr Hys) as [Ly Wy].
    rewrite length_fmap in Lx, Ly.
    rewrite Hcl in Wx. rewrite Hcr in Wy.
    unfold tmul. rewrite tmap2_zip.
    + cbn [of_rows ncols trows]. unfold mret, outcome_ret.
      by rewrite Hcl, Hcr, Hco, broadcast_size_diag.
    + cbn [of_rows trows].
      apply (Forall2_same_width (CP.rank m)); [lia|done..].
    + intros _. cbn [of_rows ncols]. rewrite Hcl, Hcr.
      apply broadcasts_diag.
  - exists (λ q, x ← lookup_row (CP.lhs m) (t_lhs q);
                 y ← lookup_row (CP.rel m) (t_rel q);
                 z ← lookup_row (CP.rhs m) (t_rhs q);
                 mret (sum_list (zip_with Qmult (zip_with Qmult x y) z))).
    split.
    + intros qs. rewrite <- mapM_lookup_triple.
      cbn [score CP_KBCModel]. unfold CP.score.
      rewrite !embedding_mapM.
      destruct (mapM _ (t_lhs <$> qs)) as [xs| |] eqn:Hxs; cbn; [|done..].
      destruct (mapM _ (t_rel <$> qs)) as [ys| |] eqn:Hys; cbn; [|done..].
      destruct (mapM _ (t_rhs <$> qs)) as [zs| |] eqn:Hzs; cbn; [|done..].
      destruct (mapM_lookup_row_rows _ _ _ Hwl Hxs) as [Lx Wx].
      destruct (mapM_lookup_row_rows _ _ _ Hwr Hys) as [Ly Wy].
      destruct (mapM_lookup_row_rows _ _ _ Hwo Hzs) as [Lz Wz].
      rewrite length_fmap in Lx, Ly, Lz.
      rewrite Hcl in Wx. rewrite Hcr in Wy. rewrite Hco in Wz.
      unfold tmul. rewrite tmap2_zip.
      2:{ cbn [of_rows trows].
          apply (Forall2_same_width (CP.rank m)); [lia|done..]. }
      2:{ intros _. cbn [of_rows ncols]. rewrite Hcl, Hcr.
          apply broadcasts_diag. }
      cbn [mbind outcome_bind]. rewrite tmap2_zip.
      2:{ cbn [of_rows trows].
          apply (Forall2_same_width (CP.rank m));
            [rewrite length_zip_with; lia
            |by apply zip_with_same_width|done]. }
      2:{ intros _. cbn [of_rows ncols]. rewrite Hcl, Hcr, Hco.
          rewrite broadcast_size_diag. apply broadcasts_diag. }
      cbn [mbind outcome_bind of_rows trows].
      unfold mret, outcome_ret, sum_dim1. cbn [trows]. f_equal.
      clear. revert ys zs.
      induction xs as [|x xs IH]; intros [|y ys] [|z zs]; cbn; try done.
      f_equal. apply IH.
    + intros q t Hq.
      apply bind_Done_inv in Hq as (x & _ & Hq).
      apply bind_Done_inv in Hq as (y & _ & Hq).
      apply bind_Done_inv in Hq as (z & Hz & _).
      apply lookup_row_Done_valid in Hz. unfold valid_id in Hz.
      cbn. unfold sizes2. cbn. rewrite <- Hrows. done.
Qed.

Lemma ComplEx_lawful (m : ComplEx.model) : ComplEx_wf m → lawful m.
Proof.
  intros (Hw0 & Hw1 & Hc0 & Hc1 & Hrows).
  set (k := ComplEx.rank m). split.
  - exists (ComplEx.embeddings0 m).
    split; [done|]. split; [done|]. split; [done|].
    exists (λ q, x ← lookup_row (ComplEx.embeddings0 m) (t_lhs q);
                 y ← lookup_row (ComplEx.embeddings1 m) (t_rel q);
                 mret (zip_with Qminus
                         (zip_with Qmult (take k x) (take k y))
                         (zip_with Qmult (drop k x) (drop k y))
                       ++ zip_with Qplus
                            (zip_with Qmult (take k x) (drop k y))
                            (zip_with Qmult (drop k x) (take k y)))).
    intros qs. rewrite <- mapM_lookup_pair.
    cbn [get_queries ComplEx_KBCModel]. unfold ComplEx.get_queries.
    rewrite !embedding_mapM. fold k.
    destruct (mapM _ (t_lhs <$> qs)) as [xs| |] eqn:Hxs; cbn; [|done..].
    destruct (mapM _ (t_rel <$> qs)) as [ys| |] eqn:Hys; cbn; [|done..].
    destruct (mapM_lookup_row_rows _ _ _ Hw0 Hxs) as [Lx Wx].
    destruct (mapM_lookup_row_rows _ _ _ Hw1 Hys) as [Ly Wy].
    rewrite length_fmap in Lx, Ly.
    rewrite Hc0 in Wx. rewrite Hc1 in Wy. fold k in Wx, Wy.
    destruct (product_re_rows k (of_rows (ncols (ComplEx.embeddings0 m)) xs)
                (of_rows (ncols (ComplEx.embeddings1 m)) ys))
      as (n1 & -> & Hn1); [unfold nrows; cbn; lia|done|done|done|].
    destruct (product_im_rows k (of_rows (ncols (ComplEx.embeddings0 m)) xs)
                (of_rows (ncols (ComplEx.embeddings1 m)) ys))
      as (n2 & -> & Hn2); [unfold nrows; cbn; lia|done|done|done|].
    cbn [mbind outcome_bind of_rows ncols trows] in *.
    rewrite (Hn1 Hc0 Hc1), (Hn2 Hc0 Hc1).
    unfold mret, outcome_ret, of_rows, cat_cols. cbn [ncols trows].
    rewrite zip_with_app_zip_with. f_equal. f_equal.
    rewrite Hc0. fold k. lia.
  - exists (λ q, x ← lookup_row (ComplEx.embeddings0 m) (t_lhs q);
                 y ← lookup_row (ComplEx.embeddings1 m) (t_rel q);
                 z ← lookup_row (ComplEx.embeddings0 m) (t_rhs q);
                 mret (sum_list
                   (zip_with Qplus
                      (zip_with Qmult
                         (zip_with Qminus
                            (zip_with Qmult (take k x) (take k y))
                            (zip_with Qmult (drop k x) (drop k y)))
                         (take k z))
                      (zip_with Qmult
                         (zip_with Qplus
                            (zip_with Qmult (take k x) (drop k y))
                            (zip_with Qmult (drop k x) (take k y)))
                         (drop k z))))).
    split.
    + intros qs. rewrite <- mapM_lookup_triple.
      cbn [score ComplEx_KBCModel]. unfold ComplEx.score.
      rewrite !embedding_mapM. fold k.
      destruct (mapM _ (t_lhs <$> qs)) as [xs| |] eqn:Hxs; cbn; [|done..].
      destruct (mapM _ (t_rel <$> qs)) as [ys| |] eqn:Hys; cbn; [|done..].
      destruct (mapM _ (t_rhs <$> qs)) as [zs| |] eqn:Hzs; cbn; [|done..].
      destruct (mapM_lookup_row_rows _ _ _ Hw0 Hxs) as [Lx Wx].
      destruct (mapM_lookup_row_rows _ _ _ Hw1 Hys) as [Ly Wy].
      destruct (mapM_lookup_row_rows _ _ _ Hw0 Hzs) as [Lz Wz].
      rewrite length_fmap in Lx, Ly, Lz.
      rewrite Hc0 in Wx, Wz. rewrite Hc1 in Wy. fold k in Wx, Wy, Wz.
      destruct (bilinear_rows k (of_rows (ncols (ComplEx.embeddings0 m)) xs)
                  (of_rows (ncols (ComplEx.embeddings1 m)) ys)
                  (of_rows (ncols (ComplEx.embeddings0 m)) zs))
        as (n & ->);
        [unfold nrows; cbn; lia|unfold nrows; cbn; lia|done|done|done|done|].
      cbn [mbind outcome_bind of_rows ncols trows nrows].
      unfold mret, outcome_ret, sum_dim1, of_rows, nrows. cbn [trows].
      f_equal. rewrite <- list_fmap_compose.
      rewrite (zip_with_tabulate _ ([], []) [] (zip xs ys) zs (length xs)).
      2:{ rewrite length_zip_with. lia. }
      2:{ lia. }
      apply list_fmap_ext. intros j i [-> Hi]%lookup_seq. cbn.
      rewrite (zip_with_tabulate pair [] [] xs ys (length xs));
        [|done|lia].
      assert (nth j ((λ i, (nth i xs [], nth i ys []))
                       <$> seq 0 (length xs)) ([], [])
              = (nth j xs [], nth j ys [])) as ->; [|done].
      apply nth_lookup_Some.
      by rewrite list_lookup_fmap, lookup_seq_lt by lia.
    + intros q t Hq.
      apply bind_Done_inv in Hq as (x & _ & Hq).
      apply bind_Done_inv in Hq as (y & _ & Hq).
      apply bind_Done_inv in Hq as (z & Hz & _).
      apply lookup_row_Done_valid in Hz. unfold valid_id in Hz.
      cbn. unfold sizes2. cbn. rewrite <- Hrows. done.
Qed.

(** * The filter list a query sees *)

Lemma elem_of_objs_for (k : Z * Z) (qs : list (Z * Z * Z)) (x : Z) :
  x ∈ objs_for k qs ↔ ∃ q, q ∈ qs ∧ key_of q = k ∧ x = t_rhs q.
Proof.
  unfold objs_for. rewrite list_elem_of_fmap. split.
  - intros (q & -> & [Hk Hq]%list_elem_of_filter). eauto.
  - intros (q & Hq & Hk & ->). exists q. split; [done|].
    by apply list_elem_of_filter.
Qed.

Lemma elem_of_mjoin_replicate {A} (n : nat) (l : list A) (x : A) :
  x ∈ mjoin (replicate n l) → x ∈ l.
Proof.
  induction n as [|n IH]; cbn.
  - by intros ?%elem_of_nil.
  - intros [?|?]%elem_of_app; auto.
Qed.

(** The filter set of a query is part of every filter list it sees. *)
Lemma in_filter_seen (F0 : gmap (Z * Z) (list Z)) (qs : list (Z * Z * Z))
    (p i : nat) (x : Z) :
  in_filter F0 qs i x = true → x ∈ filter_seen F0 qs p i.
Proof.
  unfold in_filter, filter_seen. destruct (qs !! i) as [q|] eqn:Hq; [|done].
  intros [Hx|Hx]%orb_prop.
  - apply bool_decide_eq_true in Hx. apply elem_of_app. by left.
  - apply bool_decide_eq_true in Hx. apply elem_of_app. right.
    apply elem_of_objs_for. exists q. split; [|done].
    apply elem_of_app. right. apply list_elem_of_lookup. exists i.
    rewrite lookup_take_lt by lia. done.
Qed.

(** When the queries that share its key have their true objects in its
    filter set, a query sees nothing but its filter set. *)
Lemma filter_seen_in (F0 : gmap (Z * Z) (list Z)) (qs : list (Z * Z * Z))
    (p i : nat) (x : Z) :
  same_key_filtered F0 qs i →
  x ∈ filter_seen F0 qs p i → in_filter F0 qs i x = true.
Proof.
  intros Hsame. unfold filter_seen.
  destruct (qs !! i) as [q|] eqn:Hq; [|by intros ?%elem_of_nil].
  intros [Hx|Hx]%elem_of_app.
  - unfold in_filter. rewrite Hq. apply orb_true_intro. left.
    by apply bool_decide_eq_true.
  - apply elem_of_objs_for in Hx as (q' & Hq' & Hk & ->).
    assert (q' ∈ qs) as Hin.
    { apply elem_of_app in Hq' as [Hq'|Hq'].
      - by eapply elem_of_mjoin_replicate.
      - by eapply subseteq_take. }
    apply list_elem_of_lookup in Hin as [i' Hi'].
    by eapply Hsame.
Qed.

Lemma Qle_bool_masked (t : Q) :
  (masked_score < t)%Q → Qle_bool t masked_score = false.
Proof.
  intros Ht. destruct (Qle_bool t masked_score) eqn:Hle; [|done].
  apply Qle_bool_iff in Hle. by apply Qlt_not_le in Ht.
Qed.

(** A candidate in the filter set of a query whose true score is above
    the sentinel is not counted against it. *)
Lemma counted_in_filter {M : Type} `{KBCModel M} (m : M)
    (F0 : gmap (Z * Z) (list Z)) (qs : list (Z * Z * Z)) (chunk_size : Z)
    (vs : list (list Q)) (ts : list Q) (i j : nat) :
  in_filter F0 qs i (Z.of_nat j) = true →
  (masked_score < nth i ts 0)%Q →
  counted m F0 qs chunk_size vs ts i j = false.
Proof.
  intros Hin Ht. unfold counted, beats.
  rewrite bool_decide_eq_true_2 by (by apply in_filter_seen).
  by apply Qle_bool_masked.
Qed.

Lemma rank_of_filtered_rank {M : Type} `{KBCModel M} (m : M)
    (F0 : gmap (Z * Z) (list Z)) (qs : list (Z * Z * Z)) (chunk_size : Z)
    (vs : list (list Q)) (ts : list Q) (i : nat) :
  same_key_filtered F0 qs i →
  (masked_score < nth i ts 0)%Q →
  rank_of m F0 qs chunk_size vs ts i = filtered_rank m F0 qs vs ts i.
Proof.
  intros Hsame Ht. unfold rank_of, filtered_rank. do 3 f_equal.
  apply filter_ext_elem. intros j _.
  destruct (in_filter F0 qs i (Z.of_nat j)) eqn:Hin.
  - rewrite (counted_in_filter m F0 qs chunk_size vs ts i j Hin Ht). done.
  - unfold counted, beats. rewrite bool_decide_eq_false_2; [done|].
    intros Hx%(filter_seen_in _ _ _ _ _ Hsame). congruence.
Qed.

(** * The claims about [get_ranking] *)

Lemma get_ranking_inputs {M : Type} `{KBCModel M} (fuel : nat) (m : M)
    (qs : list (Z * Z * Z)) (F0 : gmap (Z * Z) (list Z))
    (batch_size chunk_size : Z) (Qm : tensor2) (ts : list Q) :
  ranking_inputs fuel m qs F0 batch_size chunk_size →
  get_queries m qs = Done Qm → score m qs = Done ts →
  get_ranking fuel m qs F0 batch_size chunk_size
  = Done (rank_of m F0 qs chunk_size (trows Qm) ts <$> seq 0 (length qs),
          grow F0 (mjoin (replicate (chunks m chunk_size) qs))).
Proof.
  intros (Hlaw & Hkeys & Hrange & Hbs & Hcs & Hf1 & Hf2) HQ Hts.
  by apply get_ranking_spec.
Qed.

Lemma cp_example_wf : CP_wf cp_example.
Proof.
  unfold CP_wf, wf_tensor2. cbn.
  repeat split; try reflexivity; repeat constructor.
Qed.

Lemma cp_sentinel_wf : CP_wf cp_sentinel.
Proof.
  unfold CP_wf, wf_tensor2. cbn.
  repeat split; try reflexivity; repeat constructor.
Qed.

Lemma ranking_inputs_example :
  ranking_inputs 2 cp_example two_queries both_filters 1000 1.
Proof.
  split; [apply CP_lawful, cp_example_wf|].
  split; [repeat constructor; by eexists|].
  split; [apply map_Forall_singleton; repeat constructor; cbn; lia|].
  split; [lia|]. split; [lia|]. split; [vm_compute; lia|cbn; lia].
Qed.








(** * The filters after the call *)







(** * Chunked and unchunked ranking *)

(** When every query has a true score above the sentinel and a filter set
    that holds the true objects of the queries sharing its key, the ranks
    do not depend on the chunk size. *)
Lemma get_ranking_chunk_invariant {M : Type} `{KBCModel M} (fuel : nat)
    (m : M) (qs : list (Z * Z * Z)) (F0 : gmap (Z * Z) (list Z))
    (batch_size chunk_size : Z) (Qm : tensor2) (ts : list Q) :
  ranking_inputs fuel m qs F0 batch_size chunk_size →
  ranking_inputs fuel m qs F0 batch_size (-1) →
  get_queries m qs = Done Qm → score m qs = Done ts →
  (∀ i, (i < length qs)%nat →
        (masked_score < nth i ts 0)%Q ∧ same_key_filtered F0 qs i) →
  chunking_invariant fuel m qs F0 batch_size chunk_size.
Proof.
  intros Hin1 Hin2 HQ Hts Hqs. eexists _, _, _.
  split; [by apply get_ranking_inputs|].
  rewrite (get_ranking_inputs _ _ _ _ _ _ Qm ts Hin2 HQ Hts).
  do 2 f_equal. apply list_fmap_ext. intros k i [-> Hk]%lookup_seq.
  destruct (Hqs k Hk) as [Ht Hsame]. cbn.
  by rewrite !rank_of_filtered_rank.
Qed.

(** C1 fails on the code.  The two queries of [two_queries] share the key
    (0, 0), nothing is listed under it, and candidate 1 scores above the
    true score of the first query.  Unchunked (chunk size -1, or the full
    candidate count 2) the first query has rank 2: candidate 1 counts
    against it.  With chunk size 1, which divides the candidate count,
    the first pass appends the true object 1 of the second query to the
    shared list, the second pass filters candidate 1 for the first query
    too, and its rank is 1. *)
Theorem chunked_ranking_differs :
  get_ranking 2 cp_example two_queries no_filters 1000 (-1)
  = Done ([2; 1], {[ (0, 0) := [0; 1] ]})
  ∧ get_ranking 2 cp_example two_queries no_filters 1000 2
    = Done ([2; 1], {[ (0, 0) := [0; 1] ]})
  ∧ get_ranking 2 cp_example two_queries no_filters 1000 1
    = Done ([1; 1], {[ (0, 0) := [0; 1; 0; 1] ]})
  ∧ ¬ chunking_invariant 2 cp_example two_queries no_filters 1000 1.
Proof.
  split; [by vm_compute|]. split; [by vm_compute|].
  split; [by vm_compute|].
  intros (ranks & F1 & F2 & Hchunked & Hfull).
  vm_compute in Hchunked, Hfull. congruence.
Qed.

(** * Further facts about [get_ranking] *)

(** X1.  The batch size is a performance knob only: on the inputs
    [get_ranking] is described for, the ranks and the filters after the
    call are the same for any two positive batch sizes. *)
Theorem get_ranking_batch_invariant {M : Type} `{KBCModel M} (fuel : nat)
    (m : M) (qs : list (Z * Z * Z)) (F0 : gmap (Z * Z) (list Z))
    (batch_size batch_size' chunk_size : Z) (Qm : tensor2) (ts : list Q) :
  ranking_inputs fuel m qs F0 batch_size chunk_size →
  0 < batch_size' →
  get_queries m qs = Done Qm → score m qs = Done ts →
  get_ranking fuel m qs F0 batch_size' chunk_size
  = get_ranking fuel m qs F0 batch_size chunk_size.
Proof.
  intros Hin Hbs HQ Hts.
  assert (ranking_inputs fuel m qs F0 batch_size' chunk_size) as Hin'.
  { destruct Hin as (? & ? & ? & ? & ? & ? & ?).
    unfold ranking_inputs. tauto. }
  by rewrite !(get_ranking_inputs _ _ _ _ _ _ Qm ts).
Qed.

Lemma get_ranking_batch_invariant_witness :
  get_ranking 2 cp_example two_queries both_filters 1 1
  = get_ranking 2 cp_example two_queries both_filters 1000 1.
Proof.
  apply (get_ranking_batch_invariant 2 cp_example two_queries both_filters
           1000 1 1 (of_rows 1 [[1]; [1]]%Q) [1; 2]%Q).
  - exact ranking_inputs_example.
  - lia.
  - reflexivity.
  - reflexivity.
Defined.




(** X3.  What the call leaves alone in the filters: no key is added or
    removed, the list of a key that no query has is unchanged, and every
    other list keeps its entries as a prefix. *)
Theorem get_ranking_filters_frame {M : Type} `{KBCModel M} (fuel : nat)
    (m : M) (qs : list (Z * Z * Z)) (F0 : gmap (Z * Z) (list Z))
    (batch_size chunk_size : Z) (Qm : tensor2) (ts : list Q) :
  ranking_inputs fuel m qs F0 batch_size chunk_size →
  get_queries m qs = Done Qm → score m qs = Done ts →
  ∃ ranks F',
    get_ranking fuel m qs F0 batch_size chunk_size = Done (ranks, F')
    ∧ dom F' = dom F0
    ∧ (∀ k, (∀ q, q ∈ qs → key_of q ≠ k) → F' !! k = F0 !! k)
    ∧ (∀ k l, F0 !! k = Some l → ∃ l', F' !! k = Some (l ++ l')).
Proof.
  intros Hin HQ Hts. eexists _, _.
  split; [by apply get_ranking_inputs|]. split; [|split].
  - apply set_eq. intros k. rewrite !elem_of_dom, grow_lookup.
    by rewrite fmap_is_Some.
  - intros k Hk. rewrite grow_lookup.
    assert (objs_for k (mjoin (replicate (chunks m chunk_size) qs)) = [])
      as ->.
    { unfold objs_for.
      destruct (filter _ _) as [|q l] eqn:Hf; [done|].
      assert (q ∈ filter (λ q, key_of q = k)
                    (mjoin (replicate (chunks m chunk_size) qs))) as Hq
        by (rewrite Hf; apply list_elem_of_here).
      apply list_elem_of_filter in Hq as [Hkq Hq%elem_of_mjoin_replicate].
      by destruct (Hk q Hq). }
    destruct (F0 !! k); cbn; [|done]. by rewrite app_nil_r.
  - intros k l Hl. rewrite grow_lookup, Hl. cbn. by eexists.
Qed.

Lemma get_ranking_filters_frame_witness :
  ∃ ranks F',
    get_ranking 2 cp_example two_queries both_filters 1000 1
    = Done (ranks, F')
    ∧ dom F' = dom both_filters
    ∧ (∀ k, (∀ q, q ∈ two_queries → key_of q ≠ k) →
            F' !! k = both_filters !! k)
    ∧ (∀ k l, both_filters !! k = Some l → ∃ l', F' !! k = Some (l ++ l')).
Proof.
  apply (get_ranking_filters_frame 2 cp_example two_queries both_filters
           1000 1 (of_rows 1 [[1]; [1]]%Q) [1; 2]%Q).
  - exact ranking_inputs_example.
  - reflexivity.
  - reflexivity.
Defined.

(** * Edge cases of [get_ranking] *)

(** A loop whose condition holds wherever its body leads never ends
    normally. *)
Lemma while_not_done {St : Type} (Inv : St → Prop) (cond : St → bool)
    (body : St → outcome St) :
  (∀ s, Inv s → cond s = true) →
  (∀ s s', Inv s → body s = Done s' → Inv s') →
  ∀ fuel s r, Inv s → while fuel cond body s ≠ Done r.
Proof.
  intros Hc Hb. induction fuel as [|fuel IH]; intros s r Hs; cbn [while];
    rewrite (Hc s Hs); [done|].
  destruct (body s) as [s'| |] eqn:Hs'; [|done..].
  apply IH. by eapply Hb.
Qed.

Lemma mapM_outcome_take {A B} (f : A → outcome B) (l : list A) (r : list B)
    (n : nat) :
  mapM f l = Done r → mapM f (take n l) = Done (take n r).
Proof.
  revert r n. induction l as [|x l IH]; intros r n; cbn [mapM].
  - intros [= <-]. by destruct n.
  - destruct (f x) as [y| |] eqn:Hx; cbn; [|done..].
    destruct (mapM f l) as [r'| |] eqn:Hl; cbn; [|done..].
    intros [= <-]. destruct n as [|n]; [done|].
    cbn [take mapM]. rewrite Hx. cbn. by rewrite (IH r' n eq_refl).
Qed.

(** X4.  With no candidates ([sizes[2]] not positive) the loop over the
    chunks is not entered: every rank is 1 and the filters are returned
    as they were, whatever the queries, the batch size and the chunk
    size. *)
Theorem get_ranking_no_candidates {M : Type} `{KBCModel M} (fuel : nat)
    (m : M) (qs : list (Z * Z * Z)) (F0 : gmap (Z * Z) (list Z))
    (batch_size chunk_size : Z) :
  sizes2 m ≤ 0 →
  get_ranking fuel m qs F0 batch_size chunk_size
  = Done (replicate (length qs) 1, F0).
Proof.
  intros HN. unfold get_ranking.
  destruct fuel; cbn [while fst];
    (destruct (Z.ltb_spec 0 (sizes2 m)); [lia|done]).
Qed.

Lemma get_ranking_no_candidates_witness :
  get_ranking 0 (CP.Model (1, 1, 0) 1
                   (of_rows 1 [[1]]%Q) (of_rows 1 [[1]]%Q) (of_rows 1 []))
    [(0, 0, 0)] ∅ 1 1
  = Done (replicate (length [(0, 0, 0)]) 1, ∅).
Proof.
  apply (get_ranking_no_candidates 0
           (CP.Model (1, 1, 0) 1
              (of_rows 1 [[1]]%Q) (of_rows 1 [[1]]%Q) (of_rows 1 []))).
  cbn. lia.
Defined.

Lemma no_queries_loop {M : Type} `{KBCModel M} (fuel0 : nat) (m : M)
    (F0 : gmap (Z * Z) (list Z)) (batch_size cs : Z) (rf : list Z * gmap (Z * Z) (list Z)) :
  0 < cs →
  ∀ (n fuel : nat) (c : Z),
    (n ≤ fuel)%nat → sizes2 m ≤ c + Z.of_nat n * cs →
    ∃ c', while fuel (λ s, s.1 <? sizes2 m)
            (chunk_body fuel0 m [] batch_size cs) (c, rf)
          = Done (c', rf).
Proof.
  intros Hcs. induction n as [|n IH]; intros fuel c Hfuel Hc.
  - exists c. destruct fuel; cbn [while fst];
      (destruct (Z.ltb_spec c (sizes2 m)); [lia|done]).
  - destruct fuel as [|fuel]; [lia|]. cbn [while fst].
    destruct (Z.ltb_spec c (sizes2 m)); [|by exists c].
    assert (chunk_body fuel0 m [] batch_size cs (c, rf)
            = Done (c + cs, rf)) as ->.
    { unfold chunk_body. by destruct fuel0. }
    apply IH; lia.
Qed.

(** X5.  An empty list of queries gives an empty list of ranks and leaves
    the filters as they were, for any model, any batch size (even one
    that is not positive) and any chunk size but 0. *)
Theorem get_ranking_no_queries {M : Type} `{KBCModel M} (fuel : nat)
    (m : M) (F0 : gmap (Z * Z) (list Z)) (batch_size chunk_size : Z) :
  chunk_size ≠ 0 → (chunks m chunk_size ≤ fuel)%nat →
  get_ranking fuel m [] F0 batch_size chunk_size = Done ([], F0).
Proof.
  intros Hcs Hfuel.
  destruct (decide (sizes2 m ≤ 0)) as [HN|HN].
  { unfold get_ranking.
    destruct fuel; cbn [while fst];
      (destruct (Z.ltb_spec 0 (sizes2 m)); [lia|done]). }
  unfold get_ranking.
  fold (chunk_size_used m chunk_size).
  assert (0 < chunk_size_used m chunk_size) as Hpos.
  { unfold chunk_size_used. destruct (Z.ltb_spec chunk_size 0); lia. }
  destruct (chunks_enough (sizes2 m) (chunk_size_used m chunk_size))
    as (Hn & _ & _); [lia|done|].
  destruct (no_queries_loop fuel m F0 batch_size
              (chunk_size_used m chunk_size) ([], F0) Hpos
              (chunks m chunk_size) fuel 0 Hfuel) as [c' Hc'].
  { unfold chunks. lia. }
  cbn [length replicate]. by rewrite Hc'.
Qed.

Lemma get_ranking_no_queries_witness :
  get_ranking 2 cp_example [] both_filters (-3) 1 = Done ([], both_filters).
Proof.
  apply (get_ranking_no_queries 2 cp_example both_filters (-3) 1).
  - lia.
  - vm_compute. lia.
Defined.

(** X6.  [chunk_size = 0] with at least one candidate: the chunk never
    advances, so the call never returns ranks, however long it runs. *)
Theorem get_ranking_zero_chunk_size {M : Type} `{KBCModel M} (fuel : nat)
    (m : M) (qs : list (Z * Z * Z)) (F0 : gmap (Z * Z) (list Z))
    (batch_size : Z) (r : list Z * gmap (Z * Z) (list Z)) :
  0 < sizes2 m →
  get_ranking fuel m qs F0 batch_size 0 ≠ Done r.
Proof.
  intros HN Hr. unfold get_ranking in Hr.
  apply bind_Done_inv in Hr as (a & Hw & _).
  revert Hw. apply (while_not_done (λ s, s.1 = 0)).
  - intros [c rf] Hc. cbn in *. subst c. by apply Z.ltb_lt.
  - intros [c rf] s' Hc. cbn in Hc. subst c. cbn [Z.ltb Z.compare].
    unfold chunk_body. intros (a' & _ & Ha')%bind_Done_inv.
    destruct a' as [b rf']. injection Ha' as <-. done.
  - done.
Qed.

Lemma get_ranking_zero_chunk_size_witness :
  get_ranking 5 cp_example two_queries both_filters 1000 0
  ≠ Done ([1; 1], both_filters).
Proof.
  apply (get_ranking_zero_chunk_size 5 cp_example two_queries both_filters
           1000).
  cbn. lia.
Defined.

Lemma batch_body_advance {M : Type} `{KBCModel M} (m : M)
    (qs : list (Z * Z * Z)) (batch_size cs c : Z) (rhs : tensor2)
    (s s' : Z * (list Z * gmap (Z * Z) (list Z))) :
  batch_body m qs batch_size cs c rhs s = Done s' →
  s'.1 = s.1 + batch_size.
Proof.
  destruct s as [b [ranks F]]. unfold batch_body.
  intros (q & _ & Hs)%bind_Done_inv.
  apply bind_Done_inv in Hs as (scores & _ & Hs).
  apply bind_Done_inv in Hs as (targets & _ & Hs).
  apply bind_Done_inv in Hs as ([F' scores'] & _ & Hs).
  by injection Hs as <-.
Qed.

(** X7.  A batch size that is not positive, with at least one query and
    one candidate: the batch never advances past the first query, so the
    call never returns ranks, however long it runs. *)
Theorem get_ranking_nonpositive_batch_size {M : Type} `{KBCModel M}
    (fuel : nat) (m : M) (qs : list (Z * Z * Z))
    (F0 : gmap (Z * Z) (list Z)) (batch_size chunk_size : Z)
    (r : list Z * gmap (Z * Z) (list Z)) :
  0 < sizes2 m → qs ≠ [] → batch_size ≤ 0 →
  get_ranking fuel m qs F0 batch_size chunk_size ≠ Done r.
Proof.
  intros HN Hqs Hbs Hr. unfold get_ranking in Hr.
  apply bind_Done_inv in Hr as (a & Hw & _).
  destruct fuel as [|fuel]; cbn [while fst] in Hw;
    (destruct (Z.ltb_spec 0 (sizes2 m)); [|lia]); [done|].
  destruct (chunk_body _ _ _ _ _ _) as [s1| |] eqn:Hbody; [|done..].
  clear Hw. unfold chunk_body in Hbody.
  apply bind_Done_inv in Hbody as (a' & Hw & _).
  revert Hw. apply (while_not_done (λ s, s.1 ≤ 0)).
  - intros [b rf] Hb. cbn in *. apply Z.ltb_lt.
    destruct qs; [done|]. cbn [length]. lia.
  - intros s s' Hs Hs'. apply batch_body_advance in Hs'. lia.
  - done.
Qed.

Lemma get_ranking_nonpositive_batch_size_witness :
  get_ranking 5 cp_example two_queries both_filters 0 1
  ≠ Done ([1; 1], both_filters).
Proof.
  apply (get_ranking_nonpositive_batch_size 5 cp_example two_queries
           both_filters 0 1).
  - cbn. lia.
  - done.
  - lia.
Defined.

(** X8.  A first query whose (subject, relation) has no entry in
    [filters] makes the call raise [KeyError], once its batch has been
    scored: the filters are looked up without a default. *)
Theorem get_ranking_missing_key {M : Type} `{KBCModel M} (fuel : nat)
    (m : M) (q : Z * Z * Z) (qs : list (Z * Z * Z))
    (F0 : gmap (Z * Z) (list Z)) (batch_size chunk_size : Z)
    (Qm : tensor2) (ts : list Q) :
  lawful m → 0 < sizes2 m → 0 < batch_size → (0 < fuel)%nat →
  get_queries m (q :: qs) = Done Qm → score m (q :: qs) = Done ts →
  F0 !! key_of q = None →
  get_ranking fuel m (q :: qs) F0 batch_size chunk_size = Raised KeyError.
Proof.
  intros [(cands & Hwf & Hrows & Hrhs & f & Hf) (g & Hg & _)]
    HN Hbs Hfuel HQ Hts Hkey.
  unfold get_ranking.
  destruct fuel as [|fuel]; [lia|]. cbn [while fst].
  destruct (Z.ltb_spec 0 (sizes2 m)); [|lia].
  unfold chunk_body at 1. cbn [while fst length].
  destruct (Z.ltb_spec 0 (Z.of_nat (S (length qs)))); [|lia].
  unfold batch_body.
  destruct (Z.to_nat batch_size) as [|n] eqn:Hn; [lia|].
  assert (py_slice (q :: qs) 0 (0 + batch_size) = take (S n) (q :: qs))
    as ->.
  { rewrite <- Hn. apply (py_slice_take_drop (q :: qs) 0 batch_size).
    - lia.
    - cbn [length]. lia. }
  rewrite Hf in HQ. rewrite Hf.
  destruct (mapM f (q :: qs)) as [rows| |] eqn:Hrows_q; [|done..].
  rewrite (mapM_outcome_take f _ _ (S n) Hrows_q).
  cbn [fmap outcome_fmap mbind outcome_bind].
  rewrite Hrhs, matmul_transpose.
  2:{ unfold wf_tensor2, slice_rows, py_slice. cbn.
      by apply Forall_take, Forall_drop. }
  2:{ done. }
  cbn [mbind outcome_bind].
  rewrite Hg in Hts. rewrite Hg.
  rewrite (mapM_outcome_take g _ _ (S n) Hts).
  cbn [mbind outcome_bind take imap mask_queries mask_query].
  change (t_lhs q, t_rel q) with (key_of q). by rewrite Hkey.
Qed.

Lemma get_ranking_missing_key_witness :
  get_ranking 1 cp_example [(0, 0, 0); (0, 0, 1)] ∅ 1000 1
  = Raised KeyError.
Proof.
  apply (get_ranking_missing_key 1 cp_example (0, 0, 0) [(0, 0, 1)] ∅
           1000 1 (of_rows 1 [[1]; [1]]%Q) [1; 2]%Q).
  - apply CP_lawful, cp_example_wf.
  - cbn. lia.
  - lia.
  - lia.
  - reflexivity.
  - reflexivity.
  - reflexivity.
Defined.

(** * Further facts about the scores of [CP] and [ComplEx] *)


(** X9.  For every batch of triples with valid ids, [CP.score] gives for
    each triple the sum over the dimensions [i < rank] of
    [lhs_i * rel_i * rhs_i]. *)
Theorem cp_score_closed_form (m : CP.model) (x : list (Z * Z * Z)) :
  CP_wf m →
  Forall (valid_triple (CP.lhs m) (CP.rel m) (CP.rhs m)) x →
  CP.score m x
  = Done ((λ q, trilinear (CP.rank m)
                  (row_of (CP.lhs m) (t_lhs q))
                  (row_of (CP.rel m) (t_rel q))
                  (row_of (CP.rhs m) (t_rhs q))) <$> x).
Proof.
  intros (Hwl & Hwr & Hwo & Hcl & Hcr & Hco & _) Hx. unfold CP.score.
  rewrite !embedding_valid.
  2-4: apply Forall_fmap; eapply Forall_impl; [exact Hx|];
       unfold valid_triple; cbn; tauto.
  cbn [mbind outcome_bind]. rewrite <- !list_fmap_compose.
  unfold tmul. rewrite tmap2_fmap.
  2:{ eapply Forall_impl; [exact Hx|]. intros q (Hl & Hr & Ho). cbn.
      rewrite !row_of_length; [congruence|done..]. }
  2:{ intros _. rewrite Hcl, Hcr. apply broadcasts_diag. }
  cbn [mbind outcome_bind]. rewrite tmap2_fmap.
  2:{ eapply Forall_impl; [exact Hx|]. intros q (Hl & Hr & Ho). cbn.
      rewrite length_zip_with, !row_of_length; [|done..]. lia. }
  2:{ intros _. rewrite Hcl, Hcr, Hco, broadcast_size_diag.
      apply broadcasts_diag. }
  cbn [mbind outcome_bind]. unfold mret, outcome_ret, sum_dim1, of_rows.
  cbn [trows]. rewrite <- list_fmap_compose. f_equal.
  apply Forall_fmap_ext_1. eapply Forall_impl; [exact Hx|].
  intros q (Hl & Hr & Ho). cbn. apply trilinear_row.
  - rewrite row_of_length; done.
  - rewrite row_of_length; done.
  - rewrite row_of_length; done.
Qed.

Lemma cp_score_closed_form_witness :
  CP.score cp_example [(0, 0, 1); (0, 0, 0)]
  = Done ((λ q, trilinear (CP.rank cp_example)
                  (row_of (CP.lhs cp_example) (t_lhs q))
                  (row_of (CP.rel cp_example) (t_rel q))
                  (row_of (CP.rhs cp_example) (t_rhs q)))
            <$> [(0, 0, 1); (0, 0, 0)]).
Proof.
  apply (cp_score_closed_form cp_example [(0, 0, 1); (0, 0, 0)]).
  - exact cp_example_wf.
  - unfold valid_triple, valid_id.
    apply Forall_cons; split; [cbn; lia|].
    apply Forall_singleton. cbn. lia.
Defined.

Lemma mapM_lookup_row_Done (t : tensor2) (ids : list Z) (rs : list (list Q)) :
  mapM (lookup_row t) ids = Done rs → Forall (valid_id t) ids.
Proof.
  intros Hrs%mapM_outcome_Forall2.
  induction Hrs as [|id r ids rs Hid _ IH]; constructor; [|done].
  by eapply lookup_row_Done_valid.
Qed.

Lemma embedding_cases (t : tensor2) (ids : list Z) :
  (Forall (valid_id t) ids
   ∧ embedding t ids = Done (of_rows (ncols t) (row_of t <$> ids)))
  ∨ (¬ Forall (valid_id t) ids ∧ embedding t ids = Raised IndexError).
Proof.
  destruct (mapM_lookup_row_cases t ids) as [[rs Hrs]|Hrs].
  - left. apply mapM_lookup_row_Done in Hrs.
    split; [done|]. by apply embedding_valid.
  - right. split.
    + intros Hv. apply embedding_valid in Hv. unfold embedding in Hv.
      by rewrite Hrs in Hv.
    + unfold embedding. by rewrite Hrs.
Qed.

Lemma three_embeddings_raise {A} (t1 t2 t3 : tensor2)
    (x : list (Z * Z * Z)) (h : tensor2 → tensor2 → tensor2 → outcome A) :
  (l ← embedding t1 (t_lhs <$> x);
   r ← embedding t2 (t_rel <$> x);
   o ← embedding t3 (t_rhs <$> x);
   h l r o) = Raised IndexError
  ↔ (¬ Forall (valid_triple t1 t2 t3) x
     ∨ (Forall (valid_triple t1 t2 t3) x
        ∧ h (of_rows (ncols t1) (row_of t1 <$> (t_lhs <$> x)))
            (of_rows (ncols t2) (row_of t2 <$> (t_rel <$> x)))
            (of_rows (ncols t3) (row_of t3 <$> (t_rhs <$> x)))
          = Raised IndexError)).
Proof.
  assert (Forall (valid_triple t1 t2 t3) x
          ↔ Forall (valid_id t1) (t_lhs <$> x)
            ∧ Forall (valid_id t2) (t_rel <$> x)
            ∧ Forall (valid_id t3) (t_rhs <$> x)) as Hv.
  { rewrite !Forall_fmap. unfold valid_triple.
    rewrite <- !Forall_and. done. }
  rewrite Hv.
  destruct (embedding_cases t1 (t_lhs <$> x)) as [[V1 ->]|[V1 ->]];
    [|cbn; tauto].
  destruct (embedding_cases t2 (t_rel <$> x)) as [[V2 ->]|[V2 ->]];
    [|cbn; tauto].
  destruct (embedding_cases t3 (t_rhs <$> x)) as [[V3 ->]|[V3 ->]];
    [|cbn; tauto].
  cbn. tauto.
Qed.

(** With valid ids the products of the rows looked up go through. *)
Lemma cp_products_Done (m : CP.model) (x : list (Z * Z * Z)) :
  CP_wf m →
  Forall (valid_id (CP.lhs m)) (t_lhs <$> x) →
  Forall (valid_id (CP.rel m)) (t_rel <$> x) →
  Forall (valid_id (CP.rhs m)) (t_rhs <$> x) →
  ∃ ts,
    (lr ← tmul (of_rows (ncols (CP.lhs m)) (row_of (CP.lhs m) <$> (t_lhs <$> x)))
               (of_rows (ncols (CP.rel m)) (row_of (CP.rel m) <$> (t_rel <$> x)));
     lro ← tmul lr
             (of_rows (ncols (CP.rhs m)) (row_of (CP.rhs m) <$> (t_rhs <$> x)));
     mret (sum_dim1 lro)) = Done ts.
Proof.
  intros (Hwl & Hwr & Hwo & Hcl & Hcr & Hco & _) Vl Vr Vo.
  rewrite Forall_fmap in Vl, Vr, Vo.
  rewrite <- !list_fmap_compose. unfold tmul. rewrite tmap2_fmap.
  2:{ apply Forall_forall. intros q Hq. cbn.
      rewrite Forall_forall in Vl, Vr.
      rewrite !row_of_length; [congruence|done|by apply Vr|done|by apply Vl]. }
  2:{ intros _. rewrite Hcl, Hcr. apply broadcasts_diag. }
  cbn [mbind outcome_bind]. rewrite tmap2_fmap.
  2:{ apply Forall_forall. intros q Hq. cbn.
      rewrite Forall_forall in Vl, Vr, Vo.
      rewrite length_zip_with, !row_of_length;
        [lia|done|by apply Vo|done|by apply Vr|done|by apply Vl]. }
  2:{ intros _. rewrite Hcl, Hcr, Hco, broadcast_size_diag.
      apply broadcasts_diag. }
  by eexists.
Qed.

Lemma complex_products_Done (m : ComplEx.model) (x : list (Z * Z * Z)) :
  ComplEx_wf m →
  Forall (valid_id (ComplEx.embeddings0 m)) (t_lhs <$> x) →
  Forall (valid_id (ComplEx.embeddings1 m)) (t_rel <$> x) →
  Forall (valid_id (ComplEx.embeddings0 m)) (t_rhs <$> x) →
  ∃ ts,
    (t ← ComplEx.bilinear (ComplEx.rank m)
           (of_rows (ncols (ComplEx.embeddings0 m))
              (row_of (ComplEx.embeddings0 m) <$> (t_lhs <$> x)))
           (of_rows (ncols (ComplEx.embeddings1 m))
              (row_of (ComplEx.embeddings1 m) <$> (t_rel <$> x)))
           (of_rows (ncols (ComplEx.embeddings0 m))
              (row_of (ComplEx.embeddings0 m) <$> (t_rhs <$> x)));
     mret (sum_dim1 t)) = Done ts.
Proof.
  intros (Hw0 & Hw1 & Hc0 & Hc1 & _) Vl Vr Vo.
  rewrite Forall_fmap in Vl, Vr, Vo. rewrite Forall_forall in Vl, Vr, Vo.
  rewrite <- !list_fmap_compose.
  destruct (bilinear_fmap (ComplEx.rank m)
              (ncols (ComplEx.embeddings0 m)) (ncols (ComplEx.embeddings1 m))
              (ncols (ComplEx.embeddings0 m))
              (row_of (ComplEx.embeddings0 m) ∘ t_lhs)
              (row_of (ComplEx.embeddings1 m) ∘ t_rel)
              (row_of (ComplEx.embeddings0 m) ∘ t_rhs) x) as (n & ->).
  { apply Forall_forall. intros q Hq. cbn.
    rewrite !row_of_length;
      [done|done|by apply Vo|done|by apply Vr|done|by apply Vl]. }
  { done. }
  by eexists.
Qed.

(** X10.  [CP.score] raises [IndexError] exactly when some id of the
    batch is not a row of the table it is looked up in (negative ids
    included), and it raises nothing else. *)
Theorem cp_score_raises (m : CP.model) (x : list (Z * Z * Z)) :
  CP_wf m →
  (CP.score m x = Raised IndexError
   ↔ ¬ Forall (valid_triple (CP.lhs m) (CP.rel m) (CP.rhs m)) x)
  ∧ ∀ e, CP.score m x = Raised e → e = IndexError.
Proof.
  intros Hwf.
  assert (∀ e, CP.score m x = Raised e →
               e = IndexError
               ∧ ¬ Forall (valid_triple (CP.lhs m) (CP.rel m) (CP.rhs m)) x)
    as Hraise.
  { intros e. unfold CP.score, valid_triple.
    destruct (embedding_cases (CP.lhs m) (t_lhs <$> x)) as [[V1 ->]|[V1 ->]].
    2:{ intros [= <-]. split; [done|]. intros Hv. apply V1.
        apply Forall_fmap. eapply Forall_impl; [exact Hv|]. cbn. tauto. }
    destruct (embedding_cases (CP.rel m) (t_rel <$> x)) as [[V2 ->]|[V2 ->]].
    2:{ intros [= <-]. split; [done|]. intros Hv. apply V2.
        apply Forall_fmap. eapply Forall_impl; [exact Hv|]. cbn. tauto. }
    destruct (embedding_cases (CP.rhs m) (t_rhs <$> x)) as [[V3 ->]|[V3 ->]].
    2:{ intros [= <-]. split; [done|]. intros Hv. apply V3.
        apply Forall_fmap. eapply Forall_impl; [exact Hv|]. cbn. tauto. }
    cbn [mbind outcome_bind].
    destruct (cp_products_Done m x Hwf V1 V2 V3) as [ts ->]. done. }
  split; [|intros e He; by destruct (Hraise e He)].
  split; [intros He; by destruct (Hraise _ He)|].
  intros Hnot. unfold CP.score. apply three_embeddings_raise. by left.
Qed.

Lemma cp_score_raises_witness :
  (CP.score cp_example [(0, 0, 1); (0, 0, 2)] = Raised IndexError
   ↔ ¬ Forall (valid_triple (CP.lhs cp_example) (CP.rel cp_example)
                 (CP.rhs cp_example)) [(0, 0, 1); (0, 0, 2)])
  ∧ ∀ e, CP.score cp_example [(0, 0, 1); (0, 0, 2)] = Raised e
         → e = IndexError.
Proof.
  apply (cp_score_raises cp_example [(0, 0, 1); (0, 0, 2)]).
  exact cp_example_wf.
Defined.

(** X11.  [ComplEx.score] raises [IndexError] exactly when some id of the
    batch is not a row of the table it is looked up in (subjects and
    objects in the entity table, relations in the relation table), and it
    raises nothing else. *)
Theorem complex_score_raises (m : ComplEx.model) (x : list (Z * Z * Z)) :
  ComplEx_wf m →
  (ComplEx.score m x = Raised IndexError
   ↔ ¬ Forall (valid_triple (ComplEx.embeddings0 m)
                 (ComplEx.embeddings1 m) (ComplEx.embeddings0 m)) x)
  ∧ ∀ e, ComplEx.score m x = Raised e → e = IndexError.
Proof.
  intros Hwf.
  assert (∀ e, ComplEx.score m x = Raised e →
               e = IndexError
               ∧ ¬ Forall (valid_triple (ComplEx.embeddings0 m)
                             (ComplEx.embeddings1 m) (ComplEx.embeddings0 m))
                     x)
    as Hraise.
  { intros e. unfold ComplEx.score, valid_triple.
    destruct (embedding_cases (ComplEx.embeddings0 m) (t_lhs <$> x))
      as [[V1 ->]|[V1 ->]].
    2:{ intros [= <-]. split; [done|]. intros Hv. apply V1.
        apply Forall_fmap. eapply Forall_impl; [exact Hv|]. cbn. tauto. }
    destruct (embedding_cases (ComplEx.embeddings1 m) (t_rel <$> x))
      as [[V2 ->]|[V2 ->]].
    2:{ intros [= <-]. split; [done|]. intros Hv. apply V2.
        apply Forall_fmap. eapply Forall_impl; [exact Hv|]. cbn. tauto. }
    destruct (embedding_cases (ComplEx.embeddings0 m) (t_rhs <$> x))
      as [[V3 ->]|[V3 ->]].
    2:{ intros [= <-]. split; [done|]. intros Hv. apply V3.
        apply Forall_fmap. eapply Forall_impl; [exact Hv|]. cbn. tauto. }
    cbn [mbind outcome_bind].
    destruct (complex_products_Done m x Hwf V1 V2 V3) as [ts ->]. done. }
  split; [|intros e He; by destruct (Hraise e He)].
  split; [intros He; by destruct (Hraise _ He)|].
  intros Hnot. unfold ComplEx.score. apply three_embeddings_raise. by left.
Qed.

Lemma complex_example_wf : ComplEx_wf complex_example.
Proof.
  unfold ComplEx_wf, wf_tensor2. cbn.
  repeat split; try reflexivity; repeat constructor.
Qed.

Lemma complex_score_raises_witness :
  (ComplEx.score complex_example [(0, 0, -1)] = Raised IndexError
   ↔ ¬ Forall (valid_triple (ComplEx.embeddings0 complex_example)
                 (ComplEx.embeddings1 complex_example)
                 (ComplEx.embeddings0 complex_example)) [(0, 0, -1)])
  ∧ ∀ e, ComplEx.score complex_example [(0, 0, -1)] = Raised e
         → e = IndexError.
Proof.
  apply (complex_score_raises complex_example [(0, 0, -1)]).
  exact complex_example_wf.
Defined.

(** X12.  [ComplEx.score_emb] returns one scalar for the whole batch: the
    mean over the rows of the complex bilinear product of each row. *)
Theorem complex_score_emb_mean (m : ComplEx.model) (l r o : tensor2)
    (B : nat) :
  (0 < B)%nat →
  nrows l = B → nrows r = B → nrows o = B →
  Forall (λ row, length row = (2 * ComplEx.rank m)%nat) (trows l) →
  Forall (λ row, length row = (2 * ComplEx.rank m)%nat) (trows r) →
  Forall (λ row, length row = (2 * ComplEx.rank m)%nat) (trows o) →
  ComplEx.score_emb m l r o
  = Done (Some (sum_upto B (λ i, complex_bilinear (ComplEx.rank m)
                                   (nth i (trows l) [])
                                   (nth i (trows r) []) (nth i (trows o) []))
                / inject_Z (Z.of_nat B))%Q).
Proof.
  intros HB Hl Hr Ho Wl Wr Wo. unfold ComplEx.score_emb.
  destruct (bilinear_rows (ComplEx.rank m) l r o) as (n & ->);
    [congruence|congruence|done|done|done| |].
  { intros Hnil. unfold nrows in Hl. rewrite Hnil in Hl. cbn in Hl. lia. }
  cbn [mbind outcome_bind]. unfold mret, outcome_ret. f_equal.
  unfold nrows in *. rewrite Hl.
  assert (sum_dim1
            (of_rows n
               ((λ i, zip_with Qplus
                  (zip_with Qmult
                     (zip_with Qminus
                        (zip_with Qmult
                           (take (ComplEx.rank m) (nth i (trows l) []))
                           (take (ComplEx.rank m) (nth i (trows r) [])))
                        (zip_with Qmult
                           (drop (ComplEx.rank m) (nth i (trows l) []))
                           (drop (ComplEx.rank m) (nth i (trows r) []))))
                     (take (ComplEx.rank m) (nth i (trows o) [])))
                  (zip_with Qmult
                     (zip_with Qplus
                        (zip_with Qmult
                           (take (ComplEx.rank m) (nth i (trows l) []))
                           (drop (ComplEx.rank m) (nth i (trows r) [])))
                        (zip_with Qmult
                           (drop (ComplEx.rank m) (nth i (trows l) []))
                           (take (ComplEx.rank m) (nth i (trows r) []))))
                     (drop (ComplEx.rank m) (nth i (trows o) []))))
                <$> seq 0 B))
          = (λ i, complex_bilinear (ComplEx.rank m) (nth i (trows l) [])
                    (nth i (trows r) []) (nth i (trows o) []))
            <$> seq 0 B) as ->.
  { unfold sum_dim1, of_rows. cbn [trows]. rewrite <- list_fmap_compose.
    apply list_fmap_ext. intros k i Hi%lookup_seq. cbn.
    assert (∀ t, length (trows t) = B →
                 Forall (λ row, length row = (2 * ComplEx.rank m)%nat)
                        (trows t) →
                 length (nth i (trows t) []) = (2 * ComplEx.rank m)%nat)
      as Hlen.
    { intros t Ht Wt.
      destruct (lookup_lt_is_Some_2 (trows t) i) as [x Hx]; [lia|].
      rewrite (nth_lookup_Some _ _ _ _ Hx).
      apply (Forall_lookup_1 _ _ _ _ Wt Hx). }
    apply bilinear_row; by apply Hlen. }
  unfold mean, sum_upto.
  destruct B as [|B]; [lia|].
  rewrite length_fmap, length_seq. reflexivity.
Qed.

Lemma complex_score_emb_mean_witness :
  ComplEx.score_emb complex_example
    (of_rows 4 [[1; 0; 1; 0]; [0; 1; 0; 0]]%Q)
    (of_rows 4 [[1; 0; 0; 0]; [1; 1; 0; 0]]%Q)
    (of_rows 4 [[1; 0; 1; 0]; [0; 1; 0; 1]]%Q)
  = Done (Some (sum_upto 2
                  (λ i, complex_bilinear (ComplEx.rank complex_example)
                          (nth i [[1; 0; 1; 0]; [0; 1; 0; 0]]%Q [])
                          (nth i [[1; 0; 0; 0]; [1; 1; 0; 0]]%Q [])
                          (nth i [[1; 0; 1; 0]; [0; 1; 0; 1]]%Q []))
                / inject_Z (Z.of_nat 2))%Q).
Proof.
  apply (complex_score_emb_mean complex_example
           (of_rows 4 [[1; 0; 1; 0]; [0; 1; 0; 0]]%Q)
           (of_rows 4 [[1; 0; 0; 0]; [1; 1; 0; 0]]%Q)
           (of_rows 4 [[1; 0; 1; 0]; [0; 1; 0; 1]]%Q) 2).
  - lia.
  - reflexivity.
  - reflexivity.
  - reflexivity.
  - apply Forall_cons; split; [reflexivity|].
    apply Forall_singleton. reflexivity.
  - apply Forall_cons; split; [reflexivity|].
    apply Forall_singleton. reflexivity.
  - apply Forall_cons; split; [reflexivity|].
    apply Forall_singleton. reflexivity.
Defined.

(** * Candidates, queries and the scores of all objects *)

Lemma slice_rows_all (t : tensor2) :
  slice_rows t 0 (0 + Z.of_nat (nrows t)) = t.
Proof.
  unfold slice_rows.
  change 0 with (Z.of_nat 0) at 1 2.
  rewrite py_slice_take_drop by (unfold nrows; lia).
  rewrite Nat2Z.id. unfold nrows. rewrite drop_0, firstn_all.
  by destruct t.
Qed.

(** The rows of a chunk of a table. *)
Lemma slice_rows_lookup (t : tensor2) (c cs : Z) (j : nat) :
  0 ≤ c → Z.of_nat j < cs → c + Z.of_nat j < Z.of_nat (nrows t) →
  trows (slice_rows t c (c + cs)) !! j = Some (row_of t (c + Z.of_nat j)).
Proof.
  intros Hc Hj Hn. unfold slice_rows, row_of, nrows in *. cbn [trows].
  replace c with (Z.of_nat (Z.to_nat c)) at 1 2 by lia.
  rewrite py_slice_take_drop by lia.
  rewrite lookup_take_lt by lia. rewrite lookup_drop.
  replace (Z.to_nat (c + Z.of_nat j)) with (Z.to_nat c + j)%nat by lia.
  destruct (lookup_lt_is_Some_2 (trows t) (Z.to_nat c + j)) as [r Hr]; [lia|].
  rewrite Hr. by rewrite (nth_lookup_Some _ _ _ _ Hr).
Qed.

Lemma slice_rows_nrows (t : tensor2) (c cs : Z) :
  0 ≤ c ≤ Z.of_nat (nrows t) → 0 ≤ cs →
  Z.of_nat (nrows (slice_rows t c (c + cs)))
  = Z.min cs (Z.of_nat (nrows t) - c).
Proof.
  intros Hc Hcs. unfold slice_rows, nrows in *. cbn [trows].
  replace c with (Z.of_nat (Z.to_nat c)) at 1 2 by lia.
  rewrite py_slice_take_drop by lia.
  rewrite length_take, length_drop. lia.
Qed.

Lemma slice_rows_wf (t : tensor2) (a b : Z) :
  wf_tensor2 t → wf_tensor2 (slice_rows t a b).
Proof.
  intros Hwf. unfold wf_tensor2, slice_rows, py_slice. cbn.
  by apply Forall_take, Forall_drop.
Qed.

(** X13.  [get_rhs] of [CP] and of [ComplEx] serve the candidates chunk
    by chunk: the chunk that begins at [c] has one row for each embedding
    dimension and [min (chunk_size, N - c)] columns, and its column [j]
    is the embedding of candidate [c + j]. *)
Theorem get_rhs_chunk_columns :
  (∀ (m : CP.model) (c cs : Z),
     CP_wf m → 0 ≤ c ≤ sizes2 m → 0 ≤ cs →
     nrows (CP.get_rhs m c cs) = CP.rank m
     ∧ Z.of_nat (ncols (CP.get_rhs m c cs)) = Z.min cs (sizes2 m - c)
     ∧ ∀ j : nat, Z.of_nat j < Z.min cs (sizes2 m - c) →
         column j (CP.get_rhs m c cs)
         = row_of (CP.rhs m) (c + Z.of_nat j))
  ∧ (∀ (m : ComplEx.model) (c cs : Z),
     ComplEx_wf m → 0 ≤ c ≤ sizes2 m → 0 ≤ cs →
     nrows (ComplEx.get_rhs m c cs) = (2 * ComplEx.rank m)%nat
     ∧ Z.of_nat (ncols (ComplEx.get_rhs m c cs)) = Z.min cs (sizes2 m - c)
     ∧ ∀ j : nat, Z.of_nat j < Z.min cs (sizes2 m - c) →
         column j (ComplEx.get_rhs m c cs)
         = row_of (ComplEx.embeddings0 m) (c + Z.of_nat j)).
Proof.
  assert (∀ (t : tensor2) (N : Z) (c cs : Z),
            wf_tensor2 t → Z.of_nat (nrows t) = N → 0 ≤ c ≤ N → 0 ≤ cs →
            nrows (transpose (slice_rows t c (c + cs))) = ncols t
            ∧ Z.of_nat (ncols (transpose (slice_rows t c (c + cs))))
              = Z.min cs (N - c)
            ∧ ∀ j : nat, Z.of_nat j < Z.min cs (N - c) →
                column j (transpose (slice_rows t c (c + cs)))
                = row_of t (c + Z.of_nat j)) as Hgen.
  { intros t N c cs Hwf HN Hc Hcs. subst N. split; [|split].
    - unfold nrows, transpose. cbn. by rewrite length_fmap, length_seq.
    - cbn [ncols transpose]. by apply slice_rows_nrows.
    - intros j Hj. apply column_transpose; [by apply slice_rows_wf|].
      apply slice_rows_lookup; lia. }
  split.
  - intros m c cs (_ & _ & Hwo & _ & _ & Hco & Hrows) Hc Hcs.
    rewrite <- Hco. by apply Hgen.
  - intros m c cs (Hw0 & _ & Hc0 & _ & Hrows) Hc Hcs.
    rewrite <- Hc0. by apply Hgen.
Qed.

Lemma get_rhs_chunk_columns_witness :
  nrows (CP.get_rhs cp_example 1 5) = CP.rank cp_example
  ∧ Z.of_nat (ncols (CP.get_rhs cp_example 1 5))
    = Z.min 5 (sizes2 cp_example - 1)
  ∧ ∀ j : nat, Z.of_nat j < Z.min 5 (sizes2 cp_example - 1) →
      column j (CP.get_rhs cp_example 1 5)
      = row_of (CP.rhs cp_example) (1 + Z.of_nat j).
Proof.
  apply (proj1 get_rhs_chunk_columns cp_example 1 5).
  - exact cp_example_wf.
  - cbn. lia.
  - lia.
Defined.

(** X14.  [CP.forward] on a batch with valid ids returns, next to its
    matrix of scores, the embeddings of the subjects, relations and
    objects of the batch; the first two are what [get_queries_separated]
    returns.  The matrix has a row for each triple and a column for each
    object, and it is the product of [get_queries] with all the
    candidates of [get_rhs]: the matrix that [get_ranking] scores the
    batch with when the candidates are not chunked. *)
Theorem cp_forward_scores (m : CP.model) (x : list (Z * Z * Z)) :
  CP_wf m →
  Forall (valid_triple (CP.lhs m) (CP.rel m) (CP.rhs m)) x →
  ∃ scores l r o Qm,
    CP.forward m x = Done (scores, (l, r, o))
    ∧ CP.get_queries_separated m x = Done (l, r)
    ∧ embedding (CP.rhs m) (t_rhs <$> x) = Done o
    ∧ nrows scores = length x
    ∧ Z.of_nat (ncols scores) = sizes2 m
    ∧ CP.get_queries m x = Done Qm
    ∧ matmul Qm (CP.get_rhs m 0 (sizes2 m)) = Done scores.
Proof.
  intros Hwf Hx.
  pose proof Hwf as (Hwl & Hwr & Hwo & Hcl & Hcr & Hco & Hrows).
  assert (Forall (valid_id (CP.lhs m)) (t_lhs <$> x)) as Vl.
  { apply Forall_fmap. eapply Forall_impl; [exact Hx|]. by intros q (? & _). }
  assert (Forall (valid_id (CP.rel m)) (t_rel <$> x)) as Vr.
  { apply Forall_fmap. eapply Forall_impl; [exact Hx|].
    by intros q (_ & ? & _). }
  assert (Forall (valid_id (CP.rhs m)) (t_rhs <$> x)) as Vo.
  { apply Forall_fmap. eapply Forall_impl; [exact Hx|].
    by intros q (_ & _ & ?). }
  unfold CP.forward, CP.get_queries_separated, CP.get_queries, CP.get_rhs.
  rewrite !embedding_valid by done.
  cbn [mbind outcome_bind mret outcome_ret].
  change (sizes2 m) with (CP.sizes m).2. rewrite <- Hrows.
  rewrite slice_rows_all.
  rewrite <- !list_fmap_compose. unfold tmul. rewrite tmap2_fmap.
  2:{ eapply Forall_impl; [exact Hx|]. intros q (Hl & Hr & Ho). cbn.
      rewrite !row_of_length; [congruence|done..]. }
  2:{ intros _. rewrite Hcl, Hcr. apply broadcasts_diag. }
  cbn [mbind outcome_bind].
  rewrite matmul_transpose;
    [|done|cbn; by rewrite Hcl, Hcr, Hco, broadcast_size_diag].
  cbn [mbind outcome_bind].
  eexists _, _, _, _, _. split; [reflexivity|]. split; [reflexivity|].
  split; [reflexivity|]. split.
  { unfold nrows, of_rows. cbn [trows]. by rewrite !length_fmap. }
  split; [done|]. split; [reflexivity|].
  apply matmul_transpose;
    [done|cbn; by rewrite Hcl, Hcr, Hco, broadcast_size_diag].
Qed.

Lemma cp_forward_scores_witness :
  ∃ scores l r o Qm,
    CP.forward cp_example two_queries = Done (scores, (l, r, o))
    ∧ CP.get_queries_separated cp_example two_queries = Done (l, r)
    ∧ embedding (CP.rhs cp_example) (t_rhs <$> two_queries) = Done o
    ∧ nrows scores = length two_queries
    ∧ Z.of_nat (ncols scores) = sizes2 cp_example
    ∧ CP.get_queries cp_example two_queries = Done Qm
    ∧ matmul Qm (CP.get_rhs cp_example 0 (sizes2 cp_example)) = Done scores.
Proof.
  apply (cp_forward_scores cp_example two_queries).
  - exact cp_example_wf.
  - unfold valid_triple, valid_id.
    apply Forall_cons; split; [cbn; lia|].
    apply Forall_singleton. cbn. lia.
Defined.

(** ** The score of a triple and the product of query and candidate *)

Lemma sum_list_app (a b : list Q) :
  (sum_list (a ++ b) == sum_list a + sum_list b)%Q.
Proof.
  unfold sum_list. induction a as [|x a IH]; cbn [app foldr]; [ring|].
  rewrite IH. ring.
Qed.

Lemma sum_list_zip_plus (a b : list Q) :
  length a = length b →
  (sum_list (zip_with Qplus a b) == sum_list a + sum_list b)%Q.
Proof.
  unfold sum_list. revert b.
  induction a as [|x a IH]; intros [|y b] Hl; cbn [length] in Hl;
    try lia; cbn [zip_with foldr]; [ring|].
  rewrite IH by lia. ring.
Qed.

(** The dot product with a vector of two halves. *)
Lemma dot_halves (k : nat) (a b o : list Q) :
  length a = k → length b = k → length o = (2 * k)%nat →
  (sum_list (zip_with Qplus (zip_with Qmult a (take k o))
                            (zip_with Qmult b (drop k o)))
   == dot (a ++ b) o)%Q.
Proof.
  intros Ha Hb Ho. unfold dot.
  rewrite <- (take_drop k o) at 3.
  rewrite zip_with_app by (rewrite length_take; lia).
  rewrite sum_list_app. apply sum_list_zip_plus.
  rewrite !length_zip_with, length_take, length_drop. lia.
Qed.

Ltac small_integer_tables :=
  split; [lia|]; split; [|cbn; lia];
  repeat first [apply Forall_nil_2 | apply Forall_cons_2];
  (eexists; split; [reflexivity|lia]).

(** X15.  For [ComplEx] on tables of small integers, the product of
    [get_queries] with all the candidates of [get_rhs] holds the scores
    of all objects: its entry for row [i] and object [j] is the score
    that [ComplEx.score] gives the triple of row [i] with [j] as its
    object.  In particular the entry of the true object is the target it
    is compared with by [get_ranking]. *)
Theorem complex_queries_times_candidates (B : Z) (m : ComplEx.model)
    (x : list (Z * Z * Z)) :
  ComplEx_wf m →
  small_integer_tables B (ncols (ComplEx.embeddings0 m))
    [ComplEx.embeddings0 m; ComplEx.embeddings1 m] →
  Forall (λ q, valid_id (ComplEx.embeddings0 m) (t_lhs q)
               ∧ valid_id (ComplEx.embeddings1 m) (t_rel q)) x →
  ∃ Qm scores,
    ComplEx.get_queries m x = Done Qm
    ∧ matmul Qm (ComplEx.get_rhs m 0 (sizes2 m)) = Done scores
    ∧ nrows scores = length x
    ∧ ∀ (i : nat) (q : Z * Z * Z) (j : Z),
        x !! i = Some q → valid_id (ComplEx.embeddings0 m) j →
        ∃ t, ComplEx.score m [(t_lhs q, t_rel q, j)] = Done [t]
             ∧ (t == entry scores i (Z.to_nat j))%Q.
Proof.
  intros (Hw0 & Hw1 & Hc0 & Hc1 & Hrows) _ Hx.
  assert (Forall (valid_id (ComplEx.embeddings0 m)) (t_lhs <$> x)) as Vl.
  { apply Forall_fmap. eapply Forall_impl; [exact Hx|]. by intros q (? & _). }
  assert (Forall (valid_id (ComplEx.embeddings1 m)) (t_rel <$> x)) as Vr.
  { apply Forall_fmap. eapply Forall_impl; [exact Hx|]. by intros q (_ & ?). }
  unfold ComplEx.get_queries, ComplEx.get_rhs.
  rewrite !embedding_valid by done.
  cbn [mbind outcome_bind]. rewrite <- !list_fmap_compose.
  assert (Forall (λ q, length ((row_of (ComplEx.embeddings0 m) ∘ t_lhs) q)
                       = (2 * ComplEx.rank m)%nat
                       ∧ length ((row_of (ComplEx.embeddings1 m) ∘ t_rel) q)
                         = (2 * ComplEx.rank m)%nat) x) as Hlen.
  { eapply Forall_impl; [exact Hx|]. intros q (Hl & Hr). cbn.
    rewrite !row_of_length; done. }
  destruct (product_re_fmap (ComplEx.rank m)
              (ncols (ComplEx.embeddings0 m)) (ncols (ComplEx.embeddings1 m))
              (row_of (ComplEx.embeddings0 m) ∘ t_lhs)
              (row_of (ComplEx.embeddings1 m) ∘ t_rel) x Hlen)
    as (n1 & -> & Hn1); [done|].
  destruct (product_im_fmap (ComplEx.rank m)
              (ncols (ComplEx.embeddings0 m)) (ncols (ComplEx.embeddings1 m))
              (row_of (ComplEx.embeddings0 m) ∘ t_lhs)
              (row_of (ComplEx.embeddings1 m) ∘ t_rel) x Hlen)
    as (n2 & -> & Hn2); [done|].
  rewrite (Hn1 Hc0 Hc1), (Hn2 Hc0 Hc1).
  cbn [mbind outcome_bind mret outcome_ret].
  change (sizes2 m) with (ComplEx.sizes m).2. rewrite <- Hrows.
  rewrite slice_rows_all.
  eexists _, _. split; [reflexivity|].
  rewrite matmul_transpose; [|done|cbn; rewrite Hc0; lia].
  split; [reflexivity|].
  split.
  { unfold nrows, cat_cols, of_rows. cbn [trows].
    rewrite !length_fmap, length_zip_with, !length_fmap. lia. }
  intros i q j Hq Hj.
  pose proof (Forall_lookup_1 _ _ _ _ Hx Hq) as (Hql & Hqr).
  unfold ComplEx.score. cbn [fmap list_fmap].
  rewrite !embedding_valid by (by apply Forall_singleton).
  cbn [mbind outcome_bind fmap list_fmap].
  destruct (bilinear_fmap (ComplEx.rank m)
              (ncols (ComplEx.embeddings0 m)) (ncols (ComplEx.embeddings1 m))
              (ncols (ComplEx.embeddings0 m))
              (row_of (ComplEx.embeddings0 m) ∘ t_lhs)
              (row_of (ComplEx.embeddings1 m) ∘ t_rel)
              (row_of (ComplEx.embeddings0 m) ∘ t_rhs)
              [(t_lhs q, t_rel q, j)]) as (n & Hb).
  { apply Forall_singleton. cbn. rewrite !row_of_length; done. }
  { done. }
  cbn [fmap list_fmap compose t_lhs t_rel t_rhs fst snd] in Hb.
  cbn [t_lhs t_rel t_rhs fst snd].
  rewrite Hb. cbn [mbind outcome_bind mret outcome_ret].
  eexists. split; [reflexivity|].
  cbn [sum_dim1 of_rows trows fmap list_fmap].
  destruct Hj as [Hj0 Hj1]. pose proof Hj1 as Hj2. unfold nrows in Hj2.
  destruct (lookup_lt_is_Some_2 (trows (ComplEx.embeddings0 m)) (Z.to_nat j))
    as [oj Hoj]; [lia|].
  unfold entry, cat_cols, of_rows. cbn [trows].
  rewrite zip_with_fmap_fmap, <- list_fmap_compose.
  erewrite (nth_lookup_Some _ i []).
  2:{ rewrite list_lookup_fmap, Hq. reflexivity. }
  cbn [compose]. erewrite (nth_lookup_Some _ (Z.to_nat j) 0%Q).
  2:{ rewrite list_lookup_fmap, Hoj. reflexivity. }
  unfold row_of at 5 10. rewrite (nth_lookup_Some _ _ _ _ Hoj).
  assert (length (row_of (ComplEx.embeddings0 m) (t_lhs q))
          = (2 * ComplEx.rank m)%nat) as Ll
    by (rewrite row_of_length; done).
  assert (length (row_of (ComplEx.embeddings1 m) (t_rel q))
          = (2 * ComplEx.rank m)%nat) as Lr
    by (rewrite row_of_length; done).
  apply dot_halves.
  - rewrite !length_zip_with, !length_take, !length_drop. lia.
  - rewrite !length_zip_with, !length_take, !length_drop. lia.
  - rewrite <- Hc0. apply (Forall_lookup_1 _ _ _ _ Hw0 Hoj).
Qed.

Lemma complex_queries_times_candidates_witness :
  ∃ Qm scores,
    ComplEx.get_queries complex_example [(0, 0, 0)] = Done Qm
    ∧ matmul Qm (ComplEx.get_rhs complex_example 0 (sizes2 complex_example))
      = Done scores
    ∧ nrows scores = length [(0, 0, 0)]
    ∧ ∀ (i : nat) (q : Z * Z * Z) (j : Z),
        [(0, 0, 0)] !! i = Some q →
        valid_id (ComplEx.embeddings0 complex_example) j →
        ∃ t, ComplEx.score complex_example [(t_lhs q, t_rel q, j)] = Done [t]
             ∧ (t == entry scores i (Z.to_nat j))%Q.
Proof.
  apply (complex_queries_times_candidates 1 complex_example [(0, 0, 0)]).
  - exact complex_example_wf.
  - small_integer_tables.
  - apply Forall_singleton. unfold valid_id. cbn. lia.
Defined.

(** X26.  For [CP] on tables of small integers, the matrix of scores of
    [forward] holds the scores of all objects: its entry for row [i] and
    object [j] is the score that [CP.score] gives the triple of row [i]
    with [j] as its object. *)
Theorem cp_forward_entries (B : Z) (m : CP.model) (x : list (Z * Z * Z)) :
  CP_wf m →
  small_integer_tables B (CP.rank m) [CP.lhs m; CP.rel m; CP.rhs m] →
  Forall (valid_triple (CP.lhs m) (CP.rel m) (CP.rhs m)) x →
  ∃ scores embs,
    CP.forward m x = Done (scores, embs)
    ∧ ∀ (i : nat) (q : Z * Z * Z) (j : Z),
        x !! i = Some q → valid_id (CP.rhs m) j →
        CP.score m [(t_lhs q, t_rel q, j)]
        = Done [entry scores i (Z.to_nat j)].
Proof.
  intros Hwf _ Hx.
  pose proof Hwf as (Hwl & Hwr & Hwo & Hcl & Hcr & Hco & Hrows).
  assert (Forall (valid_id (CP.lhs m)) (t_lhs <$> x)) as Vl.
  { apply Forall_fmap. eapply Forall_impl; [exact Hx|]. by intros q (? & _). }
  assert (Forall (valid_id (CP.rel m)) (t_rel <$> x)) as Vr.
  { apply Forall_fmap. eapply Forall_impl; [exact Hx|].
    by intros q (_ & ? & _). }
  assert (Forall (valid_id (CP.rhs m)) (t_rhs <$> x)) as Vo.
  { apply Forall_fmap. eapply Forall_impl; [exact Hx|].
    by intros q (_ & _ & ?). }
  unfold CP.forward.
  rewrite !embedding_valid by done.
  cbn [mbind outcome_bind]. rewrite <- !list_fmap_compose.
  unfold tmul. rewrite tmap2_fmap.
  2:{ eapply Forall_impl; [exact Hx|]. intros q (Hl & Hr & Ho). cbn.
      rewrite !row_of_length; [congruence|done..]. }
  2:{ intros _. rewrite Hcl, Hcr. apply broadcasts_diag. }
  cbn [mbind outcome_bind].
  rewrite matmul_transpose;
    [|done|cbn; rewrite Hcl, Hcr, Hco; apply broadcast_size_diag].
  cbn [mbind outcome_bind mret outcome_ret].
  eexists _, _. split; [reflexivity|].
  intros i q j Hq Hj. unfold CP.score. cbn [fmap list_fmap].
  pose proof (Forall_lookup_1 _ _ _ _ Hx Hq) as (Hql & Hqr & _).
  rewrite !embedding_valid by (by apply Forall_singleton).
  cbn [mbind outcome_bind fmap list_fmap t_lhs t_rel t_rhs fst snd].
  assert (length (row_of (CP.lhs m) (t_lhs q)) = CP.rank m) as Ll
    by (rewrite row_of_length; done).
  assert (length (row_of (CP.rel m) (t_rel q)) = CP.rank m) as Lr
    by (rewrite row_of_length; done).
  assert (length (row_of (CP.rhs m) j) = CP.rank m) as Lo
    by (rewrite row_of_length; done).
  rewrite (tmap2_zip Qmult).
  2:{ cbn [of_rows trows]. constructor; [congruence|constructor]. }
  2:{ done. }
  cbn [mbind outcome_bind of_rows trows ncols zip_with].
  rewrite (tmap2_zip Qmult).
  2:{ cbn [of_rows trows]. constructor; [|constructor].
      rewrite length_zip_with. lia. }
  2:{ done. }
  cbn [mbind outcome_bind mret outcome_ret of_rows trows ncols zip_with
       sum_dim1 fmap list_fmap].
  do 2 f_equal.
  destruct Hj as [Hj0 Hj1]. pose proof Hj1 as Hj2. unfold nrows in Hj2.
  destruct (lookup_lt_is_Some_2 (trows (CP.rhs m)) (Z.to_nat j))
    as [oj Hoj]; [lia|].
  unfold entry. cbn [trows].
  rewrite <- list_fmap_compose.
  erewrite (nth_lookup_Some _ i []).
  2:{ rewrite list_lookup_fmap, Hq. reflexivity. }
  cbn [compose]. erewrite (nth_lookup_Some _ (Z.to_nat j) 0%Q).
  2:{ rewrite list_lookup_fmap, Hoj. reflexivity. }
  unfold row_of at 3. rewrite (nth_lookup_Some _ _ _ _ Hoj).
  reflexivity.
Qed.

Lemma cp_forward_entries_witness :
  ∃ scores embs,
    CP.forward cp_example [(0, 0, 1)] = Done (scores, embs)
    ∧ ∀ (i : nat) (q : Z * Z * Z) (j : Z),
        [(0, 0, 1)] !! i = Some q → valid_id (CP.rhs cp_example) j →
        CP.score cp_example [(t_lhs q, t_rel q, j)]
        = Done [entry scores i (Z.to_nat j)].
Proof.
  apply (cp_forward_entries 2 cp_example [(0, 0, 1)]).
  - exact cp_example_wf.
  - small_integer_tables.
  - apply Forall_singleton. unfold valid_triple, valid_id. cbn. lia.
Defined.

(** * Distances of the matcher on small integers *)

Lemma Qsq_nonneg (d : Q) : (0 <= d * d)%Q.
Proof. unfold Qle. cbn. nia. Qed.

Lemma sq_dist_nonneg (x y : list Q) : (0 <= sq_dist x y)%Q.
Proof.
  unfold sq_dist, sum_list.
  induction (zip_with Qminus x y) as [|d l IH]; cbn [fmap list_fmap foldr].
  - apply Qle_refl.
  - change 0%Q with (0 + 0)%Q at 1.
    apply Qplus_le_compat; [apply Qsq_nonneg|exact IH].
Qed.

Lemma dot_comm (x y : list Q) : (dot x y == dot y x)%Q.
Proof.
  unfold dot, sum_list. revert y.
  induction x as [|a x IH]; intros [|b y]; cbn [zip_with foldr];
    try ring.
  rewrite IH. ring.
Qed.

Lemma expanded_entry (x c : tensor2) (i j : nat) (xi cj : list Q) :
  trows x !! i = Some xi → trows c !! j = Some cj →
  entry {| ncols := nrows c;
           trows := (λ xi, expanded_dist xi <$> trows c) <$> trows x |} i j
  = expanded_dist xi cj.
Proof.
  intros Hi Hj. unfold entry. cbn [trows].
  erewrite (nth_lookup_Some _ i []).
  2:{ rewrite list_lookup_fmap, Hi. reflexivity. }
  erewrite (nth_lookup_Some _ j 0%Q).
  2:{ rewrite list_lookup_fmap, Hj. reflexivity. }
  reflexivity.
Qed.

(** Concrete matrices of small integers. *)
Ltac small_integers :=
  split; [lia|]; split; [|split; [|cbn; lia]];
  repeat first [apply Forall_nil_2 | apply Forall_cons_2];
  (eexists; split; [reflexivity|lia]).

(** X16.  On matrices of small integers
    [__expanded_pairwise_distances__] does what its docstring says: for
    [x] of shape N x d and [y] of shape M x d it returns an N x M matrix
    whose entry [(i, j)] is the squared Euclidean distance of row [i] of
    [x] and row [j] of [y]; no entry is negative. *)
Theorem expanded_distances_are_squared_norms (B : Z) (x y : tensor2) :
  wf_tensor2 x → wf_tensor2 y → ncols x = ncols y →
  small_integers B x y →
  ∃ dist,
    expanded_pairwise_distances x (Some y) = ([], Some dist)
    ∧ nrows dist = nrows x ∧ ncols dist = nrows y
    ∧ ∀ i j xi yj, trows x !! i = Some xi → trows y !! j = Some yj →
        (entry dist i j == sq_dist xi yj)%Q ∧ (0 <= entry dist i j)%Q.
Proof.
  intros Hx Hy Hc _. eexists. split.
  { by apply expanded_pairwise_distances_spec. }
  split; [unfold nrows; cbn; by rewrite length_fmap|]. split; [done|].
  intros i j xi yj Hi Hj.
  rewrite (expanded_entry x y i j xi yj Hi Hj).
  assert (expanded_dist xi yj == sq_dist xi yj)%Q as He.
  { apply expanded_dist_sq_dist.
    rewrite (Forall_lookup_1 _ _ _ _ Hx Hi), (Forall_lookup_1 _ _ _ _ Hy Hj).
    done. }
  split; [done|]. rewrite He. apply sq_dist_nonneg.
Qed.

Lemma expanded_distances_are_squared_norms_witness :
  ∃ dist,
    expanded_pairwise_distances (of_rows 2 [[1; 2]]%Q)
      (Some (of_rows 2 [[1; 2]; [4; 6]]%Q)) = ([], Some dist)
    ∧ nrows dist = nrows (of_rows 2 [[1; 2]]%Q)
    ∧ ncols dist = nrows (of_rows 2 [[1; 2]; [4; 6]]%Q)
    ∧ ∀ i j xi yj,
        trows (of_rows 2 [[1; 2]]%Q) !! i = Some xi →
        trows (of_rows 2 [[1; 2]; [4; 6]]%Q) !! j = Some yj →
        (entry dist i j == sq_dist xi yj)%Q ∧ (0 <= entry dist i j)%Q.
Proof.
  apply (expanded_distances_are_squared_norms 6 (of_rows 2 [[1; 2]]%Q)
           (of_rows 2 [[1; 2]; [4; 6]]%Q)).
  - apply Forall_singleton. reflexivity.
  - apply Forall_cons; split; [reflexivity|].
    apply Forall_singleton. reflexivity.
  - reflexivity.
  - small_integers.
Defined.

(** X17.  Without [y], [__expanded_pairwise_distances__] measures [x]
    against itself: the result is the one for [y = x], a square matrix
    that, for [x] of small integers, is symmetric and has a zero
    diagonal. *)
Theorem expanded_distances_self (B : Z) (x : tensor2) :
  wf_tensor2 x → small_integers B x x →
  ∃ dist,
    expanded_pairwise_distances x None = ([], Some dist)
    ∧ expanded_pairwise_distances x (Some x) = ([], Some dist)
    ∧ nrows dist = nrows x ∧ ncols dist = nrows x
    ∧ ∀ i j, (i < nrows x)%nat → (j < nrows x)%nat →
        (entry dist i j == entry dist j i)%Q ∧ (entry dist i i == 0)%Q.
Proof.
  intros Hx _. eexists.
  assert (expanded_pairwise_distances x None
          = expanded_pairwise_distances x (Some x)) as -> by done.
  split; [by apply expanded_pairwise_distances_spec|].
  split; [by apply expanded_pairwise_distances_spec|].
  split; [unfold nrows; cbn; by rewrite length_fmap|]. split; [done|].
  intros i j Hi Hj. unfold nrows in Hi, Hj.
  destruct (lookup_lt_is_Some_2 (trows x) i Hi) as [xi Hxi].
  destruct (lookup_lt_is_Some_2 (trows x) j Hj) as [xj Hxj].
  rewrite (expanded_entry x x i j xi xj Hxi Hxj).
  rewrite (expanded_entry x x j i xj xi Hxj Hxi).
  rewrite (expanded_entry x x i i xi xi Hxi Hxi).
  unfold expanded_dist. split; [|ring].
  rewrite (dot_comm xi xj). ring.
Qed.

Lemma expanded_distances_self_witness :
  ∃ dist,
    expanded_pairwise_distances (of_rows 2 [[1; 2]; [4; 6]]%Q) None
    = ([], Some dist)
    ∧ expanded_pairwise_distances (of_rows 2 [[1; 2]; [4; 6]]%Q)
        (Some (of_rows 2 [[1; 2]; [4; 6]]%Q)) = ([], Some dist)
    ∧ nrows dist = nrows (of_rows 2 [[1; 2]; [4; 6]]%Q)
    ∧ ncols dist = nrows (of_rows 2 [[1; 2]; [4; 6]]%Q)
    ∧ ∀ i j, (i < nrows (of_rows 2 [[1; 2]; [4; 6]]%Q))%nat →
             (j < nrows (of_rows 2 [[1; 2]; [4; 6]]%Q))%nat →
        (entry dist i j == entry dist j i)%Q ∧ (entry dist i i == 0)%Q.
Proof.
  apply (expanded_distances_self 6 (of_rows 2 [[1; 2]; [4; 6]]%Q)).
  - apply Forall_cons; split; [reflexivity|].
    apply Forall_singleton. reflexivity.
  - small_integers.
Defined.



(** * The cosine path and the failures of the matcher *)







Lemma closest_vectors_no_candidates (xs : list (list Q)) (c : tensor2)
    (metric : string) :
  nrows c = 0%nat →
  closest_vectors xs c metric
  = (replicate (length xs) CannotClosestVector,
     replicate (length xs) None).
Proof.
  intros Hc. unfold nrows in Hc. apply nil_length_inv in Hc.
  assert (∀ xi, closest_vector xi c metric = ([CannotClosestVector], None))
    as Hone.
  { intros xi. unfold closest_vector. rewrite Hc.
    destruct (_ || _); [done|]. by destruct (contains "cos" _). }
  induction xs as [|xi xs IH]; [done|].
  cbn [closest_vectors]. by rewrite Hone, IH.
Qed.

(** X20.  With no candidate to search, [__closest_matrix__] finds
    nothing under a Euclidean metric: the fast strategy prints that the
    closest matrix cannot be found and returns [None]; the stable
    strategy prints one message for each query and returns a list that
    holds [None] for each query. *)
Theorem closest_matrix_no_candidates (cuda : bool) (x c : tensor2)
    (metric method : string) :
  nrows c = 0%nat → euclidean metric = true →
  (contains "fast" (lower method) = true →
   ∃ log, closest_matrix_of cuda x c metric method
          = ((log ++ [CannotClosestMatrix])%list, None))
  ∧ (contains "fast" (lower method) = false →
     contains "stable" (lower method) = true →
     closest_matrix_of cuda x c metric method
     = (((if cuda then [] else [CudaMemoryHack])
         ++ replicate (nrows x) CannotClosestVector)%list,
        Some (ClosestList (replicate (nrows x) None)))).
Proof.
  intros Hc He. unfold euclidean in He. split.
  - intros Hf. unfold closest_matrix_of. rewrite He, Hf.
    unfold expanded_pairwise_distances.
    destruct (matmul x (transpose c)) as [xy| |].
    + rewrite decide_True.
      * exists (if cuda then [] else [CudaMemoryHack]). by rewrite app_nil_l.
      * cbn. unfold sum_dim1, tmul, tmap2. cbn.
        unfold nrows in Hc. apply nil_length_inv in Hc. by rewrite Hc.
    + exists ((if cuda then [] else [CudaMemoryHack]) ++ [CannotPairwise])%list.
      by rewrite <- app_assoc.
    + exists ((if cuda then [] else [CudaMemoryHack]) ++ [CannotPairwise])%list.
      by rewrite <- app_assoc.
  - intros Hf Hs. unfold closest_matrix_of. rewrite He, Hf, Hs.
    by rewrite closest_vectors_no_candidates.
Qed.

Lemma closest_matrix_no_candidates_witness :
  (contains "fast" (lower "stable") = true →
   ∃ log, closest_matrix_of true (of_rows 1 [[0]; [1]]%Q) (of_rows 1 [])
            "l2" "stable"
          = ((log ++ [CannotClosestMatrix])%list, None))
  ∧ (contains "fast" (lower "stable") = false →
     contains "stable" (lower "stable") = true →
     closest_matrix_of true (of_rows 1 [[0]; [1]]%Q) (of_rows 1 [])
       "l2" "stable"
     = (([] ++ replicate (nrows (of_rows 1 [[0]; [1]]%Q))
                 CannotClosestVector)%list,
        Some (ClosestList
                (replicate (nrows (of_rows 1 [[0]; [1]]%Q)) None)))).
Proof.
  apply (closest_matrix_no_candidates true (of_rows 1 [[0]; [1]]%Q)
           (of_rows 1 []) "l2" "stable").
  - reflexivity.
  - reflexivity.
Defined.

(** X21.  Queries and candidates of different widths, under a Euclidean
    metric with the fast strategy: the product in
    [__expanded_pairwise_distances__] raises, which is printed there, and
    [__closest_matrix__] prints its own message and returns [None]. *)
Theorem closest_matrix_width_mismatch (cuda : bool) (x c : tensor2)
    (metric method : string) :
  ncols x ≠ ncols c →
  euclidean metric = true → contains "fast" (lower method) = true →
  expanded_pairwise_distances x (Some c) = ([CannotPairwise], None)
  ∧ closest_matrix_of cuda x c metric method
    = (((if cuda then [] else [CudaMemoryHack])
        ++ [CannotPairwise; CannotClosestMatrix])%list, None).
Proof.
  intros Hne He Hf. unfold euclidean in He.
  assert (expanded_pairwise_distances x (Some c) = ([CannotPairwise], None))
    as Hexp.
  { unfold expanded_pairwise_distances, matmul.
    assert (nrows (transpose c) = ncols c) as ->.
    { unfold nrows, transpose. cbn. by rewrite length_fmap, length_seq. }
    by rewrite decide_False. }
  split; [done|].
  unfold closest_matrix_of. by rewrite He, Hf, Hexp.
Qed.

Lemma closest_matrix_width_mismatch_witness :
  expanded_pairwise_distances (of_rows 2 [[0; 1]]%Q)
    (Some (of_rows 3 [[0; 1; 2]]%Q)) = ([CannotPairwise], None)
  ∧ closest_matrix_of true (of_rows 2 [[0; 1]]%Q) (of_rows 3 [[0; 1; 2]]%Q)
      "euclidean" "fast"
    = (([] ++ [CannotPairwise; CannotClosestMatrix])%list, None).
Proof.
  apply (closest_matrix_width_mismatch true (of_rows 2 [[0; 1]]%Q)
           (of_rows 3 [[0; 1; 2]]%Q) "euclidean" "fast").
  - cbn. lia.
  - reflexivity.
  - reflexivity.
Defined.

(** * Further facts about [projected_gradient_descent] *)

Section ProjectedGradientDescentEdges.
Context {M : Type} `{KBCModel M}.
Variable Opt : Type.
Variable regularizer : tensor2 → tensor2 → tensor2 → outcome (option Q).
Variable optimizer_step :
  tensor2 → tensor2 → tensor2 → Opt → option (tensor2 * Opt).
Variables (m : M) (lhs pred : tensor2).

Local Abbreviation body :=
  (pgd_body Opt regularizer optimizer_step m lhs pred).
Local Abbreviation pgd :=
  (projected_gradient_descent Opt regularizer optimizer_step).
Local Abbreviation loop := (pgd_loop Opt regularizer optimizer_step).

Local Abbreviation step_raises :=
  (step_raises Opt regularizer optimizer_step m lhs pred).

Lemma pgd_body_raises (st : pgd_state Opt) (e : exn) :
  body st = Raised e ↔ step_raises st e.
Proof.
  unfold pgd_body, step_raises.
  destruct (regularizer _ _ _) as [l_reg|e1|]; cbn [mbind outcome_bind].
  - destruct (score_emb _ _ _ _) as [sc|e2|]; cbn [mbind outcome_bind].
    + destruct (optimizer_step _ _ _ _) as [[g o]|].
      * split; [done|]. intros [?|[(? & _ & ?)|(? & ? & _ & _ & ? & _)]]; done.
      * split.
        -- intros [= <-]. right. right. by exists l_reg, sc.
        -- intros [?|[(? & _ & ?)|(? & ? & _ & _ & _ & ->)]]; done.
    + split.
      * intros [= <-]. right. left. by exists l_reg.
      * intros [?|[(? & _ & ?)|(? & ? & _ & ? & _)]]; congruence.
    + split; [done|].
      intros [?|[(? & _ & ?)|(? & ? & _ & ? & _)]]; congruence.
  - split.
    + intros [= <-]. by left.
    + intros [?|[(? & ? & _)|(? & ? & ? & _)]]; congruence.
  - split; [done|].
    intros [?|[(? & ? & _)|(? & ? & ? & _)]]; congruence.
Qed.

(** Runs of the body that raise: one of them did, in a state that the
    runs before it reached. *)
Lemma iterate_body_raises (n : nat) (st : pgd_state Opt) (e : exn) :
  iterate body n st = Raised e →
  ∃ k sk, (k < n)%nat ∧ iterate body k st = Done sk ∧ body sk = Raised e.
Proof.
  revert st. induction n as [|n IH]; intros st; cbn [iterate]; [done|].
  destruct (body st) as [s1| |] eqn:Hb; [| |done].
  - intros (k & sk & Hk & Hsk & Hraise)%IH.
    exists (S k), sk. split; [lia|]. cbn [iterate]. by rewrite Hb.
  - intros [= <-]. exists 0%nat, st. split; [lia|]. done.
Qed.

Lemma pgd_cond_init (guess : tensor2) (opt : Opt) (max_steps : Z) :
  1 ≤ max_steps → pgd_cond Opt max_steps (pgd_init Opt guess opt) = true.
Proof.
  intros Hmax. unfold pgd_cond. cbn [pgd_init pgd_i prev_loss loss].
  destruct (Z.leb_spec 1 max_steps); [|lia]. by vm_compute.
Qed.

(** X22.  The report of early convergence is off by one.  When the
    search returns after [n] iterations, the counter [i] is [n + 1], and
    "Search converged early after [i] iterations" is printed exactly when
    [n + 1] differs from [max_steps]: it is printed after a full run of
    [max_steps] iterations, and it is not printed when the loop stopped
    one iteration short of [max_steps]. *)
Theorem pgd_early_report (fuel : nat) (max_steps : Z) (guess : tensor2)
    (opt : Opt) (s : pgd_state Opt) :
  (Z.to_nat max_steps ≤ fuel)%nat →
  loop fuel m lhs pred max_steps guess opt = Done s →
  ∃ n : nat,
    (n ≤ Z.to_nat max_steps)%nat
    ∧ iterate body n (pgd_init Opt guess opt) = Done s
    ∧ pgd_i Opt s = Z.of_nat n + 1
    ∧ pgd fuel m lhs pred max_steps guess opt
      = (if decide (Z.of_nat n + 1 = max_steps) then []
         else [ConvergedEarly (Z.of_nat n + 1)],
         Done (Some s))
    ∧ (Z.of_nat n = max_steps →
       (pgd fuel m lhs pred max_steps guess opt).1
       = [ConvergedEarly (max_steps + 1)]).
Proof.
  intros Hfuel Hs. pose proof Hs as Hloop. unfold pgd_loop in Hs.
  apply while_Done_iterate in Hs as (n & _ & Hw & Hk & _).
  pose proof (pgd_iterate_counter _ _ _ _ _ _ _ _ _ Hw) as Hi.
  cbn [pgd_init pgd_i] in Hi.
  assert (n ≤ Z.to_nat max_steps)%nat as Hn.
  { destruct n as [|n]; [lia|].
    destruct (Hk n) as (sk & Hsk & [Hc _]%andb_prop); [lia|].
    apply Z.leb_le in Hc.
    rewrite (pgd_iterate_counter _ _ _ _ _ _ _ _ _ Hsk) in Hc.
    cbn in Hc. lia. }
  assert (pgd fuel m lhs pred max_steps guess opt
          = (if decide (Z.of_nat n + 1 = max_steps) then []
             else [ConvergedEarly (Z.of_nat n + 1)],
             Done (Some s))) as Hrun.
  { unfold projected_gradient_descent. rewrite Hloop.
    replace (pgd_i Opt s) with (Z.of_nat n + 1) by lia.
    by destruct (decide (Z.of_nat n + 1 = max_steps));
      [rewrite decide_False by tauto|rewrite decide_True by done]. }
  exists n. split; [done|]. split; [done|]. split; [lia|].
  split; [done|].
  intros Hfull. rewrite Hrun. cbn [fst]. rewrite decide_False by lia.
  by rewrite Hfull.
Qed.

(** X23.  With [max_steps] not positive the loop is not entered: the
    optimiser is not asked for a single step, the guess returned is the
    initial random one, and the report says that the search converged
    after 1 iteration. *)
Theorem pgd_no_steps (fuel : nat) (max_steps : Z) (guess : tensor2)
    (opt : Opt) :
  max_steps ≤ 0 →
  pgd fuel m lhs pred max_steps guess opt
  = ([ConvergedEarly 1], Done (Some (pgd_init Opt guess opt))).
Proof.
  intros Hmax. unfold projected_gradient_descent, pgd_loop.
  assert (pgd_cond Opt max_steps (pgd_init Opt guess opt) = false) as Hc.
  { unfold pgd_cond. cbn [pgd_init pgd_i].
    destruct (Z.leb_spec 1 max_steps); [lia|done]. }
  assert (while fuel (pgd_cond Opt max_steps) body (pgd_init Opt guess opt)
          = Done (pgd_init Opt guess opt)) as ->.
  { destruct fuel; cbn [while]; by rewrite Hc. }
  cbn [pgd_init pgd_i]. by rewrite decide_True by lia.
Qed.

(** X24.  The search ends within [max_steps] iterations, and a
    [RuntimeError] never leaves it: with fuel for [max_steps] iterations
    it returns the state reached, or an iteration raised.  What raises
    in an iteration is the regulariser, [score_emb] (on shapes that do
    not broadcast, for one) or the optimiser step; a [RuntimeError] is
    caught, "Cannot optimize the queries" is printed and [None] is
    returned, and any other exception is passed on.  A [RuntimeError] in
    the first iteration gives [None] at once when [max_steps] is
    positive. *)
Theorem pgd_returns_or_reports (fuel : nat) (max_steps : Z)
    (guess : tensor2) (opt : Opt) :
  (∀ g, regularizer lhs pred g ≠ OutOfFuel) →
  (∀ g, score_emb m lhs pred g ≠ OutOfFuel) →
  (Z.to_nat max_steps ≤ fuel)%nat →
  ((∃ log s, pgd fuel m lhs pred max_steps guess opt
             = (log, Done (Some s)))
   ∨ (∃ e k sk,
        (k < Z.to_nat max_steps)%nat
        ∧ iterate body k (pgd_init Opt guess opt) = Done sk
        ∧ step_raises sk e
        ∧ pgd fuel m lhs pred max_steps guess opt
          = match e with
            | RuntimeError => ([CannotOptimize], Done None)
            | _ => ([], Raised e)
            end))
  ∧ (1 ≤ max_steps →
     step_raises (pgd_init Opt guess opt) RuntimeError →
     pgd fuel m lhs pred max_steps guess opt = ([CannotOptimize], Done None)).
Proof.
  intros Hreg Hsc Hfuel. split.
  - destruct (pgd_loop_iterate Opt regularizer optimizer_step m lhs pred
                Hreg Hsc fuel max_steps guess opt Hfuel)
      as (n & Hn & Hw & Hne).
    unfold projected_gradient_descent. rewrite Hw.
    destruct (iterate body n (pgd_init Opt guess opt)) as [s|e|] eqn:Hit;
      [| |done].
    + left. by eexists _, _.
    + right. apply iterate_body_raises in Hit as (k & sk & Hk & Hsk & Hraise).
      exists e, k, sk. split; [lia|]. split; [done|].
      split; [by apply pgd_body_raises|]. by destruct e.
  - intros Hmax Hraise%pgd_body_raises.
    unfold projected_gradient_descent, pgd_loop.
    destruct fuel as [|fuel]; [lia|]. cbn [while].
    rewrite pgd_cond_init by done. by rewrite Hraise.
Qed.

(** X25.  A loss that is [nan] ends the search: when the score or the
    regulariser of the first iteration is [nan] and the optimiser step
    goes through, the loop stops after this one iteration, with the
    guess the step produced. *)
Theorem pgd_nan_loss_stops (fuel : nat) (max_steps : Z) (guess : tensor2)
    (opt : Opt) (l_reg sc : option Q) (g : tensor2) (o : Opt) :
  1 ≤ max_steps → (1 ≤ fuel)%nat →
  regularizer lhs pred guess = Done l_reg →
  score_emb m lhs pred guess = Done sc →
  sc = None ∨ l_reg = None →
  optimizer_step lhs pred guess opt = Some (g, o) →
  loop fuel m lhs pred max_steps guess opt
  = Done {| pgd_i := 2; prev_loss := Some 999%Q; loss := None;
            obj_guess := g; optimizer := o |}.
Proof.
  intros Hmax Hfuel Hreg Hsc Hnan Hopt. unfold pgd_loop.
  destruct fuel as [|fuel]; [lia|]. cbn [while].
  rewrite pgd_cond_init by done.
  unfold pgd_body at 1. cbn [pgd_init obj_guess optimizer loss pgd_i].
  rewrite Hreg, Hsc. cbn [mbind outcome_bind]. rewrite Hopt.
  assert (nan_neg (nan_sub sc l_reg) = None) as ->.
  { destruct Hnan as [-> | ->]; [done|]. by destruct sc. }
  destruct fuel; cbn [while]; unfold pgd_cond; cbn [prev_loss loss pgd_i];
    cbn; by rewrite andb_false_r.
Qed.

End ProjectedGradientDescentEdges.

Lemma pgd_early_report_witness :
  ∃ n : nat,
    (n ≤ Z.to_nat 1)%nat
    ∧ iterate (pgd_body unit zero_regularizer frozen_optimizer cp_example
                 (of_rows 1 [[1%Q]]) (of_rows 1 [[1%Q]]))
        n (pgd_init unit (of_rows 1 [[0%Q]]) tt)
      = Done (PgdState unit 2 (Some 999%Q) (Some (- (0 / 1 - 0))%Q)
                (of_rows 1 [[0%Q]]) tt)
    ∧ pgd_i unit (PgdState unit 2 (Some 999%Q) (Some (- (0 / 1 - 0))%Q)
                    (of_rows 1 [[0%Q]]) tt) = Z.of_nat n + 1
    ∧ projected_gradient_descent unit zero_regularizer frozen_optimizer 1
        cp_example (of_rows 1 [[1%Q]]) (of_rows 1 [[1%Q]]) 1
        (of_rows 1 [[0%Q]]) tt
      = (if decide (Z.of_nat n + 1 = 1) then []
         else [ConvergedEarly (Z.of_nat n + 1)],
         Done (Some (PgdState unit 2 (Some 999%Q) (Some (- (0 / 1 - 0))%Q)
                       (of_rows 1 [[0%Q]]) tt)))
    ∧ (Z.of_nat n = 1 →
       (projected_gradient_descent unit zero_regularizer frozen_optimizer 1
          cp_example (of_rows 1 [[1%Q]]) (of_rows 1 [[1%Q]]) 1
          (of_rows 1 [[0%Q]]) tt).1
       = [ConvergedEarly (1 + 1)]).
Proof.
  apply (pgd_early_report unit zero_regularizer frozen_optimizer cp_example
           (of_rows 1 [[1%Q]]) (of_rows 1 [[1%Q]]) 1 1 (of_rows 1 [[0%Q]]) tt).
  - cbn. lia.
  - reflexivity.
Defined.

Lemma pgd_no_steps_witness :
  projected_gradient_descent unit zero_regularizer frozen_optimizer 0
    cp_example (of_rows 1 [[1%Q]]) (of_rows 1 [[1%Q]]) 0
    (of_rows 1 [[0%Q]]) tt
  = ([ConvergedEarly 1], Done (Some (pgd_init unit (of_rows 1 [[0%Q]]) tt))).
Proof.
  apply (pgd_no_steps unit zero_regularizer frozen_optimizer cp_example
           (of_rows 1 [[1%Q]]) (of_rows 1 [[1%Q]]) 0 0).
  lia.
Defined.

(** A query of two rows, a relation embedding of three and a working
    optimiser: [score_emb] cannot broadcast them, and the search returns
    [None]. *)
Lemma pgd_returns_or_reports_witness :
  ((∃ log s,
      projected_gradient_descent unit zero_regularizer frozen_optimizer 20
        cp_example (of_rows 1 [[1]; [1]]%Q) (of_rows 1 [[1]; [1]; [1]]%Q) 20
        (of_rows 1 [[0]; [0]]%Q) tt
      = (log, Done (Some s)))
   ∨ (∃ e k sk,
        (k < Z.to_nat 20)%nat
        ∧ iterate (pgd_body unit zero_regularizer frozen_optimizer
                     cp_example (of_rows 1 [[1]; [1]]%Q)
                     (of_rows 1 [[1]; [1]; [1]]%Q))
            k (pgd_init unit (of_rows 1 [[0]; [0]]%Q) tt) = Done sk
        ∧ step_raises unit zero_regularizer frozen_optimizer cp_example
            (of_rows 1 [[1]; [1]]%Q) (of_rows 1 [[1]; [1]; [1]]%Q) sk e
        ∧ projected_gradient_descent unit zero_regularizer frozen_optimizer
            20 cp_example (of_rows 1 [[1]; [1]]%Q)
            (of_rows 1 [[1]; [1]; [1]]%Q) 20 (of_rows 1 [[0]; [0]]%Q) tt
          = match e with
            | RuntimeError => ([CannotOptimize], Done None)
            | _ => ([], Raised e)
            end))
  ∧ (1 ≤ 20 →
     step_raises unit zero_regularizer frozen_optimizer cp_example
       (of_rows 1 [[1]; [1]]%Q) (of_rows 1 [[1]; [1]; [1]]%Q)
       (pgd_init unit (of_rows 1 [[0]; [0]]%Q) tt) RuntimeError →
     projected_gradient_descent unit zero_regularizer frozen_optimizer 20
       cp_example (of_rows 1 [[1]; [1]]%Q) (of_rows 1 [[1]; [1]; [1]]%Q) 20
       (of_rows 1 [[0]; [0]]%Q) tt
     = ([CannotOptimize], Done None)).
Proof.
  apply (pgd_returns_or_reports unit zero_regularizer frozen_optimizer
           cp_example (of_rows 1 [[1]; [1]]%Q) (of_rows 1 [[1]; [1]; [1]]%Q)
           20 20 (of_rows 1 [[0]; [0]]%Q) tt).
  - intros g. unfold zero_regularizer. discriminate.
  - intros g. apply CP_score_emb_returns.
  - cbn. lia.
Defined.

Lemma pgd_nan_loss_stops_witness :
  pgd_loop unit zero_regularizer frozen_optimizer 20 cp_example
    (of_rows 1 []) (of_rows 1 []) 20 (of_rows 1 []) tt
  = Done {| pgd_i := 2; prev_loss := Some 999%Q; loss := None;
            obj_guess := of_rows 1 []; optimizer := tt |}.
Proof.
  apply (pgd_nan_loss_stops unit zero_regularizer frozen_optimizer
           cp_example (of_rows 1 []) (of_rows 1 []) 20 20 (of_rows 1 []) tt
           (Some 0%Q) None (of_rows 1 []) tt).
  - lia.
  - lia.
  - reflexivity.
  - reflexivity.
  - by left.
  - reflexivity.
Defined.
